(** * three-3mf-exporter: a shallow embedding of [exportTo3MF]

    The exporter of [packages/three-3mf-exporter/src/index.ts] turns a
    three.js scene graph into the tables of a 3MF package (components,
    materials, build items), computes a centring translation and emits
    three documents into a ZIP archive.

    Numbers are IEEE-754 binary64 values ([PrimFloat.float]), as in
    JavaScript.  Identifiers are [Z] because the source uses [-1] as the
    "no component" sentinel.  The closures [processMesh] and [processNode]
    capture three arrays; here they pass an [ExportState] explicitly. *)

From Stdlib Require Import ZArith List String Ascii Floats HexString Lia.
From stdpp Require Import base option list gmap strings pretty.

Local Set Warnings "-register-all".
Local Open Scope string_scope.
Local Open Scope list_scope.

(** ** Values supplied by three.js *)

Record Vector3 := mkVector3 { vx : float; vy : float; vz : float }.

Record Color := mkColor { r : float; g : float; b : float }.

(** [Matrix4.elements]: sixteen numbers in column-major order. *)
Record Matrix4 := mkMatrix4 {
  e0 : float; e1 : float; e2 : float; e3 : float;
  e4 : float; e5 : float; e6 : float; e7 : float;
  e8 : float; e9 : float; e10 : float; e11 : float;
  e12 : float; e13 : float; e14 : float; e15 : float }.

(** A material as the exporter sees it: [mat_color] is [None] when the
    material has no truthy [color] property. *)
Record Material := mkMaterial { mat_color : option Color }.

(** [mesh.material]: falsy, a single material, or an array of them. *)
Inductive MeshMaterial :=
| MaterialAbsent
| MaterialSingle (m : Material)
| MaterialArray (ms : list Material).

(** [geometry.attributes.position] (item size 3) and [geometry.index] of
    a geometry that has its position attribute.  Geometries without one
    are [SparseGeometry], further down. *)
Record BufferGeometry := mkBufferGeometry {
  position : list Vector3;
  index : option (list nat) }.

(** A scene node.  [o_matrix] and [o_matrixWorld] are the node's matrices
    as they stand after the [updateMatrix] / [updateMatrixWorld] calls the
    exporter makes; only nodes whose type is Mesh have their geometry and
    material read. *)
Inductive Object3D := mkObject3D {
  o_type : string;
  o_name : string;
  o_matrix : Matrix4;
  o_matrixWorld : Matrix4;
  o_geometry : BufferGeometry;
  o_material : MeshMaterial;
  o_children : list Object3D }.

(** ** The exporter's tables *)

(** A stored vertex [{ x, y, z }]; a coordinate read outside the position
    buffer is [undefined], here [None]. *)
Record Vertex := mkVertex {
  vert_x : option float; vert_y : option float; vert_z : option float }.

Record Triangle := mkTriangle { v1 : nat; v2 : nat; v3 : nat }.

Record MaterialInfo := mkMaterialInfo {
  m_id : Z;
  m_color : Color;
  m_name : string;
  extruder : Z }.

Record SubComponent := mkSubComponent {
  sc_objectId : Z;
  sc_transform : Matrix4 }.

(** ['mesh' | 'assembly'] *)
Inductive ComponentType := type_mesh | type_assembly.

Record ComponentInfo := mkComponentInfo {
  c_id : Z;
  c_type : ComponentType;
  vertices : list Vertex;
  triangles : list Triangle;
  c_material : option MaterialInfo;
  subComponents : list SubComponent;
  c_name : string;
  c_uuid : string }.

Record BuildItem := mkBuildItem {
  objectId : Z;
  transformMatrix : Matrix4;
  b_uuid : string }.

Inductive Compression := standard | none.

Record PrintConfig := mkPrintConfig {
  printer_name : string;
  filament : string;
  printableWidth : float;
  printableDepth : float;
  printableHeight : float;
  printableArea : string * string * string * string;
  printerSettingsId : string;
  printSettingsId : string;
  compression : Compression;
  metadata : list (string * string) }.

(** [Partial<PrintConfig>]: an absent property is [None]. *)
Record PartialPrintConfig := mkPartialPrintConfig {
  p_printer_name : option string;
  p_filament : option string;
  p_printableWidth : option float;
  p_printableDepth : option float;
  p_printableHeight : option float;
  p_printableArea : option (string * string * string * string);
  p_printerSettingsId : option string;
  p_printSettingsId : option string;
  p_compression : option Compression;
  p_metadata : option (list (string * string)) }.

(** The value handed to [JSON.stringify]. *)
Inductive Json :=
| JString (s : string)
| JArray (l : list Json)
| JObject (fields : list (string * Json)).

(** How a JavaScript computation ends.  [OutOfFuel] only marks a bounded
    unfolding of a recursion that was cut short. *)
Inductive Completion (A : Type) :=
| Normal (a : A)
| Throw
| OutOfFuel.
Arguments Normal {A} a.
Arguments Throw {A}.
Arguments OutOfFuel {A}.

Global Instance Completion_ret : MRet Completion := fun A a => Normal a.

Global Instance Completion_bind : MBind Completion := fun A B k c =>
  match c with
  | Normal a => k a
  | Throw => Throw
  | OutOfFuel => OutOfFuel
  end.

Global Instance Completion_fmap : FMap Completion := fun A B f c =>
  match c with
  | Normal a => Normal (f a)
  | Throw => Throw
  | OutOfFuel => OutOfFuel
  end.

(** [xs.map(f)] where [f] may throw. *)
Fixpoint mapC {A B} (f : A -> Completion B) (l : list A) : Completion (list B) :=
  match l with
  | [] => Normal []
  | a :: l' => b ← f a; bs ← mapC f l'; Normal (b :: bs)
  end.

(** [xs.flatMap(f)] where [f] may throw. *)
Definition flatMapC {A B} (f : A -> Completion (list B)) (l : list A)
  : Completion (list B) :=
  @concat B <$> mapC f l.

(** ** The host: three.js, the number formatter, the clock, the random source *)

Class Host := {
  (** [String(n)] as a template literal performs it *)
  numberToString : float -> string;
  (** [n.toFixed(5)] *)
  toFixed5 : float -> string;
  (** [new Color().set(0x808080)] *)
  gray : Color;
  (** [color.getHexString()] *)
  getHexString : Color -> string;
  (** [m.clone().invert()] *)
  invert : Matrix4 -> Matrix4;
  (** [a.clone().premultiply(b)] *)
  premultiply : Matrix4 -> Matrix4 -> Matrix4;
  (** [v.clone().applyMatrix4(m)] *)
  applyMatrix4 : Vector3 -> Matrix4 -> Vector3;
  (** the value of [Math.random() * 16 | 0] at the k-th call *)
  random16 : nat -> N;
  (** [new Date().toISOString()] *)
  isoNow : string;
  (** [JSON.stringify] *)
  JSON_stringify : Json -> string }.

(** ** Constants *)

Definition defaultPrintConfig : PrintConfig := {|
  printer_name := "Bambu Lab A1";
  filament := "Bambu PLA Basic @BBL A1";
  printableWidth := 256;
  printableDepth := 256;
  printableHeight := 256;
  printableArea := ("0x0", "256x0", "256x256", "0x256");
  printerSettingsId := "Bambu Lab A1 0.4 nozzle";
  printSettingsId := "0.20mm Standard @BBL A1";
  compression := standard;
  metadata := [("Application", "BambuStudio-02.04.00.70");
               ("ApplicationTitle", "Exported 3D Model")] |}.

Inductive JSZipCompression := DEFLATE | STORE.

Definition JSZipCompressionMap (c : Compression) : JSZipCompression :=
  match c with standard => DEFLATE | none => STORE end.

(** [Object.assign({}, defaultPrintConfig, printJobConfig)] *)
Definition mergePrintConfig (printJobConfig : option PartialPrintConfig) : PrintConfig :=
  match printJobConfig with
  | None => defaultPrintConfig
  | Some p => {|
      printer_name := default (printer_name defaultPrintConfig) (p_printer_name p);
      filament := default (filament defaultPrintConfig) (p_filament p);
      printableWidth := default (printableWidth defaultPrintConfig) (p_printableWidth p);
      printableDepth := default (printableDepth defaultPrintConfig) (p_printableDepth p);
      printableHeight := default (printableHeight defaultPrintConfig) (p_printableHeight p);
      printableArea := default (printableArea defaultPrintConfig) (p_printableArea p);
      printerSettingsId := default (printerSettingsId defaultPrintConfig) (p_printerSettingsId p);
      printSettingsId := default (printSettingsId defaultPrintConfig) (p_printSettingsId p);
      compression := default (compression defaultPrintConfig) (p_compression p);
      metadata := default (metadata defaultPrintConfig) (p_metadata p) |}
  end.

(** The state the closures of [exportTo3MF] share: the three tables, the
    world-space vertices gathered for centring, and the number of random
    draws made so far. *)
Record ExportState := mkExportState {
  components : list ComponentInfo;
  materials : list MaterialInfo;
  buildItems : list BuildItem;
  allVerticesWorld : list Vector3;
  rng : nat }.

Definition initialState : ExportState :=
  {| components := []; materials := []; buildItems := [];
     allVerticesWorld := []; rng := 0 |}.

(** ** Programs over the shared tables

    The emitters are handed [components], [materials] and [buildItems]
    by reference: what their callbacks read are the stored objects
    themselves ([item.transformMatrix.elements] is the stored array), and
    an assignment to one of them would be seen by everything that runs
    later.  An emitter is therefore a program over the state: it returns
    its result together with the state it leaves. *)
Definition Emit (A : Type) : Type := ExportState -> Completion (A * ExportState).

Global Instance Emit_ret : MRet Emit := fun A a st => Normal (a, st).

Global Instance Emit_bind : MBind Emit := fun A B k m st =>
  match m st with
  | Normal r => k r.1 r.2
  | Throw => Throw
  | OutOfFuel => OutOfFuel
  end.

(** Reading a table of the state. *)
Definition readE {A} (table : ExportState -> A) : Emit A :=
  fun st => Normal (table st, st).

(** A computation that touches no table. *)
Definition liftE {A} (c : Completion A) : Emit A :=
  fun st => (fun a => (a, st)) <$> c.

(** [table.map(callback)], from position [k] on and for [n] positions:
    the element at a position is read when its turn comes, and the
    callback is run on it; a position that the array no longer has is
    not visited and leaves a hole in the result. *)
Fixpoint mapFrom {A B} (table : ExportState -> list A)
    (callback : A -> nat -> Emit B) (k n : nat) : Emit (list (option B)) :=
  match n with
  | O => mret []
  | S n' => fun st =>
      match table st !! k with
      | Some a =>
          (b ← callback a k;
           bs ← mapFrom table callback (S k) n';
           mret (Some b :: bs)) st
      | None => (bs ← mapFrom table callback (S k) n'; mret (None :: bs)) st
      end
  end.

(** The length is read once, before the first call. *)
Definition mapArray {A B} (table : ExportState -> list A)
    (callback : A -> nat -> Emit B) : Emit (list (option B)) :=
  fun st => mapFrom table callback 0 (length (table st)) st.

(** [array.join(separator)]: a hole is printed as the empty text. *)
Definition joinE (separator : string) (pieces : list (option string)) : string :=
  String.concat separator (default EmptyString <$> pieces).

(** [table.forEach(callback)], where the callback updates local
    variables [acc] of the caller. *)
Fixpoint forEachFrom {A L} (table : ExportState -> list A)
    (callback : L -> A -> nat -> Emit L) (k n : nat) (acc : L) : Emit L :=
  match n with
  | O => mret acc
  | S n' => fun st =>
      match table st !! k with
      | Some a =>
          (acc' ← callback acc a k; forEachFrom table callback (S k) n' acc') st
      | None => forEachFrom table callback (S k) n' acc st
      end
  end.

Definition forEachArray {A L} (table : ExportState -> list A)
    (callback : L -> A -> nat -> Emit L) (acc : L) : Emit L :=
  fun st => forEachFrom table callback 0 (length (table st)) acc st.

Section Exporter.
Context `{Host}.

(** *** generateUUID *)

(** [v.toString(16)] *)
Definition toString16 (v : N) : string :=
  match v with
  | N0 => "0"
  | Npos p => HexString.Raw.of_pos p EmptyString
  end.

(** The callback of [replace(/[xy]/g, ...)], for the k-th random draw. *)
Definition uuidDigit (c : ascii) (k : nat) : string :=
  let r := random16 k in
  let v := if Ascii.eqb c "x" then r else N.lor (N.land r 3) 8 in
  toString16 v.

Fixpoint replaceXY (template : string) (k : nat) : string * nat :=
  match template with
  | EmptyString => (EmptyString, k)
  | String c rest =>
      if Ascii.eqb c "x" || Ascii.eqb c "y" then
        let '(out, k') := replaceXY rest (S k) in (uuidDigit c k +:+ out, k')
      else
        let '(out, k') := replaceXY rest k in (String c out, k')
  end.

Definition generateUUID (k : nat) : string * nat :=
  replaceXY "xxxxxxxx-xxxx-4xxx-yxxx-xxxxxxxxxxxx" k.

(** *** processMesh: material *)

(** [m.color.r === color.r && m.color.g === color.g && m.color.b === color.b] *)
Definition sameColor (c1 c2 : Color) : bool :=
  PrimFloat.eqb (r c1) (r c2) && PrimFloat.eqb (g c1) (g c2)
  && PrimFloat.eqb (b c1) (b c2).

(** The colour [processMesh] settles on, [None] when [mesh.material] is
    falsy.  An array contributes its first element; a missing material or
    a material without colour gives the default gray. *)
Definition meshColor (material : MeshMaterial) : option Color :=
  match material with
  | MaterialAbsent => None
  | MaterialSingle m => Some (default gray (mat_color m))
  | MaterialArray ms =>
      Some (match ms with
            | m :: _ => default gray (mat_color m)
            | [] => gray
            end)
  end.

(** Look the colour up in the material list; append a new entry when no
    stored colour equals it. *)
Definition resolveMaterial (meshName : string) (color : Color)
    (materials : list MaterialInfo) : MaterialInfo * list MaterialInfo :=
  match List.find (fun m => sameColor (m_color m) color) materials with
  | Some existingMaterial => (existingMaterial, materials)
  | None =>
      let extruder := (Z.of_nat (length materials) + 1)%Z in
      let materialInfo := {|
        m_id := (Z.of_nat (length materials) + 1)%Z;
        m_color := color;
        m_name := if String.eqb meshName EmptyString
                  then "material_" +:+ pretty (length materials)
                  else meshName +:+ "_material";
        extruder := extruder |} in
      (materialInfo, materials ++ [materialInfo])
  end.

Definition processMaterial (mesh : Object3D) (materials : list MaterialInfo)
  : option MaterialInfo * list MaterialInfo :=
  match meshColor (o_material mesh) with
  | None => (None, materials)
  | Some color =>
      let '(materialInfo, materials') :=
        resolveMaterial (o_name mesh) color materials in
      (Some materialInfo, materials')
  end.

(** *** processMesh: vertices and triangles *)

Definition undefinedVertex : Vertex :=
  {| vert_x := None; vert_y := None; vert_z := None |}.

(** [vertex.fromBufferAttribute(positionAttr, vertexIndex)]; the index is
    [None] when it was itself read outside the index buffer. *)
Definition fromBufferAttribute (positionAttr : list Vector3)
    (vertexIndex : option nat) : Vertex :=
  match vertexIndex ≫= (positionAttr !!.) with
  | Some p => {| vert_x := Some (vx p); vert_y := Some (vy p); vert_z := Some (vz p) |}
  | None => undefinedVertex
  end.

Definition coordToString (c : option float) : string :=
  match c with
  | Some n => numberToString n
  | None => "undefined"
  end.

Definition vertexKey (vertex : Vertex) : string :=
  coordToString (vert_x vertex) +:+ "," +:+ coordToString (vert_y vertex)
  +:+ "," +:+ coordToString (vert_z vertex).

(** [vertexMap] together with [component.vertices]. *)
Definition VertexState : Type := gmap string nat * list Vertex.

Definition processVertex (positionAttr : list Vector3) (vertexIndex : option nat)
    (vs : VertexState) : nat * VertexState :=
  let vertex := fromBufferAttribute positionAttr vertexIndex in
  let key := vertexKey vertex in
  match vs.1 !! key with
  | Some i => (i, vs)
  | None => (length vs.2, (<[key := length vs.2]> vs.1, vs.2 ++ [vertex]))
  end.

(** The values [i] takes in [for (let i = 0; i < count; i += 3)]. *)
Definition triangleStarts (count : nat) : list nat :=
  (fun k => 3 * k) <$> seq 0 ((count + 2) / 3).

(** The three arguments given to [processVertex] for the triangle that
    starts at [i]. *)
Definition corners (geometry : BufferGeometry) (i : nat)
  : option nat * option nat * option nat :=
  match index geometry with
  | Some indexAttr => (indexAttr !! i, indexAttr !! (i + 1), indexAttr !! (i + 2))
  | None => (Some i, Some (i + 1), Some (i + 2))
  end.

Definition loopCount (geometry : BufferGeometry) : nat :=
  match index geometry with
  | Some indexAttr => length indexAttr
  | None => length (position geometry)
  end.

Definition processTriangle (positionAttr : list Vector3)
    (c : option nat * option nat * option nat) (acc : list Triangle * VertexState)
  : list Triangle * VertexState :=
  let '(a1, a2, a3) := c in
  let '(i1, s1) := processVertex positionAttr a1 acc.2 in
  let '(i2, s2) := processVertex positionAttr a2 s1 in
  let '(i3, s3) := processVertex positionAttr a3 s2 in
  (acc.1 ++ [{| v1 := i1; v2 := i2; v3 := i3 |}], s3).

Definition processTriangles (geometry : BufferGeometry)
  : list Triangle * VertexState :=
  fold_left (fun acc i => processTriangle (position geometry) (corners geometry i) acc)
    (triangleStarts (loopCount geometry)) ([], (∅, [])).

Definition processMesh (mesh : Object3D) (st : ExportState) : Z * ExportState :=
  let '(materialInfo, materials') := processMaterial mesh (materials st) in
  let componentId := (Z.of_nat (length (components st)) + 1)%Z in
  let '(uuid, rng') := generateUUID (rng st) in
  let '(tris, (_, verts)) := processTriangles (o_geometry mesh) in
  let component := {|
    c_id := componentId;
    c_type := type_mesh;
    vertices := verts;
    triangles := tris;
    c_material := materialInfo;
    c_name := if String.eqb (o_name mesh) EmptyString
              then "Mesh-" +:+ pretty componentId else o_name mesh;
    subComponents := [];
    c_uuid := uuid |} in
  (componentId,
   {| components := components st ++ [component];
      materials := materials';
      buildItems := buildItems st;
      allVerticesWorld := allVerticesWorld st;
      rng := rng' |}).

(** *** processNode *)

Definition isContainer (type : string) : bool :=
  String.eqb type "Group" || String.eqb type "Object3D" || String.eqb type "Scene".

(** [child.matrixWorld.clone().premultiply(node.matrixWorld.clone().invert())] *)
Definition relMatrix (child node : Object3D) : Matrix4 :=
  premultiply (o_matrixWorld child) (invert (o_matrixWorld node)).

(** One turn of [node.children.forEach]: [subId] is what [processNode]
    returned for [child]. *)
Definition pushSub (node child : Object3D) (subId : Z)
    (subs : list SubComponent) : list SubComponent :=
  if (subId =? -1)%Z then subs
  else subs ++ [{| sc_objectId := subId; sc_transform := relMatrix child node |}].

(** What [processNode] does with a container once its children are done. *)
Definition closeAssembly (node : Object3D) (subs : list SubComponent)
    (st : ExportState) : Z * ExportState :=
  if bool_decide (0 < length subs) then
    let assemblyId := (Z.of_nat (length (components st)) + 1)%Z in
    let '(uuid, rng') := generateUUID (rng st) in
    (assemblyId,
     {| components := components st ++ [{|
          c_id := assemblyId;
          c_type := type_assembly;
          subComponents := subs;
          c_name := if String.eqb (o_name node) EmptyString
                    then "Group-" +:+ pretty assemblyId else o_name node;
          vertices := []; triangles := []; c_material := None; c_uuid := uuid |}];
        materials := materials st;
        buildItems := buildItems st;
        allVerticesWorld := allVerticesWorld st;
        rng := rng' |})
  else (-1, st)%Z.

Fixpoint processNode (node : Object3D) (st : ExportState) {struct node}
  : Z * ExportState :=
  if String.eqb (o_type node) "Mesh" then processMesh node st
  else if isContainer (o_type node) then
    let '(subs, st') :=
      fold_left (fun acc child =>
                   let '(subId, st1) := processNode child acc.2 in
                   (pushSub node child subId acc.1, st1))
        (o_children node) ([], st) in
    closeAssembly node subs st'
  else (-1, st)%Z.

(** The [node.children.forEach] of [processNode] as a function of its
    own: the sub-component list and the state after the children in
    [children] have been processed. *)
Definition processChildren (node : Object3D) (children : list Object3D)
    (acc : list SubComponent * ExportState) : list SubComponent * ExportState :=
  fold_left (fun acc child =>
               let '(subId, st1) := processNode child acc.2 in
               (pushSub node child subId acc.1, st1))
    children acc.

(** *** The top-level traversal *)

(** [new Vector3(v.x, v.y, v.z)]: the constructor's parameters default to
    0, so an undefined coordinate becomes 0. *)
Definition toVector3 (v : Vertex) : Vector3 :=
  {| vx := default 0%float (vert_x v);
     vy := default 0%float (vert_y v);
     vz := default 0%float (vert_z v) |}.

(** [components.find(x => x.id === id)] *)
Definition findComponent (components : list ComponentInfo) (id : Z)
  : option ComponentInfo :=
  List.find (fun x => (c_id x =? id)%Z) components.

(** [getVerts]; reading [.type] of a component that [find] did not find
    throws.  The recursion follows the table, so it is unfolded [fuel]
    times. *)
Fixpoint getVerts (fuel : nat) (components : list ComponentInfo)
    (c : ComponentInfo) : Completion (list Vector3) :=
  match fuel with
  | O => OutOfFuel
  | S fuel' =>
      match c_type c with
      | type_assembly =>
          flatMapC (fun sc =>
            match findComponent components (sc_objectId sc) with
            | None => Throw
            | Some subComp =>
                map (fun v => applyMatrix4 v (sc_transform sc))
                  <$> getVerts fuel' components subComp
            end) (subComponents c)
      | type_mesh => Normal (map toVector3 (vertices c))
      end
  end.

(** The body of [rootChildren.forEach]. *)
Definition exportChild (child : Object3D) (st : ExportState)
  : Completion ExportState :=
  let '(childId, st1) := processNode child st in
  if (childId =? -1)%Z then Normal st1
  else
    let itemMatrix := o_matrix child in
    match findComponent (components st1) childId with
    | None => Throw
    | Some targetComp =>
        verts ← getVerts (length (components st1)) (components st1) targetComp;
        let '(uuid, rng') := generateUUID (rng st1) in
        Normal {|
          components := components st1;
          materials := materials st1;
          buildItems := buildItems st1 ++
            [{| objectId := childId; transformMatrix := itemMatrix; b_uuid := uuid |}];
          allVerticesWorld := allVerticesWorld st1 ++
            map (fun vec => applyMatrix4 vec itemMatrix) verts;
          rng := rng' |}
    end.

Fixpoint forEachRootChild (rootChildren : list Object3D) (st : ExportState)
  : Completion ExportState :=
  match rootChildren with
  | [] => Normal st
  | child :: rest => st' ← exportChild child st; forEachRootChild rest st'
  end.

Definition rootChildren (object : Object3D) : list Object3D :=
  if String.eqb (o_type object) "Scene" then o_children object else [object].

(** Everything [exportTo3MF] does before the centring logic. *)
Definition traverse (object : Object3D) : Completion ExportState :=
  forEachRootChild (rootChildren object) initialState.

(** *** Centring *)

Definition isNegZero (x : float) : bool := is_zero x && get_sign x.
Definition isPosZero (x : float) : bool := is_zero x && negb (get_sign x).

(** [Math.min(a, b)]: NaN if either is NaN, and -0 is below +0. *)
Definition Math_min (a b : float) : float :=
  if is_nan a || is_nan b then nan
  else
    let step lowest number :=
      if PrimFloat.ltb number lowest || (isNegZero number && isPosZero lowest)
      then number else lowest in
    step (step infinity a) b.

(** [Math.max(a, b)]: NaN if either is NaN, and +0 is above -0. *)
Definition Math_max (a b : float) : float :=
  if is_nan a || is_nan b then nan
  else
    let step highest number :=
      if PrimFloat.ltb highest number || (isPosZero number && isNegZero highest)
      then number else highest in
    step (step neg_infinity a) b.

Definition growBox (box : Vector3 * Vector3) (v : Vector3) : Vector3 * Vector3 :=
  ({| vx := Math_min (vx box.1) (vx v);
      vy := Math_min (vy box.1) (vy v);
      vz := Math_min (vz box.1) (vz v) |},
   {| vx := Math_max (vx box.2) (vx v);
      vy := Math_max (vy box.2) (vy v);
      vz := Math_max (vz box.2) (vz v) |}).

(** [min] and [max] after the centring loop. *)
Definition boundingBox (allVerticesWorld : list Vector3) : Vector3 * Vector3 :=
  if bool_decide (0 < length allVerticesWorld) then
    fold_left growBox allVerticesWorld
      ({| vx := infinity; vy := infinity; vz := infinity |},
       {| vx := neg_infinity; vy := neg_infinity; vz := neg_infinity |})
  else ({| vx := 0; vy := 0; vz := 0 |}, {| vx := 0; vy := 0; vz := 0 |}).

Definition modelCenter (box : Vector3 * Vector3) : Vector3 :=
  {| vx := (vx box.1 + vx box.2) / 2;
     vy := (vy box.1 + vy box.2) / 2;
     vz := (vz box.1 + vz box.2) / 2 |}.

Definition bedCenter (printConfig : PrintConfig) : Vector3 :=
  {| vx := printableWidth printConfig / 2;
     vy := printableDepth printConfig / 2;
     vz := 0 |}.

Definition centeringShift (printConfig : PrintConfig)
    (allVerticesWorld : list Vector3) : Vector3 :=
  let box := boundingBox allVerticesWorld in
  {| vx := vx (bedCenter printConfig) - vx (modelCenter box);
     vy := vy (bedCenter printConfig) - vy (modelCenter box);
     vz := vz (bedCenter printConfig) - vz box.1 |}.

(** *** Text helpers *)

(** The double-quote and line-feed characters. *)
Definition dq : string := String "034"%char EmptyString.
Definition nl : string := String "010"%char EmptyString.

(** Juxtaposition inside a template literal. *)
Definition cat (pieces : list string) : string := String.concat EmptyString pieces.

(** [name="value"] *)
Definition attr (name value : string) : string := cat [name; "="; dq; value; dq].

(** [n.toFixed(5)] on a stored coordinate: calling a method of
    [undefined] throws. *)
Definition toFixedC (c : option float) : Completion string :=
  match c with
  | Some n => Normal (toFixed5 n)
  | None => Throw
  end.

(** The twelve numbers of a 3MF transform: the linear part of [e]
    followed by the translation [tx ty tz]. *)
Definition transformString (e : Matrix4) (tx ty tz : float) : string :=
  String.concat " "
    [toFixed5 (e0 e); toFixed5 (e1 e); toFixed5 (e2 e);
     toFixed5 (e4 e); toFixed5 (e5 e); toFixed5 (e6 e);
     toFixed5 (e8 e); toFixed5 (e9 e); toFixed5 (e10 e);
     toFixed5 tx; toFixed5 ty; toFixed5 tz].

(** *** createMainModelXML *)

Definition metadataXML (key value : string) : string :=
  cat ["<metadata "; attr "name" key; ">"; value; "</metadata>"].

Definition componentRefXML (sc : SubComponent) : string :=
  let e := sc_transform sc in
  cat ["<component "; attr "objectid" (pretty (sc_objectId sc)); " ";
       attr "transform" (transformString e (e12 e) (e13 e) (e14 e)); " />"].

Definition vertexXML (v : Vertex) : Completion string :=
  sx ← toFixedC (vert_x v);
  sy ← toFixedC (vert_y v);
  sz ← toFixedC (vert_z v);
  Normal (cat ["<vertex "; attr "x" sx; " "; attr "y" sy; " "; attr "z" sz; " />"]).

Definition triangleXML (t : Triangle) : string :=
  cat ["<triangle "; attr "v1" (pretty (v1 t)); " "; attr "v2" (pretty (v2 t)); " ";
       attr "v3" (pretty (v3 t)); " />"].

(** One [<object>] of the resources. *)
Definition resourceXML (c : ComponentInfo) : Completion string :=
  match c_type c with
  | type_assembly =>
      let comps := cat (map componentRefXML (subComponents c)) in
      Normal (cat ["<object "; attr "id" (pretty (c_id c)); " "; attr "type" "model"; " ";
                   attr "name" (c_name c); "><components>"; comps;
                   "</components></object>"])
  | type_mesh =>
      vs ← mapC vertexXML (vertices c);
      let vXml := String.concat " " vs in
      let tXml := String.concat " " (map triangleXML (triangles c)) in
      Normal (cat ["<object "; attr "id" (pretty (c_id c)); " "; attr "type" "model"; " ";
                   attr "name" (c_name c); "><mesh><vertices>"; vXml;
                   "</vertices><triangles>"; tXml; "</triangles></mesh></object>"])
  end.

(** One [<item>] of the build: the centring shift is added to elements
    12, 13 and 14 of the item's matrix. *)
Definition itemXML (shift : Vector3) (item : BuildItem) : string :=
  let e := transformMatrix item in
  let tx := (e12 e + vx shift)%float in
  let ty := (e13 e + vy shift)%float in
  let tz := (e14 e + vz shift)%float in
  cat ["<item "; attr "objectid" (pretty (objectId item)); " ";
       attr "transform" (transformString e tx ty tz); " "; attr "printable" "1"; " />"].

Definition modelOpenTag : string :=
  cat ["<model "; attr "unit" "millimeter"; " "; attr "xml:lang" "en-US"; " ";
       attr "xmlns" "http://schemas.microsoft.com/3dmanufacturing/core/2015/02"; " ";
       attr "xmlns:slic3rpe" "http://schemas.slic3r.org/3mf/2017/06"; " ";
       attr "xmlns:p" "http://schemas.microsoft.com/3dmanufacturing/production/2015/06"; " ";
       attr "requiredextensions" "p"; ">"].

Definition xmlDeclaration : string :=
  cat ["<?xml "; attr "version" "1.0"; " "; attr "encoding" "UTF-8"; "?>"].

(** The template literal that [createMainModelXML] returns. *)
Definition modelDocument (metadata : list string) (resources build : string) : string :=
  cat [xmlDeclaration; nl; modelOpenTag; nl;
       "    "; String.concat (nl +:+ "    ") metadata; nl;
       "    <resources>"; nl; resources; nl;
       "    </resources>"; nl;
       "    <build>"; nl; build; nl;
       "    </build>"; nl; "</model>"].

Definition metadataLines (printConfig : PrintConfig) : list string :=
  metadataXML "CreationDate" isoNow
  :: map (fun kv => metadataXML kv.1 kv.2) (metadata printConfig).

Definition createMainModelXML (components : list ComponentInfo)
    (buildItems : list BuildItem) (shift : Vector3) (printConfig : PrintConfig)
  : Completion string :=
  let metadata := metadataLines printConfig in
  rs ← mapC resourceXML components;
  let resources := String.concat nl rs in
  let build := String.concat nl (map (itemXML shift) buildItems) in
  Normal (modelDocument metadata resources build).

(** *** createModelSettingsXML *)

(** [collect]: the mesh components below [c], in order.  Like [getVerts]
    it follows the table and is unfolded [fuel] times. *)
Fixpoint collect (fuel : nat) (components : list ComponentInfo)
    (c : ComponentInfo) : Completion (list ComponentInfo) :=
  match fuel with
  | O => OutOfFuel
  | S fuel' =>
      match c_type c with
      | type_mesh => Normal [c]
      | type_assembly =>
          flatMapC (fun sc =>
            match findComponent components (sc_objectId sc) with
            | None => Throw
            | Some subComp => collect fuel' components subComp
            end) (subComponents c)
      end
  end.

Definition partXML (p : ComponentInfo) : string :=
  let extruder := match c_material p with Some m => extruder m | None => 1%Z end in
  cat ["    <part "; attr "id" (pretty (c_id p)); " "; attr "subtype" "normal_part"; ">"; nl;
       "      <metadata "; attr "key" "name"; " "; attr "value" (c_name p); "/>"; nl;
       "      <metadata "; attr "key" "extruder"; " "; attr "value" (pretty extruder); "/>"; nl;
       "      <mesh_stat "; attr "edges_fixed" "0"; " "; attr "degenerate_facets" "0"; " ";
       attr "facets_removed" "0"; " "; attr "facets_reversed" "0"; " ";
       attr "backwards_edges" "0"; "/>"; nl;
       "    </part>"].

Definition objectXML (objId : Z) (comp : ComponentInfo) (partsXml : string) : string :=
  cat ["  <object "; attr "id" (pretty objId); ">"; nl;
       "    <metadata "; attr "key" "name"; " "; attr "value" (c_name comp); "/>"; nl;
       "    <metadata "; attr "key" "extruder"; " "; attr "value" "1"; "/>"; nl;
       "    <metadata "; attr "key" "thumbnail_file"; " "; attr "value" EmptyString; "/>"; nl;
       partsXml; nl;
       "  </object>"; nl].

Definition instanceXML (objId : Z) (index : nat) : string :=
  cat ["    <model_instance>"; nl;
       "      <metadata "; attr "key" "object_id"; " "; attr "value" (pretty objId); "/>"; nl;
       "      <metadata "; attr "key" "instance_id"; " "; attr "value" "0"; "/>"; nl;
       "      <metadata "; attr "key" "identify_id"; " ";
       attr "value" (pretty (index + 1)); "/>"; nl;
       "    </model_instance>"; nl].

Definition assembleItemXML (objId : Z) : string :=
  cat ["    <assemble_item "; attr "object_id" (pretty objId); " "; attr "instance_id" "0"; " ";
       attr "offset" "0 0 0"; "/>"; nl].

(** The body of [buildItems.forEach((item, index) => ...)]: the three
    accumulated strings are extended. *)
Definition settingsStep (components : list ComponentInfo)
    (acc : string * string * string) (item : BuildItem) (index : nat)
  : Completion (string * string * string) :=
  let '(objectsXml, instancesXml, assembleXml) := acc in
  let objId := objectId item in
  match findComponent components objId with
  | None => Throw
  | Some comp =>
      parts ← collect (length components) components comp;
      let partsXml := String.concat nl (map partXML parts) in
      Normal (objectsXml +:+ objectXML objId comp partsXml,
              instancesXml +:+ instanceXML objId index,
              assembleXml +:+ assembleItemXML objId)
  end.

Fixpoint settingsLoop (components : list ComponentInfo) (items : list BuildItem)
    (index : nat) (acc : string * string * string)
  : Completion (string * string * string) :=
  match items with
  | [] => Normal acc
  | item :: rest =>
      acc' ← settingsStep components acc item index;
      settingsLoop components rest (S index) acc'
  end.

(** The template literal that [createModelSettingsXML] returns. *)
Definition settingsDocument (acc : string * string * string) : string :=
  let '(objectsXml, instancesXml, assembleXml) := acc in
  cat [xmlDeclaration; nl; "<config>"; nl; objectsXml; nl;
       "  <plate>"; nl;
       "    <metadata "; attr "key" "plater_id"; " "; attr "value" "1"; "/>"; nl;
       "    <metadata "; attr "key" "plater_name"; " "; attr "value" "plate-1"; "/>"; nl;
       instancesXml; nl;
       "  </plate>"; nl;
       "  <assemble>"; nl; assembleXml; nl;
       "  </assemble>"; nl; "</config>"].

Definition createModelSettingsXML (components : list ComponentInfo)
    (buildItems : list BuildItem) : Completion string :=
  acc ← settingsLoop components buildItems 0 (EmptyString, EmptyString, EmptyString);
  Normal (settingsDocument acc).

(** *** createProjectSettingsConfig *)

(** [while (colors.length < 2) colors.push('#FFFFFF')], unfolded at most
    [bound] times. *)
Fixpoint padColors (bound : nat) (colors : list string) : list string :=
  match bound with
  | O => colors
  | S bound' =>
      if bool_decide (length colors < 2)
      then padColors bound' (colors ++ ["#FFFFFF"])
      else colors
  end.

(** The [colors] array when the loop is left; it never runs more than
    twice. *)
Definition filamentColours (materials : list MaterialInfo) : list string :=
  padColors 2 (map (fun m => "#" +:+ getHexString (m_color m)) materials).

(** [Array.from({ length }).fill(value)] *)
Definition filled (len : nat) (value : string) : list Json :=
  replicate len (JString value).

(** The object literal [projectSettings]. *)
Definition projectSettings (materials : list MaterialInfo)
    (printConfig : PrintConfig) : list (string * Json) :=
  let colors := filamentColours materials in
  let '(a1, a2, a3, a4) := printableArea printConfig in
  [("printable_area", JArray [JString a1; JString a2; JString a3; JString a4]);
   ("printable_height", JString (numberToString (printableHeight printConfig)));
   ("bed_exclude_area", JArray []);
   ("filament_colour", JArray (map JString colors));
   ("filament_settings_id", JArray (filled (length colors) (filament printConfig)));
   ("filament_diameter", JArray (filled (length colors) "1.75"));
   ("filament_is_support", JArray (filled (length colors) "0"));
   ("printer_model", JString (printer_name printConfig));
   ("layer_height", JString "0.2");
   ("wall_loops", JString "2");
   ("sparse_infill_density", JString "15%");
   ("printer_settings_id", JString (printerSettingsId printConfig));
   ("printer_variant", JString "0.4");
   ("nozzle_diameter", JArray [JString "0.4"]);
   ("enable_support", JString "0");
   ("support_type", JString "normal(auto)");
   ("print_settings_id", JString (printSettingsId printConfig))].

Definition createProjectSettingsConfig (materials : list MaterialInfo)
    (printConfig : PrintConfig) : string :=
  JSON_stringify (JObject (projectSettings materials printConfig)).

(** *** The fixed descriptors *)

Definition relationshipXML (id target : string) : string :=
  cat ["  <Relationship "; attr "Id" id; " "; attr "Target" target; " ";
       attr "Type" "http://schemas.microsoft.com/3dmanufacturing/2013/01/3dmodel"; "/>"].

Definition relationshipsXML : string :=
  cat [xmlDeclaration; nl;
       "<Relationships ";
       attr "xmlns" "http://schemas.openxmlformats.org/package/2006/relationships"; ">"; nl;
       relationshipXML "rel-1" "/3D/3dmodel.model"; nl;
       relationshipXML "rel-2" "/Metadata/model_settings.config"; nl;
       relationshipXML "rel-3" "/Metadata/project_settings.config"; nl;
       "</Relationships>"].

Definition defaultTypeXML (extension contentType closing : string) : string :=
  cat ["  <Default "; attr "Extension" extension; " "; attr "ContentType" contentType; closing].

Definition contentTypesXML : string :=
  cat [xmlDeclaration; nl;
       "<Types ";
       attr "xmlns" "http://schemas.openxmlformats.org/package/2006/content-types"; ">"; nl;
       defaultTypeXML "rels" "application/vnd.openxmlformats-package.relationships+xml" " />"; nl;
       defaultTypeXML "model" "application/vnd.ms-package.3dmanufacturing-3dmodel+xml" " />"; nl;
       defaultTypeXML "config" "application/vnd.ms-package.3dmanufacturing-3dmodel+xml" " />"; nl;
       defaultTypeXML "png" "image/png" " />"; nl;
       defaultTypeXML "gcode" "text/x.gcode" "/>"; nl;
       "</Types>"].

(** *** The archive *)

(** [zip.file(name, data)]: the archive keeps its entries in the order in
    which their names were first written; writing a name again replaces
    the data in place.  The entries are those the exporter writes; what
    the archive library stores next to them (folder entries) is its own
    business. *)
Fixpoint zip_file (name data : string) (zip : list (string * string))
  : list (string * string) :=
  match zip with
  | [] => [(name, data)]
  | entry :: rest =>
      if String.eqb entry.1 name then (name, data) :: rest
      else entry :: zip_file name data rest
  end.

(** What [zip.generateAsync] is asked to produce. *)
Record Blob := mkBlob {
  files : list (string * string);
  mimeType : string;
  blobCompression : JSZipCompression }.

(** The three generated documents. *)
Record Documents := mkDocuments {
  mainModelXml : string;
  modelSettingsXml : string;
  projectSettingsConfig : string }.

(** *** The emitters as programs over the tables *)

(** The call [createMainModelXML(components, buildItems, shift,
    printConfig)]: the two [map] loops run over the stored arrays, the
    callback of the second reads [item.transformMatrix.elements] and puts
    the sums into locals of its own. *)
Definition runCreateMainModelXML (shift : Vector3) (printConfig : PrintConfig)
  : Emit string :=
  let metadata := metadataLines printConfig in
  resources ← mapArray components (fun c _ => liftE (resourceXML c));
  build ← mapArray buildItems (fun item _ => mret (itemXML shift item));
  mret (modelDocument metadata (joinE nl resources) (joinE nl build)).

(** The call [createModelSettingsXML(components, buildItems)]: the
    callback of [forEach] looks the components up in the table as it is
    when the callback runs. *)
Definition runCreateModelSettingsXML : Emit string :=
  acc ← forEachArray buildItems
          (fun acc item index =>
             cs ← readE components; liftE (settingsStep cs acc item index))
          (EmptyString, EmptyString, EmptyString);
  mret (settingsDocument acc).

(** The call [createProjectSettingsConfig(materials, printConfig)]. *)
Definition runCreateProjectSettingsConfig (printConfig : PrintConfig) : Emit string :=
  ms ← readE materials;
  mret (createProjectSettingsConfig ms printConfig).

(** The three calls, one after the other on the same tables; the state
    returned is the one the last call leaves. *)
Definition emitDocuments (printConfig : PrintConfig) (st : ExportState)
  : Completion (Documents * ExportState) :=
  let shift := centeringShift printConfig (allVerticesWorld st) in
  (mainModelXml ← runCreateMainModelXML shift printConfig;
   modelSettingsXml ← runCreateModelSettingsXML;
   projectSettingsConfig ← runCreateProjectSettingsConfig printConfig;
   mret {| mainModelXml := mainModelXml;
           modelSettingsXml := modelSettingsXml;
           projectSettingsConfig := projectSettingsConfig |}) st.

Definition packageFiles (docs : Documents) : list (string * string) :=
  zip_file "[Content_Types].xml" contentTypesXML
    (zip_file "Metadata/project_settings.config" (projectSettingsConfig docs)
       (zip_file "Metadata/model_settings.config" (modelSettingsXml docs)
          (zip_file "3D/3dmodel.model" (mainModelXml docs)
             (zip_file "_rels/.rels" relationshipsXML [])))).

(** [exportTo3MF] together with the tables as they are when it returns. *)
Definition exportRun (object : Object3D) (printJobConfig : option PartialPrintConfig)
  : Completion (Blob * ExportState) :=
  let printConfig := mergePrintConfig printJobConfig in
  let compression := JSZipCompressionMap (compression printConfig) in
  st ← traverse object;
  '(docs, st') ← emitDocuments printConfig st;
  Normal ({| files := packageFiles docs;
             mimeType := "application/vnd.ms-package.3dmanufacturing-3dmodel+xml";
             blobCompression := compression |}, st').

Definition exportTo3MF (object : Object3D) (printJobConfig : option PartialPrintConfig)
  : Completion Blob :=
  fst <$> exportRun object printJobConfig.

End Exporter.

(** * Meshes without a position attribute

    [geometry.attributes] of a three.js geometry starts out empty: the
    mesh that [new Mesh()] makes has no [position] attribute, and
    [geometry.attributes.position] is [undefined] for it.  The scenes
    below allow for this; everything else in them is as in [Object3D]. *)

Record SparseGeometry := mkSparseGeometry {
  attributes_position : option (list Vector3);
  geometry_index : option (list nat) }.

Inductive SparseObject3D := mkSparseObject3D {
  s_type : string;
  s_name : string;
  s_matrix : Matrix4;
  s_matrixWorld : Matrix4;
  s_geometry : SparseGeometry;
  s_material : MeshMaterial;
  s_children : list SparseObject3D }.

(** The scene with an empty position buffer wherever the attribute is
    missing, and the scene all of whose meshes have the attribute. *)
Definition denseGeometry (geometry : SparseGeometry) : BufferGeometry :=
  {| position := default [] (attributes_position geometry);
     index := geometry_index geometry |}.

Fixpoint dense (node : SparseObject3D) : Object3D :=
  {| o_type := s_type node;
     o_name := s_name node;
     o_matrix := s_matrix node;
     o_matrixWorld := s_matrixWorld node;
     o_geometry := denseGeometry (s_geometry node);
     o_material := s_material node;
     o_children := map dense (s_children node) |}.

Fixpoint sparse (node : Object3D) : SparseObject3D :=
  {| s_type := o_type node;
     s_name := o_name node;
     s_matrix := o_matrix node;
     s_matrixWorld := o_matrixWorld node;
     s_geometry := {| attributes_position := Some (position (o_geometry node));
                      geometry_index := index (o_geometry node) |};
     s_material := o_material node;
     s_children := map sparse (o_children node) |}.

Module Sparse.
Section Exporter.
Context `{Host}.

(** [processMesh] of a mesh whose position attribute may be missing.
    The attribute is used in two places only: [positionAttr.count] is
    the bound of the loop over a geometry without index, and
    [vertex.fromBufferAttribute(positionAttr, vertexIndex)], which calls
    [positionAttr.getX], is run for every corner.  Reading a property of
    [undefined] throws, and what was done before is lost with the call;
    when the attribute is missing and the index is empty, neither place
    is reached and the component has no vertex and no triangle. *)
Definition processMesh (mesh : SparseObject3D) (st : ExportState)
  : Completion (Z * ExportState) :=
  let geometry := s_geometry mesh in
  match attributes_position geometry with
  | Some positionAttr => Normal (processMesh (dense mesh) st)
  | None =>
      match geometry_index geometry with
      | Some [] => Normal (processMesh (dense mesh) st)
      | Some (_ :: _) => Throw
      | None => Throw
      end
  end.

Fixpoint processNode (node : SparseObject3D) (st : ExportState) {struct node}
  : Completion (Z * ExportState) :=
  if String.eqb (s_type node) "Mesh" then processMesh node st
  else if isContainer (s_type node) then
    acc ← fold_left (fun acc child =>
                       '(subs, st0) ← acc;
                       '(subId, st1) ← processNode child st0;
                       Normal (pushSub (dense node) (dense child) subId subs, st1))
             (s_children node) (Normal ([], st));
    Normal (closeAssembly (dense node) acc.1 acc.2)
  else Normal ((-1)%Z, st).

(** The body of [rootChildren.forEach]. *)
Definition exportChild (child : SparseObject3D) (st : ExportState)
  : Completion ExportState :=
  '(childId, st1) ← processNode child st;
  if (childId =? -1)%Z then Normal st1
  else
    let itemMatrix := s_matrix child in
    match findComponent (components st1) childId with
    | None => Throw
    | Some targetComp =>
        verts ← getVerts (length (components st1)) (components st1) targetComp;
        let '(uuid, rng') := generateUUID (rng st1) in
        Normal {|
          components := components st1;
          materials := materials st1;
          buildItems := buildItems st1 ++
            [{| objectId := childId; transformMatrix := itemMatrix; b_uuid := uuid |}];
          allVerticesWorld := allVerticesWorld st1 ++
            map (fun vec => applyMatrix4 vec itemMatrix) verts;
          rng := rng' |}
    end.

Fixpoint forEachRootChild (rootChildren : list SparseObject3D) (st : ExportState)
  : Completion ExportState :=
  match rootChildren with
  | [] => Normal st
  | child :: rest => st' ← exportChild child st; forEachRootChild rest st'
  end.

Definition rootChildren (object : SparseObject3D) : list SparseObject3D :=
  if String.eqb (s_type object) "Scene" then s_children object else [object].

Definition traverse (object : SparseObject3D) : Completion ExportState :=
  forEachRootChild (rootChildren object) initialState.

Definition exportRun (object : SparseObject3D)
    (printJobConfig : option PartialPrintConfig) : Completion (Blob * ExportState) :=
  let printConfig := mergePrintConfig printJobConfig in
  let compression := JSZipCompressionMap (compression printConfig) in
  st ← traverse object;
  '(docs, st') ← emitDocuments printConfig st;
  Normal ({| files := packageFiles docs;
             mimeType := "application/vnd.ms-package.3dmanufacturing-3dmodel+xml";
             blobCompression := compression |}, st').

Definition exportTo3MF (object : SparseObject3D)
    (printJobConfig : option PartialPrintConfig) : Completion Blob :=
  fst <$> exportRun object printJobConfig.

End Exporter.
End Sparse.

(** * Vocabulary of the statements *)

Section Vocabulary.
Context `{Host}.

(** What holds between [vertexMap] and [component.vertices] at all
    times: the map sends the key of every stored vertex to its position,
    and has no other entries; every stored vertex was read from the
    position buffer [pos]. *)
Definition vstate_inv (pos : list Vector3) (s : VertexState) : Prop :=
  (∀ k i, s.1 !! k = Some i → ∃ v, s.2 !! i = Some v ∧ vertexKey v = k)
  ∧ (∀ i v, s.2 !! i = Some v → s.1 !! vertexKey v = Some i)
  ∧ (∀ v, v ∈ s.2 → ∃ a, v = fromBufferAttribute pos a).

(** The corner arguments of one triangle and the indices stored for it
    agree with the vertex map [vm]. *)
Definition resolved (pos : list Vector3) (vm : gmap string nat)
    (t : Triangle) (c : option nat * option nat * option nat) : Prop :=
  vm !! vertexKey (fromBufferAttribute pos c.1.1) = Some (v1 t)
  ∧ vm !! vertexKey (fromBufferAttribute pos c.1.2) = Some (v2 t)
  ∧ vm !! vertexKey (fromBufferAttribute pos c.2) = Some (v3 t).

(** The corner arguments of the whole triangle loop, one triple per turn. *)
Definition cornerTriples (geometry : BufferGeometry)
  : list (option nat * option nat * option nat) :=
  corners geometry <$> triangleStarts (loopCount geometry).

(** A triangle whose three indices point into [vs]. *)
Definition triangleInRange (vs : list Vertex) (t : Triangle) : Prop :=
  v1 t < length vs ∧ v2 t < length vs ∧ v3 t < length vs.

(** What holds of the component stored at position [i] of the table. *)
Definition componentOk (i : nat) (c : ComponentInfo) : Prop :=
  c_id c = (Z.of_nat i + 1)%Z
  ∧ Forall (fun sc => (1 ≤ sc_objectId sc < c_id c)%Z) (subComponents c)
  ∧ Forall (triangleInRange (vertices c)) (triangles c)
  ∧ match c_type c with
    | type_mesh => subComponents c = []
    | type_assembly =>
        subComponents c ≠ [] ∧ vertices c = [] ∧ triangles c = []
        ∧ c_material c = None
    end.

Definition wfTable (cs : list ComponentInfo) : Prop :=
  ∀ i c, cs !! i = Some c → componentOk i c.

(** The state only grows: the tables of [st] are initial segments of
    those of [st']. *)
Definition extends (st st' : ExportState) : Prop :=
  components st `prefix_of` components st'
  ∧ materials st `prefix_of` materials st'.

(** What [processNode] leaves untouched. *)
Definition sameItems (st st' : ExportState) : Prop :=
  buildItems st' = buildItems st ∧ allVerticesWorld st' = allVerticesWorld st.

(** The value returned by [processMesh] and [processNode]: either [-1]
    with the state untouched, or the id of the component appended last. *)
Definition returned (st : ExportState) (id : Z) (st' : ExportState) : Prop :=
  (id = (-1)%Z ∧ st' = st)
  ∨ (id = Z.of_nat (length (components st'))
     ∧ length (components st) < length (components st')).

(** Every recorded sub-component names a component already in the table. *)
Definition subsBounded (subs : list SubComponent) (st : ExportState) : Prop :=
  Forall (fun sc => (1 ≤ sc_objectId sc ≤ Z.of_nat (length (components st)))%Z) subs.

(** The contract of [processNode] at one node. *)
Definition nodeSpec (node : Object3D) : Prop :=
  ∀ st id st', processNode node st = (id, st') →
    extends st st' ∧ sameItems st st' ∧ returned st id st'
    ∧ (wfTable (components st) → wfTable (components st')).

(** The world-space vertices of one build item: those of its component,
    gathered through the assemblies below it, moved by the item's own
    transform. *)
Definition itemWorldVertices (cs : list ComponentInfo) (item : BuildItem)
  : Completion (list Vector3) :=
  match findComponent cs (objectId item) with
  | None => Throw
  | Some c =>
      map (fun v => applyMatrix4 v (transformMatrix item))
        <$> getVerts (length cs) cs c
  end.

(** The world-space vertices of all build items, in build order. *)
Definition sceneWorldVertices (cs : list ComponentInfo) (items : list BuildItem)
  : Completion (list Vector3) :=
  flatMapC (itemWorldVertices cs) items.

Definition itemsBounded (cs : list ComponentInfo) (items : list BuildItem) : Prop :=
  Forall (fun item => (1 ≤ objectId item ≤ Z.of_nat (length cs))%Z) items.

(** The invariant of [rootChildren.forEach]. *)
Definition wfState (st : ExportState) : Prop :=
  wfTable (components st)
  ∧ itemsBounded (components st) (buildItems st)
  ∧ sceneWorldVertices (components st) (buildItems st)
      = Normal (allVerticesWorld st).

(** The arguments of the successive [processVertex] calls of the triangle
    loop, and the indices stored for them, both in call order. *)
Definition cornerArgs (geometry : BufferGeometry) : list (option nat) :=
  c ← cornerTriples geometry; [c.1.1; c.1.2; c.2].

Definition cornerIndices (tris : list Triangle) : list nat :=
  t ← tris; [v1 t; v2 t; v3 t].

(** [x] is a number: not NaN. *)
Definition isNumber (x : float) : Prop := is_nan x = false.

(** JavaScript's SameValueZero: [===], except that NaN equals NaN. *)
Definition sameValueZero (x y : float) : bool :=
  PrimFloat.eqb x y || (is_nan x && is_nan y).

(** [m] is the least (greatest) value of the coordinate [proj] over the
    points [pts]. *)
Definition leastOf (proj : Vector3 → float) (pts : list Vector3) (m : float) : Prop :=
  (∀ v, v ∈ pts → PrimFloat.leb m (proj v) = true) ∧ ∃ v, v ∈ pts ∧ proj v = m.

Definition greatestOf (proj : Vector3 → float) (pts : list Vector3) (m : float) : Prop :=
  (∀ v, v ∈ pts → PrimFloat.leb (proj v) m = true) ∧ ∃ v, v ∈ pts ∧ proj v = m.

(** All three coordinates are numbers. *)
Definition numberVector (v : Vector3) : Prop :=
  isNumber (vx v) ∧ isNumber (vy v) ∧ isNumber (vz v).

(** A stored vertex none of whose coordinates is [undefined]. *)
Definition definedVertex (v : Vertex) : Prop :=
  is_Some (vert_x v) ∧ is_Some (vert_y v) ∧ is_Some (vert_z v).

Definition definedGeometry (cs : list ComponentInfo) : Prop :=
  ∀ c v, c ∈ cs → v ∈ vertices c → definedVertex v.

(** [fields[name]] of an object literal. *)
Definition jsonField (name : string) (fields : list (string * Json)) : option Json :=
  snd <$> List.find (fun kv => String.eqb kv.1 name) fields.

(** The first sentence of C7 as it is worded: when the project settings
    are serialized, the material list itself has at least two entries. *)
Definition materialListPadded (object : Object3D)
    (printJobConfig : option PartialPrintConfig) : Prop :=
  ∀ st docs st',
    traverse object = Normal st →
    emitDocuments (mergePrintConfig printJobConfig) st = Normal (docs, st') →
    (2 ≤ length (materials st))%nat ∧ (2 ≤ length (materials st'))%nat.

(** A stored vertex as a point: a coordinate that is [undefined] counts
    as 0. *)
Definition pointOf (v : Vertex) : Vector3 :=
  {| vx := default 0%float (vert_x v);
     vy := default 0%float (vert_y v);
     vz := default 0%float (vert_z v) |}.

(** The vertices of the component made for [node], in the node's own
    space, read off the scene and not off the table: a mesh gives its
    stored vertices; a container gathers, child by child and in child
    order, the vertices of its children, each moved by the child's
    transform relative to the container, which is the child's world
    matrix premultiplied by the inverse of the container's; any other
    node gives none. *)
Fixpoint gatheredVertices (node : Object3D) : list Vector3 :=
  if String.eqb (o_type node) "Mesh"
  then pointOf <$> (processTriangles (o_geometry node)).2.2
  else if isContainer (o_type node) then
    flat_map (fun child =>
                (fun v => applyMatrix4 v
                            (premultiply (o_matrixWorld child)
                               (invert (o_matrixWorld node))))
                  <$> gatheredVertices child)
      (o_children node)
  else [].

(** The world-space vertices of the build items of an export, read off
    the scene: those gathered for every root child, moved by the child's
    local matrix, in the order of the root children. *)
Definition worldVertices (object : Object3D) : list Vector3 :=
  flat_map (fun child =>
              (fun v => applyMatrix4 v (o_matrix child)) <$> gatheredVertices child)
    (rootChildren object).

(** The table [cs] holds a component with id [id], and [getVerts]
    gathers [vs] from it. *)
Definition gathers (cs : list ComponentInfo) (id : Z) (vs : list Vector3) : Prop :=
  ∃ i c, cs !! i = Some c ∧ id = (Z.of_nat i + 1)%Z
    ∧ getVerts (S i) cs c = Normal vs.

(** [s] between double quotes. *)
Definition quoted (s : string) : string := dq +:+ s +:+ dq.

(** Numbers with five decimals each, separated by blanks. *)
Definition numbersText (numbers : list float) : string :=
  String.concat " " (toFixed5 <$> numbers).

(** The line of a build item as the specification has it: the nine numbers of the
    linear part of the item's stored matrix, then its translation
    components 12, 13 and 14, each with the centring translation added
    once. *)
Definition shiftedItemLine (shift : Vector3) (item : BuildItem) : string :=
  let m := transformMatrix item in
  "<item objectid=" +:+ quoted (pretty (objectId item))
  +:+ " transform="
  +:+ quoted (numbersText
                [e0 m; e1 m; e2 m; e4 m; e5 m; e6 m; e8 m; e9 m; e10 m;
                 (e12 m + vx shift)%float; (e13 m + vy shift)%float;
                 (e14 m + vz shift)%float])
  +:+ " printable=" +:+ quoted "1" +:+ " />".

(** The line of a sub-component: the twelve numbers of its stored
    relative transform, nothing added. *)
Definition componentLine (sc : SubComponent) : string :=
  let m := sc_transform sc in
  "<component objectid=" +:+ quoted (pretty (sc_objectId sc))
  +:+ " transform="
  +:+ quoted (numbersText
                [e0 m; e1 m; e2 m; e4 m; e5 m; e6 m; e8 m; e9 m; e10 m;
                 e12 m; e13 m; e14 m])
  +:+ " />".

(** The line of a stored vertex: its three coordinates, nothing added. *)
Definition vertexLine (x y z : float) : string :=
  "<vertex x=" +:+ quoted (toFixed5 x) +:+ " y=" +:+ quoted (toFixed5 y)
  +:+ " z=" +:+ quoted (toFixed5 z) +:+ " />".

(** *** Vocabulary of the further properties *)

(** The mesh nodes [processNode] reaches from [node], in the order in
    which it processes them: a mesh is itself, a container passes on to
    its children, any other node hides what is below it. *)
Fixpoint reachedMeshes (node : Object3D) : list Object3D :=
  if String.eqb (o_type node) "Mesh" then [node]
  else if isContainer (o_type node) then flat_map reachedMeshes (o_children node)
  else [].

Definition sceneMeshes (object : Object3D) : list Object3D :=
  flat_map reachedMeshes (rootChildren object).

(** [node] reaches at least one mesh. *)
Definition yields (node : Object3D) : bool :=
  match reachedMeshes node with [] => false | _ => true end.

Definition isMeshComponent (c : ComponentInfo) : bool :=
  match c_type c with type_mesh => true | type_assembly => false end.

(** The vertices and triangles of a component, and those [processMesh]
    computes for a mesh node. *)
Definition geometryOf (c : ComponentInfo) : list Vertex * list Triangle :=
  (vertices c, triangles c).

Definition flattened (mesh : Object3D) : list Vertex * list Triangle :=
  ((processTriangles (o_geometry mesh)).2.2, (processTriangles (o_geometry mesh)).1).

(** A geometry whose triangles are complete and whose indices are
    positions of the position buffer. *)
Definition wellFormedGeometry (geometry : BufferGeometry) : Prop :=
  match index geometry with
  | Some indexAttr =>
      length indexAttr `mod` 3 = 0
      ∧ Forall (fun k => k < length (position geometry)) indexAttr
  | None => length (position geometry) `mod` 3 = 0
  end.

(** The object ids of the build items grow strictly. *)
Definition itemsIncreasing (items : list BuildItem) : Prop :=
  ∀ i j a b, i < j → items !! i = Some a → items !! j = Some b →
    (objectId a < objectId b)%Z.

(** [c] is the component [processMesh] makes for the mesh node [m]. *)
Definition meshComponentOf (c : ComponentInfo) (m : Object3D) : Prop :=
  c_type c = type_mesh
  ∧ subComponents c = []
  ∧ geometryOf c = flattened m
  ∧ c_name c = (if String.eqb (o_name m) EmptyString
                then "Mesh-" +:+ pretty (c_id c) else o_name m)
  ∧ match meshColor (o_material m) with
    | None => c_material c = None
    | Some color =>
        ∃ mi, c_material c = Some mi
          ∧ (m_color mi = color ∨ sameColor (m_color mi) color = true)
    end.

(** What holds of the material list [ms] next to the component table
    [cs]: ids and extruders count from 1 in list order, no two entries
    have the same colour, the material of every component is an entry,
    and every entry is the material of some mesh component. *)
Definition materialsOk (cs : list ComponentInfo) (ms : list MaterialInfo) : Prop :=
  (∀ i m, ms !! i = Some m →
     m_id m = (Z.of_nat i + 1)%Z ∧ extruder m = (Z.of_nat i + 1)%Z)
  ∧ (∀ i j mi mj, i < j → ms !! i = Some mi → ms !! j = Some mj →
       sameColor (m_color mi) (m_color mj) = false)
  ∧ (∀ c m, c ∈ cs → c_material c = Some m → m ∈ ms)
  ∧ (∀ m, m ∈ ms → ∃ c, c ∈ cs ∧ c_type c = type_mesh ∧ c_material c = Some m).

(** [p] is a mesh component of the table [cs]. *)
Definition meshOf (cs : list ComponentInfo) (p : ComponentInfo) : Prop :=
  p ∈ cs ∧ c_type p = type_mesh.

(** The number of vertices stored in the components [parts]. *)
Definition vertexCount (parts : list ComponentInfo) : nat :=
  sum_list_with (fun p => length (vertices p)) parts.

(** What the loop of [createModelSettingsXML] finds for one build item:
    the item's component and the parts [collect] gathers below it. *)
Definition settingsEntry (cs : list ComponentInfo) (item : BuildItem)
    (entry : ComponentInfo * list ComponentInfo) : Prop :=
  findComponent cs (objectId item) = Some entry.1
  ∧ collect (length cs) cs entry.1 = Normal entry.2
  ∧ entry.2 ≠ [] ∧ Forall (meshOf cs) entry.2.

(** The mesh nodes the traversal reaches in a scene whose meshes may
    lack the position attribute. *)
Fixpoint reachedSparse (node : SparseObject3D) : list SparseObject3D :=
  if String.eqb (s_type node) "Mesh" then [node]
  else if isContainer (s_type node) then flat_map reachedSparse (s_children node)
  else [].

Definition sparseMeshes (object : SparseObject3D) : list SparseObject3D :=
  flat_map reachedSparse (Sparse.rootChildren object).

(** [processMesh] gets through the geometry without reading a missing
    position attribute. *)
Definition readable (geometry : SparseGeometry) : bool :=
  match attributes_position geometry, geometry_index geometry with
  | Some _, _ => true
  | None, Some [] => true
  | None, _ => false
  end.

Definition allReadable (meshes : list SparseObject3D) : bool :=
  forallb (fun mesh => readable (s_geometry mesh)) meshes.


(** The ids that the sub-components of [cs] refer to, and with them the
    ids that the build items [items] refer to. *)
Definition subReferences (cs : list ComponentInfo) : list Z :=
  c ← cs; sc_objectId <$> subComponents c.

Definition references (cs : list ComponentInfo) (items : list BuildItem) : list Z :=
  subReferences cs ++ (objectId <$> items).

(** A lower-case hexadecimal digit. *)
Definition isHexDigit (c : ascii) : bool :=
  existsb (Ascii.eqb c) (list_ascii_of_string "0123456789abcdef").

(** What a version-4 UUID has at position [i]: dashes at 8, 13, 18 and
    23, the version digit 4 at 14, one of 8, 9, a, b at 19, and a
    hexadecimal digit elsewhere. *)
Definition uuidCharOk (i : nat) (c : ascii) : bool :=
  if (i =? 8)%nat || (i =? 13)%nat || (i =? 18)%nat || (i =? 23)%nat
  then Ascii.eqb c "-"
  else if (i =? 14)%nat then Ascii.eqb c "4"
  else if (i =? 19)%nat then existsb (Ascii.eqb c) (list_ascii_of_string "89ab")
  else isHexDigit c.

Definition isUUIDv4 (u : string) : bool :=
  (String.length u =? 36)%nat
  && forallb (fun ic => uuidCharOk ic.1 ic.2) (imap pair (list_ascii_of_string u)).

End Vocabulary.

(** * A host to run the exporter on

    The theorems below hold for every host.  This one serves to evaluate
    the exporter on concrete scenes: numbers are shown exactly
    (as an integer, or as a fraction with a power of two below), matrices
    are multiplied and applied as three.js does, and the matrix inverse is
    the one of a translation. *)

Module Demo.

Fixpoint reduceDyadic (m : positive) (e : Z) : positive * Z :=
  match m with
  | xO m' => if (e <? 0)%Z then reduceDyadic m' (e + 1) else (m, e)
  | _ => (m, e)
  end.

Definition showFloat (x : float) : string :=
  match Prim2SF x with
  | S754_zero _ => "0"
  | S754_infinity s => if s then "-Infinity" else "Infinity"
  | S754_nan => "NaN"
  | S754_finite s m e =>
      let '(m', e') := reduceDyadic m e in
      (if s then "-" else EmptyString)
      +:+ (if (0 <=? e')%Z then pretty (Z.pos m' * 2 ^ e')%Z
           else pretty (Z.pos m') +:+ "/2^" +:+ pretty (- e')%Z)
  end.

(** The integer part of a non-negative number. *)
Definition floorN (x : float) : N :=
  match Prim2SF x with
  | S754_finite false m e =>
      if (0 <=? e)%Z then Z.to_N (Z.pos m * 2 ^ e) else Z.to_N (Z.shiftr (Z.pos m) (- e))
  | _ => 0%N
  end.

Definition hexByte (x : float) : string :=
  let n := floorN (x * 255 + 0.5)%float in
  toString16 (n / 16) +:+ toString16 (n mod 16).

Definition hexString (c : Color) : string :=
  hexByte (r c) +:+ hexByte (g c) +:+ hexByte (b c).

(** [v.applyMatrix4(m)], with the division by the fourth coordinate. *)
Definition apply (v : Vector3) (m : Matrix4) : Vector3 :=
  let w := (1 / (e3 m * vx v + e7 m * vy v + e11 m * vz v + e15 m))%float in
  {| vx := ((e0 m * vx v + e4 m * vy v + e8 m * vz v + e12 m) * w)%float;
     vy := ((e1 m * vx v + e5 m * vy v + e9 m * vz v + e13 m) * w)%float;
     vz := ((e2 m * vx v + e6 m * vy v + e10 m * vz v + e14 m) * w)%float |}.

(** The matrix product [a * b], column-major. *)
Definition multiply (a b : Matrix4) : Matrix4 :=
  let row0 c0 c1 c2 c3 := (e0 a * c0 + e4 a * c1 + e8 a * c2 + e12 a * c3)%float in
  let row1 c0 c1 c2 c3 := (e1 a * c0 + e5 a * c1 + e9 a * c2 + e13 a * c3)%float in
  let row2 c0 c1 c2 c3 := (e2 a * c0 + e6 a * c1 + e10 a * c2 + e14 a * c3)%float in
  let row3 c0 c1 c2 c3 := (e3 a * c0 + e7 a * c1 + e11 a * c2 + e15 a * c3)%float in
  {| e0 := row0 (e0 b) (e1 b) (e2 b) (e3 b);
     e1 := row1 (e0 b) (e1 b) (e2 b) (e3 b);
     e2 := row2 (e0 b) (e1 b) (e2 b) (e3 b);
     e3 := row3 (e0 b) (e1 b) (e2 b) (e3 b);
     e4 := row0 (e4 b) (e5 b) (e6 b) (e7 b);
     e5 := row1 (e4 b) (e5 b) (e6 b) (e7 b);
     e6 := row2 (e4 b) (e5 b) (e6 b) (e7 b);
     e7 := row3 (e4 b) (e5 b) (e6 b) (e7 b);
     e8 := row0 (e8 b) (e9 b) (e10 b) (e11 b);
     e9 := row1 (e8 b) (e9 b) (e10 b) (e11 b);
     e10 := row2 (e8 b) (e9 b) (e10 b) (e11 b);
     e11 := row3 (e8 b) (e9 b) (e10 b) (e11 b);
     e12 := row0 (e12 b) (e13 b) (e14 b) (e15 b);
     e13 := row1 (e12 b) (e13 b) (e14 b) (e15 b);
     e14 := row2 (e12 b) (e13 b) (e14 b) (e15 b);
     e15 := row3 (e12 b) (e13 b) (e14 b) (e15 b) |}.

Definition translation (tx ty tz : float) : Matrix4 :=
  {| e0 := 1; e1 := 0; e2 := 0; e3 := 0;
     e4 := 0; e5 := 1; e6 := 0; e7 := 0;
     e8 := 0; e9 := 0; e10 := 1; e11 := 0;
     e12 := tx; e13 := ty; e14 := tz; e15 := 1 |}.

Definition identity : Matrix4 := translation 0 0 0.

(** The inverse of a translation. *)
Definition invertTranslation (m : Matrix4) : Matrix4 :=
  translation (- e12 m) (- e13 m) (- e14 m).

Fixpoint showJson (j : Json) : string :=
  match j with
  | JString s => cat [dq; s; dq]
  | JArray l => cat ["["; String.concat "," (map showJson l); "]"]
  | JObject fields =>
      cat ["{";
           String.concat ","
             (map (fun kv => let '(k, v) := kv in cat [dq; k; dq; ":"; showJson v])
                fields);
           "}"]
  end.

Definition host : Host := {|
  numberToString := showFloat;
  toFixed5 := showFloat;
  gray := {| r := 0.5; g := 0.5; b := 0.5 |};
  getHexString := hexString;
  invert := invertTranslation;
  premultiply := fun a b => multiply b a;
  applyMatrix4 := apply;
  random16 := fun k => N.of_nat (k mod 16);
  isoNow := "2025-01-01T00:00:00.000Z";
  JSON_stringify := showJson |}.

(** A triangle, not indexed, and a square of two indexed triangles. *)
Definition triangle : BufferGeometry :=
  {| position := [ {| vx := 0; vy := 0; vz := 0 |};
                   {| vx := 1; vy := 0; vz := 0 |};
                   {| vx := 0; vy := 1; vz := 0 |} ];
     index := None |}.

Definition square : BufferGeometry :=
  {| position := [ {| vx := 0; vy := 0; vz := 0 |};
                   {| vx := 2; vy := 0; vz := 0 |};
                   {| vx := 2; vy := 2; vz := 0 |};
                   {| vx := 0; vy := 2; vz := 0 |};
                   {| vx := 0; vy := 0; vz := 0 |} ];
     index := Some [0; 1; 2; 4; 2; 3] |}.

Definition red : Color := {| r := 1; g := 0; b := 0 |}.
Definition green : Color := {| r := 0; g := 1; b := 0 |}.

Definition meshNode (name : string) (geometry : BufferGeometry) (color : Color)
    (m : Matrix4) : Object3D :=
  {| o_type := "Mesh"; o_name := name; o_matrix := m; o_matrixWorld := m;
     o_geometry := geometry;
     o_material := MaterialSingle {| mat_color := Some color |};
     o_children := [] |}.

Definition container (type name : string) (children : list Object3D) : Object3D :=
  {| o_type := type; o_name := name; o_matrix := identity; o_matrixWorld := identity;
     o_geometry := {| position := []; index := None |};
     o_material := MaterialAbsent;
     o_children := children |}.

Definition part1 : Object3D := meshNode "Part1" triangle red identity.
Definition part2 : Object3D := meshNode "Part2" square green (translation 10 0 0).

(** The group of the second test of the exporter: two meshes. *)
Definition group : Object3D := container "Group" "Pair" [part1; part2].

(** A scene without children. *)
Definition emptyScene : Object3D := container "Scene" EmptyString [].

(** A camera between two groups, one of them empty. *)
Definition mixedScene : Object3D :=
  container "Scene" EmptyString
    [container "Group" "Empty" [];
     container "PerspectiveCamera" "Camera" [];
     container "Group" "GroupB" [part2]].

(** The scenes of the exporter's tests. *)
Definition box (name : string) : Object3D := meshNode name square red identity.

Definition nestedScene : Object3D :=
  container "Scene" EmptyString
    [container "Group" "GroupA" [box "MeshA1"];
     container "Group" "GroupB" [box "MeshB1"]].

Definition mixedTestScene : Object3D :=
  container "Scene" EmptyString
    [box "SoloMesh";
     container "Group" "GroupObj" [box EmptyString; box EmptyString];
     box "SecondSolo"].

(** A mesh whose index buffer stops in the middle of a triangle and
    names a vertex that the position buffer does not hold. *)
Definition brokenMesh : Object3D :=
  meshNode "Broken" {| position := position triangle; index := Some [0; 7] |}
    red identity.

(** The mesh that [new Mesh()] makes: a geometry without attributes and
    without index, and a material without a colour of its own. *)
Definition bareMesh : SparseObject3D :=
  {| s_type := "Mesh"; s_name := EmptyString; s_matrix := identity;
     s_matrixWorld := identity;
     s_geometry := {| attributes_position := None; geometry_index := None |};
     s_material := MaterialSingle {| mat_color := Some {| r := 1; g := 1; b := 1 |} |};
     s_children := [] |}.

(** The bare mesh and a triangle in one scene. *)
Definition bareScene : SparseObject3D :=
  {| s_type := "Scene"; s_name := EmptyString; s_matrix := identity;
     s_matrixWorld := identity;
     s_geometry := {| attributes_position := None; geometry_index := None |};
     s_material := MaterialAbsent;
     s_children := [sparse part1; bareMesh] |}.

(** The ids, names, kinds and sub-component ids of the component table,
    and the object ids of the build items. *)
Definition summary (st : ExportState)
  : list (Z * string * ComponentType * list Z) * list Z :=
  ((fun c => (c_id c, c_name c, c_type c, sc_objectId <$> subComponents c))
     <$> components st,
   objectId <$> buildItems st).

End Demo.

(** * Properties *)

Section Properties.
Context `{Host}.

Local Opaque generateUUID.

(** ** Vertex de-duplication *)

Lemma vstate_inv_empty pos : vstate_inv pos (∅, []).
Proof.
  repeat split; simpl.
  - intros k i Hk. by rewrite lookup_empty in Hk.
  - intros i v Hv. by rewrite lookup_nil in Hv.
  - intros v Hv. by apply not_elem_of_nil in Hv.
Qed.

Lemma processVertex_spec pos a s i s' :
  vstate_inv pos s →
  processVertex pos a s = (i, s') →
  vstate_inv pos s'
  ∧ s.1 ⊆ s'.1
  ∧ s.2 `prefix_of` s'.2
  ∧ s'.1 !! vertexKey (fromBufferAttribute pos a) = Some i.
Proof.
  intros (Hmap & Hlist & Hsrc) Hrun. unfold processVertex in Hrun.
  destruct s as [vm vs]; simpl in *.
  destruct (vm !! vertexKey (fromBufferAttribute pos a)) as [j|] eqn:Hlook.
  - injection Hrun as <- <-. unfold vstate_inv; simpl. repeat split; auto.
  - injection Hrun as <- <-. unfold vstate_inv; simpl.
    set (v := fromBufferAttribute pos a) in *.
    repeat split.
    + intros k i Hk. destruct (decide (vertexKey v = k)) as [<-|Hne].
      * rewrite lookup_insert_eq in Hk. injection Hk as <-.
        exists v. split; [|done]. by rewrite lookup_app_r, Nat.sub_diag.
      * rewrite lookup_insert_ne in Hk by done.
        destruct (Hmap k i Hk) as (w & Hw & Hkw).
        exists w. split; [|done]. by apply lookup_app_l_Some.
    + intros i w Hw. apply lookup_app_Some in Hw as [Hw|[Hge Hw]].
      * assert (vertexKey v ≠ vertexKey w) as Hne.
        { intros Heq. apply Hlist in Hw. rewrite <- Heq in Hw. congruence. }
        rewrite lookup_insert_ne by done. by apply Hlist.
      * apply list_lookup_singleton_Some in Hw as [Hi <-].
        assert (i = length vs) as -> by lia.
        by rewrite lookup_insert_eq.
    + intros w Hw. apply elem_of_app in Hw as [Hw|Hw]; [by apply Hsrc|].
      apply list_elem_of_singleton in Hw as ->. by exists a.
    + by apply insert_subseteq.
    + by apply prefix_app_r.
    + by rewrite lookup_insert_eq.
Qed.

Lemma resolved_weaken pos vm vm' t c :
  vm ⊆ vm' → resolved pos vm t c → resolved pos vm' t c.
Proof.
  intros Hsub (H1 & H2 & H3).
  repeat split; eapply lookup_weaken; eauto.
Qed.

Lemma processTriangle_spec pos c acc done :
  vstate_inv pos acc.2 →
  Forall2 (resolved pos acc.2.1) acc.1 done →
  let acc' := processTriangle pos c acc in
  vstate_inv pos acc'.2
  ∧ acc.2.1 ⊆ acc'.2.1
  ∧ Forall2 (resolved pos acc'.2.1) acc'.1 (done ++ [c]).
Proof.
  intros Hinv Hdone. destruct acc as [tris s]. destruct c as [[a1 a2] a3].
  unfold processTriangle; simpl in *.
  destruct (processVertex pos a1 s) as [i1 s1] eqn:E1.
  destruct (processVertex pos a2 s1) as [i2 s2] eqn:E2.
  destruct (processVertex pos a3 s2) as [i3 s3] eqn:E3.
  destruct (processVertex_spec _ _ _ _ _ Hinv E1) as (Hinv1 & Hsub1 & _ & Hk1).
  destruct (processVertex_spec _ _ _ _ _ Hinv1 E2) as (Hinv2 & Hsub2 & _ & Hk2).
  destruct (processVertex_spec _ _ _ _ _ Hinv2 E3) as (Hinv3 & Hsub3 & _ & Hk3).
  simpl. split; [done|]. split; [by do 2 (etrans; [eassumption|])|].
  apply Forall2_app.
  - eapply Forall2_impl; [exact Hdone|].
    intros t c. apply resolved_weaken. by do 2 (etrans; [eassumption|]).
  - constructor; [|constructor]. repeat split; simpl; [| |done].
    + eapply lookup_weaken; [exact Hk1|]. by etrans.
    + eapply lookup_weaken; [exact Hk2|]. done.
Qed.

Lemma processTriangles_fold pos (cs : list (option nat * option nat * option nat)) :
  ∀ acc done,
    vstate_inv pos acc.2 →
    Forall2 (resolved pos acc.2.1) acc.1 done →
    let acc' := fold_left (fun acc c => processTriangle pos c acc) cs acc in
    vstate_inv pos acc'.2
    ∧ Forall2 (resolved pos acc'.2.1) acc'.1 (done ++ cs).
Proof.
  induction cs as [|c cs IH]; intros acc done Hinv Hdone; simpl.
  - by rewrite app_nil_r.
  - destruct (processTriangle_spec pos c acc done Hinv Hdone) as (Hinv' & _ & Hdone').
    specialize (IH _ _ Hinv' Hdone'). by rewrite <- app_assoc in IH.
Qed.

Lemma fold_left_fmap {A B C} (g : A → B) (f : C → B → C) (l : list A) (c : C) :
  fold_left f (g <$> l) c = fold_left (fun c a => f c (g a)) l c.
Proof. revert c. induction l as [|a l IH]; intros c; simpl; [done|apply IH]. Qed.

Lemma processTriangles_spec geometry :
  let res := processTriangles geometry in
  vstate_inv (position geometry) res.2
  ∧ Forall2 (resolved (position geometry) res.2.1) res.1 (cornerTriples geometry).
Proof.
  unfold processTriangles, cornerTriples.
  rewrite <- (fold_left_fmap (corners geometry)
    (fun acc c => processTriangle (position geometry) c acc)).
  apply (processTriangles_fold (position geometry) _ ([], (∅, [])) []).
  - apply vstate_inv_empty.
  - constructor.
Qed.

(** ** The component table *)

(** Induction on scene nodes, with the hypothesis for every child. *)
Lemma Object3D_nested_ind (P : Object3D → Prop) :
  (∀ t n m mw geo mat cs, Forall P cs → P (mkObject3D t n m mw geo mat cs)) →
  ∀ o, P o.
Proof.
  intros IH. fix go 1. intros [t n m mw geo mat cs]. apply IH.
  induction cs as [|c cs IHcs]; constructor; [apply go | exact IHcs].
Qed.

Lemma processNode_eq node st :
  processNode node st =
    if String.eqb (o_type node) "Mesh" then processMesh node st
    else if isContainer (o_type node) then
      let '(subs, st') := processChildren node (o_children node) ([], st) in
      closeAssembly node subs st'
    else (-1, st)%Z.
Proof. destruct node; reflexivity. Qed.

Lemma processChildren_cons node child rest acc :
  processChildren node (child :: rest) acc =
    processChildren node rest
      (pushSub node child (processNode child acc.2).1 acc.1,
       (processNode child acc.2).2).
Proof.
  unfold processChildren; simpl. by destruct (processNode child acc.2).
Qed.

Lemma wfTable_nil : wfTable [].
Proof. intros i c Hc. by rewrite lookup_nil in Hc. Qed.

Lemma wfTable_snoc cs c :
  wfTable cs → componentOk (length cs) c → wfTable (cs ++ [c]).
Proof.
  intros Hwf Hc i c' Hi. apply lookup_app_Some in Hi as [Hi|[Hge Hi]].
  - by apply Hwf.
  - apply list_lookup_singleton_Some in Hi as [Hi <-].
    by replace i with (length cs) by lia.
Qed.

Lemma extends_refl st : extends st st.
Proof. by split. Qed.

Lemma extends_trans st1 st2 st3 :
  extends st1 st2 → extends st2 st3 → extends st1 st3.
Proof. intros [? ?] [? ?]. split; by etrans. Qed.

Lemma processTriangles_in_range geometry :
  let res := processTriangles geometry in
  Forall (triangleInRange res.2.2) res.1.
Proof.
  destruct (processTriangles_spec geometry) as ((Hmap & _ & _) & Hres).
  simpl. apply Forall_forall. intros t Ht.
  apply list_elem_of_lookup in Ht as [n Ht].
  destruct (Forall2_lookup_l _ _ _ _ _ Hres Ht) as (c & _ & H1 & H2 & H3).
  repeat split.
  - destruct (Hmap _ _ H1) as (v & Hv & _). by eapply lookup_lt_Some.
  - destruct (Hmap _ _ H2) as (v & Hv & _). by eapply lookup_lt_Some.
  - destruct (Hmap _ _ H3) as (v & Hv & _). by eapply lookup_lt_Some.
Qed.

Lemma resolveMaterial_prefix name color ms :
  ms `prefix_of` (resolveMaterial name color ms).2.
Proof.
  unfold resolveMaterial. destruct (List.find _ ms); simpl; [done|].
  by apply prefix_app_r.
Qed.

Lemma processMaterial_prefix node ms :
  ms `prefix_of` (processMaterial node ms).2.
Proof.
  unfold processMaterial. destruct (meshColor _); [|done].
  pose proof (resolveMaterial_prefix (o_name node) c ms) as Hp.
  by destruct (resolveMaterial _ _ _).
Qed.

Lemma processMesh_spec node st id st' :
  processMesh node st = (id, st') →
  id = (Z.of_nat (length (components st)) + 1)%Z
  ∧ (∃ c, components st' = components st ++ [c]
          ∧ componentOk (length (components st)) c
          ∧ c_type c = type_mesh
          ∧ vertices c = (processTriangles (o_geometry node)).2.2
          ∧ triangles c = (processTriangles (o_geometry node)).1
          ∧ c_material c = (processMaterial node (materials st)).1)
  ∧ materials st' = (processMaterial node (materials st)).2
  ∧ sameItems st st'.
Proof.
  unfold processMesh. intros Hrun.
  pose proof (processTriangles_in_range (o_geometry node)) as Hrange.
  destruct (processMaterial node (materials st)) as [mi ms'].
  destruct (generateUUID (rng st)) as [uuid rng'].
  destruct (processTriangles (o_geometry node)) as [tris [vm verts]].
  injection Hrun as <- <-. simpl in *.
  split; [done|]. split; [|by repeat split].
  eexists. split; [done|]. by repeat split.
Qed.

Lemma subsBounded_extends subs st st' :
  extends st st' → subsBounded subs st → subsBounded subs st'.
Proof.
  intros [Hpre _] Hb. apply prefix_length in Hpre.
  eapply Forall_impl; [exact Hb|]. simpl. intros sc Hsc. lia.
Qed.

Lemma closeAssembly_spec node subs st id st' :
  closeAssembly node subs st = (id, st') →
  subsBounded subs st →
  (subs = [] → id = (-1)%Z ∧ st' = st)
  ∧ (subs ≠ [] →
     id = (Z.of_nat (length (components st)) + 1)%Z
     ∧ (∃ c, components st' = components st ++ [c]
             ∧ componentOk (length (components st)) c
             ∧ c_type c = type_assembly
             ∧ subComponents c = subs)
     ∧ materials st' = materials st
     ∧ sameItems st st').
Proof.
  unfold closeAssembly. intros Hrun Hb.
  destruct subs as [|sc subs].
  - simpl in Hrun. injection Hrun as <- <-. by split.
  - rewrite bool_decide_true in Hrun by (simpl; lia).
    destruct (generateUUID (rng st)) as [uuid rng'].
    injection Hrun as <- <-. split; [done|]. intros _. simpl.
    split; [done|]. split; [|by repeat split].
    eexists. split; [done|]. repeat split; simpl; try done.
    eapply Forall_impl; [exact Hb|]. simpl. intros sc' Hsc. lia.
Qed.

Lemma pushSub_length node child subId subs :
  length (pushSub node child subId subs) =
    if (subId =? -1)%Z then length subs else S (length subs).
Proof.
  unfold pushSub. destruct (subId =? -1)%Z; [done|].
  rewrite length_app. simpl. lia.
Qed.

Lemma processChildren_spec node children :
  Forall nodeSpec children →
  ∀ acc, let acc' := processChildren node children acc in
    extends acc.2 acc'.2 ∧ sameItems acc.2 acc'.2
    ∧ (wfTable (components acc.2) → wfTable (components acc'.2))
    ∧ (subsBounded acc.1 acc.2 → subsBounded acc'.1 acc'.2)
    ∧ (length acc.1 ≤ length acc'.1)%nat
    ∧ (length acc'.1 = length acc.1 → acc'.2 = acc.2).
Proof.
  induction 1 as [|child rest Hchild _ IH]; intros [subs st]; cbv zeta.
  - simpl. split; [apply extends_refl|]. split; [by split|].
    by repeat (split; [done|]).
  - rewrite processChildren_cons. cbn [fst snd].
    destruct (processNode child st) as [subId st1] eqn:E. cbn [fst snd].
    destruct (Hchild _ _ _ E) as (Hext & [Hb Hv] & Hret & Hwf).
    specialize (IH (pushSub node child subId subs, st1)).
    cbv zeta in IH. cbn [fst snd] in IH.
    destruct IH as (Hext' & [Hb' Hv'] & Hwf' & Hsb' & Hlen' & Hsame').
    pose proof (pushSub_length node child subId subs) as Hpl.
    split; [by eapply extends_trans|].
    split; [split; congruence|].
    split; [auto|].
    split; [|split].
    + intros Hsb. apply Hsb'. unfold pushSub.
      destruct Hret as [[-> ->]|[-> Hlt]]; simpl; [done|].
      destruct (Z.of_nat _ =? -1)%Z eqn:Hneg; [lia|].
      apply Forall_app. split; [by eapply subsBounded_extends|].
      constructor; [simpl; lia|constructor].
    + destruct (subId =? -1)%Z; lia.
    + intros Hlen. destruct Hret as [[-> ->]|[-> Hlt]].
      * apply Hsame'. simpl in *. lia.
      * destruct (Z.of_nat _ =? -1)%Z eqn:Hneg; lia.
Qed.

Lemma skipped st :
  extends st st ∧ sameItems st st ∧ returned st (-1) st
  ∧ (wfTable (components st) → wfTable (components st)).
Proof.
  split; [apply extends_refl|]. split; [by split|]. split; [by left|done].
Qed.

Lemma processNode_spec node : nodeSpec node.
Proof.
  induction node as [t n m mw geo mat cs IH] using Object3D_nested_ind.
  intros st id st' Hrun. rewrite processNode_eq in Hrun. simpl in Hrun.
  destruct (String.eqb t "Mesh").
  - destruct (processMesh_spec _ _ _ _ Hrun)
      as (-> & (c & Hc & Hok & _) & Hmat & Hsame).
    split; [|split; [done|split]].
    + split; [rewrite Hc; by apply prefix_app_r|].
      rewrite Hmat. apply processMaterial_prefix.
    + right. rewrite Hc, length_app. simpl. lia.
    + intros Hwf. rewrite Hc. by apply wfTable_snoc.
  - destruct (isContainer t); [|injection Hrun as <- <-].
    + pose proof (processChildren_spec
        (mkObject3D t n m mw geo mat cs) cs IH ([], st)) as Hch.
      simpl in Hch.
      destruct (processChildren _ cs ([], st)) as [subs st1]. simpl in Hch.
      destruct Hch as (Hext & [Hb Hv] & Hwf & Hsb & _ & Hsame).
      specialize (Hsb ltac:(constructor)).
      destruct (closeAssembly_spec _ _ _ _ _ Hrun Hsb) as [Hnil Hcons].
      destruct subs as [|sc subs].
      * destruct (Hnil eq_refl) as [-> ->].
        rewrite (Hsame eq_refl). apply skipped.
      * destruct (Hcons ltac:(done))
          as (-> & (c & Hc & Hok & _) & Hmat & [Hb' Hv']).
        split; [|split; [|split]].
        -- eapply extends_trans; [exact Hext|].
           split; [rewrite Hc; by apply prefix_app_r|by rewrite Hmat].
        -- split; congruence.
        -- right. destruct Hext as [Hpre _]. apply prefix_length in Hpre.
           rewrite Hc, length_app. simpl. lia.
        -- intros Hwf0. rewrite Hc. apply wfTable_snoc; auto.
    + apply skipped.
Qed.

(** ** Looking components up by id *)

Lemma find_by_position (cs : list ComponentInfo) : ∀ off i c,
  (∀ j x, cs !! j = Some x → c_id x = (Z.of_nat (off + j) + 1)%Z) →
  cs !! i = Some c →
  List.find (fun x => (c_id x =? Z.of_nat (off + i) + 1)%Z) cs = Some c.
Proof.
  induction cs as [|x cs IH]; intros off i c Hid Hi; [by rewrite lookup_nil in Hi|].
  simpl. destruct i as [|i]; simpl in Hi.
  - injection Hi as ->. rewrite (Hid 0 c eq_refl). by rewrite Z.eqb_refl.
  - pose proof (Hid 0 x eq_refl) as Hx.
    destruct (Z.eqb_spec (c_id x) (Z.of_nat (off + S i) + 1)) as [Heq|_]; [lia|].
    replace (off + S i) with (S off + i) by lia.
    apply IH; [|done]. intros j y Hj.
    replace (S off + j) with (off + S j) by lia. by apply Hid.
Qed.

Lemma findComponent_wf cs i c :
  wfTable cs → cs !! i = Some c →
  findComponent cs (Z.of_nat i + 1) = Some c.
Proof.
  intros Hwf Hi. apply (find_by_position cs 0 i c); [|done].
  intros j x Hj. by destruct (Hwf j x Hj) as [-> _].
Qed.

Lemma findComponent_in_range cs id :
  wfTable cs → (1 ≤ id ≤ Z.of_nat (length cs))%Z →
  ∃ c, findComponent cs id = Some c ∧ cs !! (Z.to_nat id - 1) = Some c.
Proof.
  intros Hwf Hid.
  destruct (lookup_lt_is_Some_2 cs (Z.to_nat id - 1)) as [c Hc]; [lia|].
  exists c. split; [|done].
  replace id with (Z.of_nat (Z.to_nat id - 1) + 1)%Z at 1 by lia.
  by apply findComponent_wf.
Qed.

Lemma wfTable_prefix cs cs' : cs `prefix_of` cs' → wfTable cs' → wfTable cs.
Proof.
  intros [rest ->] Hwf i c Hi. apply Hwf. by apply lookup_app_l_Some.
Qed.

Lemma findComponent_prefix cs cs' id :
  cs `prefix_of` cs' → wfTable cs' → (1 ≤ id ≤ Z.of_nat (length cs))%Z →
  findComponent cs' id = findComponent cs id.
Proof.
  intros Hpre Hwf Hid.
  destruct (findComponent_in_range cs id (wfTable_prefix _ _ Hpre Hwf) Hid)
    as (c & -> & Hc).
  destruct Hpre as [rest ->].
  replace id with (Z.of_nat (Z.to_nat id - 1) + 1)%Z by lia.
  apply findComponent_wf; [done|]. by apply lookup_app_l_Some.
Qed.

(** ** Computations that end normally *)

Lemma mapC_normal {A B} (f : A → Completion B) (l : list A) :
  (∀ a, a ∈ l → ∃ b, f a = Normal b) → ∃ bs, mapC f l = Normal bs.
Proof.
  induction l as [|a l IH]; intros Hf; simpl; [by eexists|].
  destruct (Hf a) as [b ->]; [by left|].
  destruct IH as [bs ->]; [intros a' Ha'; apply Hf; by right|].
  by eexists.
Qed.

Lemma mapC_ext {A B} (f g : A → Completion B) (l : list A) :
  (∀ a, a ∈ l → f a = g a) → mapC f l = mapC g l.
Proof.
  induction l as [|a l IH]; intros Hfg; simpl; [done|].
  rewrite (Hfg a) by (by left). rewrite IH; [done|].
  intros a' Ha'. apply Hfg. by right.
Qed.

Lemma flatMapC_normal {A B} (f : A → Completion (list B)) (l : list A) :
  (∀ a, a ∈ l → ∃ b, f a = Normal b) → ∃ bs, flatMapC f l = Normal bs.
Proof.
  intros Hf. unfold flatMapC. destruct (mapC_normal f l Hf) as [bs ->].
  by eexists.
Qed.

Lemma flatMapC_ext {A B} (f g : A → Completion (list B)) (l : list A) :
  (∀ a, a ∈ l → f a = g a) → flatMapC f l = flatMapC g l.
Proof. intros Hfg. unfold flatMapC. by rewrite (mapC_ext f g l Hfg). Qed.

(** On a well-formed table [getVerts] needs no more unfoldings than the
    position of the component it starts from, plus one. *)
Lemma getVerts_normal cs : wfTable cs →
  ∀ fuel i c, cs !! i = Some c → i < fuel →
    ∃ vs, getVerts fuel cs c = Normal vs.
Proof.
  intros Hwf. induction fuel as [|fuel IH]; intros i c Hi Hlt; [lia|].
  simpl. destruct (Hwf i c Hi) as (Hid & Hsubs & _).
  destruct (c_type c); [by eexists|].
  apply flatMapC_normal. intros sc Hsc.
  rewrite Forall_forall in Hsubs. specialize (Hsubs sc Hsc).
  apply lookup_lt_Some in Hi as Hlen.
  destruct (findComponent_in_range cs (sc_objectId sc) Hwf) as (c' & -> & Hc'); [lia|].
  destruct (IH _ _ Hc') as [vs ->]; [lia|]. by eexists.
Qed.

Lemma collect_normal cs : wfTable cs →
  ∀ fuel i c, cs !! i = Some c → i < fuel →
    ∃ parts, collect fuel cs c = Normal parts.
Proof.
  intros Hwf. induction fuel as [|fuel IH]; intros i c Hi Hlt; [lia|].
  simpl. destruct (Hwf i c Hi) as (Hid & Hsubs & _).
  destruct (c_type c); [by eexists|].
  apply flatMapC_normal. intros sc Hsc.
  rewrite Forall_forall in Hsubs. specialize (Hsubs sc Hsc).
  apply lookup_lt_Some in Hi as Hlen.
  destruct (findComponent_in_range cs (sc_objectId sc) Hwf) as (c' & -> & Hc'); [lia|].
  by apply (IH _ _ Hc'); lia.
Qed.

(** More unfoldings, or a longer table, do not change what [getVerts]
    returns for a component of a well-formed table. *)
Lemma getVerts_stable cs cs' : cs `prefix_of` cs' → wfTable cs' →
  ∀ fuel fuel' i c, cs !! i = Some c → i < fuel → i < fuel' →
    getVerts fuel' cs' c = getVerts fuel cs c.
Proof.
  intros Hpre Hwf'. pose proof (wfTable_prefix _ _ Hpre Hwf') as Hwf.
  induction fuel as [|fuel IH]; intros fuel' i c Hi Hlt Hlt'; [lia|].
  destruct fuel' as [|fuel']; [lia|].
  simpl. destruct (Hwf i c Hi) as (Hid & Hsubs & _).
  destruct (c_type c); [done|].
  apply flatMapC_ext. intros sc Hsc.
  rewrite Forall_forall in Hsubs. specialize (Hsubs sc Hsc).
  apply lookup_lt_Some in Hi as Hlen.
  rewrite (findComponent_prefix cs cs') by (done || lia).
  destruct (findComponent_in_range cs (sc_objectId sc) Hwf) as (c' & -> & Hc'); [lia|].
  rewrite (IH fuel' _ _ Hc') by lia. done.
Qed.

(** ** The emitters leave the tables alone *)

Lemma bindE_run {A B} (m : Emit A) (k : A → Emit B) st :
  (m ≫= k) st =
    match m st with
    | Normal r => k r.1 r.2
    | Throw => Throw
    | OutOfFuel => OutOfFuel
    end.
Proof. reflexivity. Qed.

(** A [map] whose callback only computes from the element it is given
    returns what the callback computes for the elements of the table, and
    leaves the state as it was. *)
Lemma mapFrom_pure {A B} (table : ExportState → list A)
    (callback : A → nat → Emit B) (g : A → Completion B) st :
  (∀ a k, callback a k st = liftE (g a) st) →
  ∀ n k, k + n = length (table st) →
    mapFrom table callback k n st
    = liftE ((fun bs : list B => Some <$> bs) <$> mapC g (drop k (table st))) st.
Proof.
  intros Hcb. induction n as [|n IH]; intros k Hk.
  - rewrite drop_ge by lia. reflexivity.
  - destruct (lookup_lt_is_Some_2 (table st) k) as [a Ha]; [lia|].
    rewrite (drop_S _ _ _ Ha). simpl. rewrite Ha, bindE_run, Hcb. unfold liftE.
    destruct (g a) as [b| |]; [|done..]. simpl.
    rewrite bindE_run, IH by lia.
    by destruct (mapC g (drop (S k) (table st))).
Qed.

Lemma mapArray_pure {A B} (table : ExportState → list A)
    (callback : A → nat → Emit B) (g : A → Completion B) st :
  (∀ a k, callback a k st = liftE (g a) st) →
  mapArray table callback st
  = liftE ((fun bs : list B => Some <$> bs) <$> mapC g (table st)) st.
Proof.
  intros Hcb. unfold mapArray.
  by rewrite (mapFrom_pure table callback g st Hcb _ 0).
Qed.

Lemma joinE_Some separator (pieces : list string) :
  joinE separator (Some <$> pieces) = String.concat separator pieces.
Proof.
  unfold joinE. f_equal. rewrite <- list_fmap_compose.
  induction pieces as [|x pieces IH]; [done|]. simpl. by f_equal.
Qed.

Lemma mapC_total {A B} (g : A → B) (l : list A) :
  mapC (fun a => Normal (g a)) l = Normal (g <$> l).
Proof. induction l as [|a l IH]; simpl; [done|]. by rewrite IH. Qed.

Lemma runCreateMainModelXML_pure shift printConfig st :
  runCreateMainModelXML shift printConfig st
  = liftE (createMainModelXML (components st) (buildItems st) shift printConfig) st.
Proof.
  unfold runCreateMainModelXML, createMainModelXML. cbv zeta.
  rewrite bindE_run, (mapArray_pure components _ resourceXML) by done.
  destruct (mapC resourceXML (components st)) as [rs| |]; [|done..]. simpl.
  rewrite bindE_run,
    (mapArray_pure buildItems _ (fun item => Normal (itemXML shift item))) by done.
  rewrite mapC_total. simpl. by rewrite !joinE_Some.
Qed.

Lemma forEachFrom_settings st : ∀ n k acc,
  k + n = length (buildItems st) →
  forEachFrom buildItems
    (fun acc item index =>
       cs ← readE components; liftE (settingsStep cs acc item index)) k n acc st
  = liftE (settingsLoop (components st) (drop k (buildItems st)) k acc) st.
Proof.
  induction n as [|n IH]; intros k acc Hk.
  - rewrite drop_ge by lia. reflexivity.
  - destruct (lookup_lt_is_Some_2 (buildItems st) k) as [item Hitem]; [lia|].
    rewrite (drop_S _ _ _ Hitem). simpl. rewrite Hitem, bindE_run.
    change ((readE components ≫= _) st)
      with (liftE (settingsStep (components st) acc item k) st).
    unfold liftE.
    destruct (settingsStep (components st) acc item k) as [acc'| |]; [|done..].
    simpl. by rewrite IH by lia.
Qed.

Lemma runCreateModelSettingsXML_pure st :
  runCreateModelSettingsXML st
  = liftE (createModelSettingsXML (components st) (buildItems st)) st.
Proof.
  unfold runCreateModelSettingsXML, createModelSettingsXML, forEachArray.
  rewrite bindE_run, (forEachFrom_settings st _ 0) by done. simpl.
  by destruct (settingsLoop _ _ _ _).
Qed.

Lemma runCreateProjectSettingsConfig_pure printConfig st :
  runCreateProjectSettingsConfig printConfig st
  = Normal (createProjectSettingsConfig (materials st) printConfig, st).
Proof. reflexivity. Qed.

(** The three documents are what the emitters compute from the tables
    they are given, and the state [emitDocuments] returns is the one it
    was given. *)
Lemma emitDocuments_pure printConfig st :
  emitDocuments printConfig st =
    (mainModelXml ← createMainModelXML (components st) (buildItems st)
       (centeringShift printConfig (allVerticesWorld st)) printConfig;
     modelSettingsXml ← createModelSettingsXML (components st) (buildItems st);
     Normal ({| mainModelXml := mainModelXml;
                modelSettingsXml := modelSettingsXml;
                projectSettingsConfig :=
                  createProjectSettingsConfig (materials st) printConfig |}, st)).
Proof.
  unfold emitDocuments. cbv zeta.
  rewrite bindE_run, runCreateMainModelXML_pure.
  destruct (createMainModelXML _ _ _ _) as [main| |]; [|done..]. simpl.
  rewrite bindE_run, runCreateModelSettingsXML_pure.
  by destruct (createModelSettingsXML _ _) as [settings| |].
Qed.

(** ** The traversal as a whole *)

Lemma wfState_initial : wfState initialState.
Proof. split; [apply wfTable_nil|]. split; [constructor|done]. Qed.

Lemma itemWorldVertices_stable cs cs' item :
  cs `prefix_of` cs' → wfTable cs' →
  (1 ≤ objectId item ≤ Z.of_nat (length cs))%Z →
  itemWorldVertices cs' item = itemWorldVertices cs item.
Proof.
  intros Hpre Hwf' Hid. unfold itemWorldVertices.
  rewrite (findComponent_prefix cs cs') by done.
  destruct (findComponent_in_range cs (objectId item)
              (wfTable_prefix _ _ Hpre Hwf') Hid) as (c & -> & Hc).
  apply prefix_length in Hpre as Hlen.
  rewrite (getVerts_stable cs cs' Hpre Hwf' (length cs) (length cs')
             _ c Hc) by lia.
  done.
Qed.

Lemma sceneWorldVertices_stable cs cs' items :
  cs `prefix_of` cs' → wfTable cs' → itemsBounded cs items →
  sceneWorldVertices cs' items = sceneWorldVertices cs items.
Proof.
  intros Hpre Hwf' Hb. apply flatMapC_ext. intros item Hitem.
  apply itemWorldVertices_stable; [done..|].
  unfold itemsBounded in Hb. rewrite Forall_forall in Hb. by apply Hb.
Qed.

Lemma mapC_snoc {A B} (f : A → Completion B) (l : list A) (a : A) bs b :
  mapC f l = Normal bs → f a = Normal b → mapC f (l ++ [a]) = Normal (bs ++ [b]).
Proof.
  revert bs. induction l as [|x l IH]; intros bs Hl Ha; simpl in *.
  - injection Hl as <-. by rewrite Ha.
  - destruct (f x) as [y| |]; [|done..]. simpl in *.
    destruct (mapC f l) as [ys| |] eqn:Hys; [|done..]. simpl in *.
    injection Hl as <-. by rewrite (IH ys eq_refl Ha).
Qed.

Lemma flatMapC_snoc {A B} (f : A → Completion (list B)) (l : list A) (a : A) bs b :
  flatMapC f l = Normal bs → f a = Normal b →
  flatMapC f (l ++ [a]) = Normal (bs ++ b).
Proof.
  unfold flatMapC. intros Hl Ha.
  destruct (mapC f l) as [ys| |] eqn:Hys; [|done..]. simpl in Hl.
  injection Hl as <-. rewrite (mapC_snoc f l a ys b Hys Ha). simpl.
  rewrite concat_app. simpl. by rewrite app_nil_r.
Qed.

Lemma itemsBounded_extends cs cs' items :
  cs `prefix_of` cs' → itemsBounded cs items → itemsBounded cs' items.
Proof.
  intros Hpre Hb. apply prefix_length in Hpre.
  eapply Forall_impl; [exact Hb|]. simpl. intros item Hitem. lia.
Qed.

(** One turn of [rootChildren.forEach] ends normally and keeps the
    invariant; it adds a build item exactly when [processNode] returned
    an id. *)
Lemma exportChild_spec child st :
  wfState st →
  ∃ st', exportChild child st = Normal st'
    ∧ wfState st' ∧ extends st st'
    ∧ components st' = components (processNode child st).2
    ∧ materials st' = materials (processNode child st).2
    ∧ (if ((processNode child st).1 =? -1)%Z then st' = st
       else ∃ uuid,
         buildItems st' = buildItems st ++
           [{| objectId := (processNode child st).1;
               transformMatrix := o_matrix child; b_uuid := uuid |}]).
Proof.
  intros (Hwf & Hitems & Hworld). unfold exportChild.
  destruct (processNode child st) as [childId st1] eqn:Hrun. simpl.
  destruct (processNode_spec child _ _ _ Hrun) as (Hext & [Hb Hv] & Hret & Hwf1).
  specialize (Hwf1 Hwf).
  destruct Hret as [[-> ->]|[-> Hlt]]; simpl.
  - exists st. split; [done|]. split; [by split|]. by split.
  - destruct (Z.eqb_spec (Z.of_nat (length (components st1))) (-1)) as [|_]; [lia|].
    destruct (findComponent_in_range (components st1)
                (Z.of_nat (length (components st1))) Hwf1) as (c & Hfind & Hc); [lia|].
    rewrite Hfind.
    destruct (getVerts_normal _ Hwf1 (length (components st1)) _ c Hc) as [vs Hvs];
      [lia|].
    rewrite Hvs. simpl.
    destruct (generateUUID (rng st1)) as [uuid rng'].
    eexists. split; [done|]. simpl.
    destruct Hext as [Hpre Hmat].
    split; [|split; [by split|split; [done|split; [done|]]]].
    + split; [done|]. rewrite Hb. split.
      * apply Forall_app. split; [by eapply itemsBounded_extends|].
        constructor; [simpl; lia|constructor].
      * rewrite Hv. apply flatMapC_snoc; simpl.
        -- rewrite <- Hworld.
           by apply (sceneWorldVertices_stable (components st) (components st1)).
        -- unfold itemWorldVertices. simpl. by rewrite Hfind, Hvs.
    + rewrite Hb. by eexists.
Qed.

Lemma forEachRootChild_spec children : ∀ st,
  wfState st →
  ∃ st', forEachRootChild children st = Normal st'
    ∧ wfState st' ∧ extends st st'.
Proof.
  induction children as [|child rest IH]; intros st Hst; simpl.
  - exists st. split; [done|]. split; [done|apply extends_refl].
  - destruct (exportChild_spec child st Hst) as (st1 & -> & Hst1 & Hext1 & _).
    simpl. destruct (IH st1 Hst1) as (st2 & -> & Hst2 & Hext2).
    exists st2. split; [done|]. split; [done|]. by eapply extends_trans.
Qed.

(** The traversal always ends normally, in a well-formed state. *)
Lemma traverse_spec object :
  ∃ st, traverse object = Normal st ∧ wfState st.
Proof.
  destruct (forEachRootChild_spec (rootChildren object) initialState wfState_initial)
    as (st & Hrun & Hst & _).
  by exists st.
Qed.

Lemma exportRun_state object printJobConfig blob st :
  exportRun object printJobConfig = Normal (blob, st) →
  traverse object = Normal st.
Proof.
  unfold exportRun. destruct (traverse object) as [st0| |]; [|done..].
  simpl. rewrite emitDocuments_pure. destruct (createMainModelXML _ _ _ _); [|done..]. simpl.
  destruct (createModelSettingsXML _ _); [|done..]. simpl. congruence.
Qed.

(** C1: every export builds a component table whose ids are 1, 2, ..., N
    in table order (the component at position i has id i + 1, so the
    list of ids is 1, 2, ..., N without gap or repeat), and every
    sub-component reference of an
    assembly names a component with a strictly smaller id, that is, one
    created before the assembly.  The table of a completed export is the
    one the traversal built. *)
Theorem component_ids_contiguous (object : Object3D) :
  ∃ st, traverse object = Normal st
    ∧ (∀ i c, components st !! i = Some c → c_id c = (Z.of_nat i + 1)%Z)
    ∧ c_id <$> components st
        = (fun i => (Z.of_nat i + 1)%Z) <$> seq 0 (length (components st))
    ∧ (∀ c sc, c ∈ components st → sc ∈ subComponents c →
         (1 ≤ sc_objectId sc < c_id c)%Z)
    ∧ (∀ printJobConfig blob st',
         exportRun object printJobConfig = Normal (blob, st') → st' = st).
Proof.
  destruct (traverse_spec object) as (st & Hrun & Hwf & _).
  exists st. split; [done|]. split; [|split; [|split]].
  - intros i c Hc. by destruct (Hwf i c Hc).
  - apply list_eq. intros i. rewrite !list_lookup_fmap.
    destruct (components st !! i) as [c|] eqn:Hc; simpl.
    + rewrite lookup_seq_lt by (by eapply lookup_lt_Some). simpl.
      by destruct (Hwf i c Hc) as [-> _].
    + apply lookup_ge_None in Hc. by rewrite lookup_seq_ge.
  - intros c sc Hc Hsc. apply list_elem_of_lookup in Hc as [i Hc].
    destruct (Hwf i c Hc) as (_ & Hsubs & _).
    rewrite Forall_forall in Hsubs. by apply Hsubs.
  - intros cfg blob st' Hexp. apply exportRun_state in Hexp. congruence.
Qed.

Lemma processNode_mesh node st :
  o_type node = "Mesh" → processNode node st = processMesh node st.
Proof. intros Ht. rewrite processNode_eq. by rewrite Ht. Qed.

(** C2: when the root is a group (a node of type Group or Object3D) with
    exactly two children, both meshes, the traversal ends with a table of
    exactly three components: meshes with ids 1 and 2 and an assembly
    with id 3 whose sub-components name 1 and 2 in this order; the only
    build item names component 3. *)
Theorem group_of_two_meshes (root m1 m2 : Object3D) :
  o_type root = "Group" ∨ o_type root = "Object3D" →
  o_children root = [m1; m2] →
  o_type m1 = "Mesh" → o_type m2 = "Mesh" →
  ∃ st c1 c2 c3 item,
    traverse root = Normal st
    ∧ components st = [c1; c2; c3]
    ∧ c_type c1 = type_mesh ∧ c_id c1 = 1%Z
    ∧ c_type c2 = type_mesh ∧ c_id c2 = 2%Z
    ∧ c_type c3 = type_assembly ∧ c_id c3 = 3%Z
    ∧ sc_objectId <$> subComponents c3 = [1%Z; 2%Z]
    ∧ buildItems st = [item] ∧ objectId item = 3%Z.
Proof.
  intros Hroot Hchildren Hm1 Hm2.
  assert (String.eqb (o_type root) "Mesh" = false
          ∧ String.eqb (o_type root) "Scene" = false
          ∧ isContainer (o_type root) = true) as (HnotMesh & HnotScene & Hcont).
  { by destruct Hroot as [-> | ->]. }
  destruct (processMesh m1 initialState) as [id1 st1] eqn:E1.
  destruct (processMesh m2 st1) as [id2 st2] eqn:E2.
  destruct (processMesh_spec _ _ _ _ E1)
    as (Hid1 & (c1 & Hc1 & Hok1 & Ht1 & _) & _ & [Hb1 _]).
  destruct (processMesh_spec _ _ _ _ E2)
    as (Hid2 & (c2 & Hc2 & Hok2 & Ht2 & _) & _ & [Hb2 _]).
  simpl in Hc1, Hid1, Hok1. rewrite Hc1 in Hc2, Hid2, Hok2.
  simpl in Hc2, Hid2, Hok2. subst id1 id2.
  destruct (closeAssembly root
    [{| sc_objectId := 1; sc_transform := relMatrix m1 root |};
     {| sc_objectId := 2; sc_transform := relMatrix m2 root |}] st2)
    as [id3 st3] eqn:E3.
  assert (processNode root initialState = (id3, st3)) as Hnode.
  { rewrite processNode_eq, HnotMesh, Hcont, Hchildren.
    rewrite !processChildren_cons. cbn [fst snd].
    rewrite (processNode_mesh m1), E1 by done. cbn [fst snd].
    rewrite (processNode_mesh m2), E2 by done. cbn [fst snd]. exact E3. }
  destruct (closeAssembly_spec _ _ _ _ _ E3) as [_ Hcons].
  { unfold subsBounded. rewrite Hc2. repeat constructor; simpl; lia. }
  destruct (Hcons ltac:(done)) as (Hid3 & (c3 & Hc3 & Hok3 & Ht3 & Hsubs3) & _ & [Hb3 _]).
  rewrite Hc2 in Hc3, Hid3, Hok3. simpl in Hc3, Hid3, Hok3. subst id3.
  destruct (exportChild_spec root initialState wfState_initial)
    as (st & Hrun & _ & _ & Hcs & _ & Hitems).
  rewrite Hnode in Hcs, Hitems. simpl in Hcs, Hitems.
  destruct Hitems as [uuid Hitems].
  exists st, c1, c2, c3, {| objectId := 3; transformMatrix := o_matrix root; b_uuid := uuid |}.
  split.
  { unfold traverse, rootChildren. rewrite HnotScene. simpl. by rewrite Hrun. }
  split; [by rewrite Hcs, Hc3|].
  destruct Hok1 as [-> _]. destruct Hok2 as [-> _]. destruct Hok3 as [-> _].
  rewrite Hsubs3. by repeat split.
Qed.

(** ** Mesh components *)

Lemma resolved_corners pos vm tris triples :
  Forall2 (resolved pos vm) tris triples →
  Forall2 (fun i a => vm !! vertexKey (fromBufferAttribute pos a) = Some i)
    (cornerIndices tris) (triples ≫= fun c => [c.1.1; c.1.2; c.2]).
Proof.
  induction 1 as [|t c tris triples (H1 & H2 & H3) _ IH]; [constructor|].
  unfold cornerIndices. rewrite !bind_cons. simpl.
  by repeat (constructor; [done|]).
Qed.

(** C3: the component [processMesh] appends for a mesh node stores its
    vertices in the node's local space: every stored vertex is a read of
    the node's position buffer, and vertices and triangles are the same
    for any node with the same geometry, whatever its matrices.  The
    vertices are de-duplicated through the string key: any two corners
    whose coordinates are identical are given the same index, two corners
    get the same index exactly when their keys are equal, the vertex
    stored at a corner's index has the corner's key, and no two stored
    vertices share a key. *)
Theorem mesh_vertices_local_and_deduplicated (node : Object3D) (st : ExportState) :
  let geometry := o_geometry node in
  let fetch := fromBufferAttribute (position geometry) in
  ∃ c, components (processMesh node st).2 = components st ++ [c]
    ∧ c_type c = type_mesh
    ∧ (∀ v, v ∈ vertices c → ∃ a, v = fetch a)
    ∧ (∀ node' st', o_geometry node' = geometry →
         ∃ c', components (processMesh node' st').2 = components st' ++ [c']
           ∧ vertices c' = vertices c ∧ triangles c' = triangles c)
    ∧ length (cornerIndices (triangles c)) = length (cornerArgs geometry)
    ∧ (∀ j k a b ij ik,
         cornerArgs geometry !! j = Some a →
         cornerArgs geometry !! k = Some b →
         cornerIndices (triangles c) !! j = Some ij →
         cornerIndices (triangles c) !! k = Some ik →
         (fetch a = fetch b → ij = ik)
         ∧ (ij = ik ↔ vertexKey (fetch a) = vertexKey (fetch b))
         ∧ ∃ v, vertices c !! ij = Some v ∧ vertexKey v = vertexKey (fetch a))
    ∧ NoDup (vertexKey <$> vertices c).
Proof.
  intros geometry fetch.
  destruct (processMesh node st) as [id st1] eqn:Hrun.
  destruct (processMesh_spec _ _ _ _ Hrun)
    as (_ & (c & Hc & _ & Htype & Hverts & Htris & _) & _).
  destruct (processTriangles_spec geometry) as ((Hmap & Hlist & Hsrc) & Hres).
  fold geometry in Hverts, Htris.
  apply resolved_corners in Hres. fold (cornerArgs geometry) in Hres.
  rewrite <- Htris, <- Hverts in *.
  set (vm := (processTriangles geometry).2.1) in *.
  exists c. split; [done|]. split; [done|]. split; [exact Hsrc|].
  split; [|split; [by eapply Forall2_length|split]].
  - intros node' st' Hgeo.
    destruct (processMesh node' st') as [id' st1'] eqn:Hrun'.
    destruct (processMesh_spec _ _ _ _ Hrun')
      as (_ & (c' & Hc' & _ & _ & Hverts' & Htris' & _) & _).
    exists c'. rewrite Hgeo in Hverts', Htris'.
    fold geometry in Hverts', Htris'. split; [done|]. split; congruence.
  - intros j k a b ij ik Ha Hb Hij Hik.
    pose proof (Forall2_lookup_lr _ _ _ _ _ _ Hres Hij Ha) as Hja.
    pose proof (Forall2_lookup_lr _ _ _ _ _ _ Hres Hik Hb) as Hkb.
    simpl in Hja, Hkb. fold fetch in Hja, Hkb.
    assert (ij = ik ↔ vertexKey (fetch a) = vertexKey (fetch b)) as Hiff.
    { split.
      - intros ->. destruct (Hmap _ _ Hja) as (v & Hv & <-).
        destruct (Hmap _ _ Hkb) as (w & Hw & <-). congruence.
      - intros Hkey. rewrite Hkey in Hja. congruence. }
    split; [intros Hab; apply Hiff; by rewrite Hab|]. split; [done|].
    by apply Hmap.
  - apply NoDup_alt. intros i j k Hi Hj.
    apply list_lookup_fmap_Some in Hi as (v & -> & Hv).
    apply list_lookup_fmap_Some in Hj as (w & Hkey & Hw).
    apply Hlist in Hv, Hw. rewrite Hkey in Hv. congruence.
Qed.

(** C10: in every mesh component of the table an export builds, the three
    indices of every triangle are natural numbers below the number of
    stored vertices, so looking the corners up in [vertices] always finds
    a vertex. *)
Theorem triangle_indices_in_range (object : Object3D) :
  ∃ st, traverse object = Normal st
    ∧ ∀ c t, c ∈ components st → c_type c = type_mesh → t ∈ triangles c →
        (v1 t < length (vertices c) ∧ v2 t < length (vertices c)
         ∧ v3 t < length (vertices c))
        ∧ is_Some (vertices c !! v1 t) ∧ is_Some (vertices c !! v2 t)
        ∧ is_Some (vertices c !! v3 t).
Proof.
  destruct (traverse_spec object) as (st & Hrun & Hwf & _).
  exists st. split; [done|]. intros c t Hc _ Ht.
  apply list_elem_of_lookup in Hc as [i Hc].
  destruct (Hwf i c Hc) as (_ & _ & Htris & _).
  rewrite Forall_forall in Htris. destruct (Htris t Ht) as (H1 & H2 & H3).
  split; [done|]. by rewrite <- !lookup_lt_is_Some in *.
Qed.

(** ** Materials *)

Lemma find_app_Some {A} (f : A → bool) (l l' : list A) (x : A) :
  List.find f l = Some x → List.find f (l ++ l') = Some x.
Proof.
  induction l as [|a l IH]; simpl; [done|]. by destruct (f a).
Qed.

Lemma find_first {A} (f : A → bool) (l : list A) (x : A) :
  List.find f l = Some x →
  ∃ i, l !! i = Some x ∧ f x = true
       ∧ ∀ j y, j < i → l !! j = Some y → f y = false.
Proof.
  induction l as [|a l IH]; simpl; [done|].
  destruct (f a) eqn:Hfa.
  - intros [= ->]. exists 0. split; [done|]. split; [done|]. intros j y Hj. lia.
  - intros Hx. destruct (IH Hx) as (i & Hi & Hfx & Hbefore).
    exists (S i). split; [done|]. split; [done|].
    intros [|j] y Hj Hy; simpl in Hy; [congruence|]. apply (Hbefore j); [lia|done].
Qed.

Lemma find_None_iff {A} (f : A → bool) (l : list A) :
  List.find f l = None ↔ ∀ x, x ∈ l → f x = false.
Proof.
  induction l as [|a l IH]; simpl.
  - split; [|done]. intros _ x Hx. by apply not_elem_of_nil in Hx.
  - destruct (f a) eqn:Hfa.
    + split; [done|]. intros Hall. rewrite Hall in Hfa by (by left). done.
    + rewrite IH. split.
      * intros Hall x Hx. apply elem_of_cons in Hx as [->|Hx]; auto.
      * intros Hall x Hx. apply Hall. by right.
Qed.

Lemma find_app_None {A} (f : A → bool) (l l' : list A) :
  List.find f l = None → List.find f (l ++ l') = List.find f l'.
Proof.
  induction l as [|a l IH]; simpl; [done|]. by destruct (f a).
Qed.

(** When the colour equals itself (no channel is NaN), the material
    returned is the first of the resulting list with that colour. *)
Lemma resolveMaterial_first name color ms :
  sameColor color color = true →
  List.find (fun m => sameColor (m_color m) color) (resolveMaterial name color ms).2
    = Some (resolveMaterial name color ms).1.
Proof.
  intros Hrefl. unfold resolveMaterial.
  destruct (List.find _ ms) as [m|] eqn:Hfind; simpl; [done|].
  rewrite find_app_None by done. simpl. by rewrite Hrefl.
Qed.

(** C4: resolving a colour against the material list.  Equality of
    colours is the source's channel-wise [===].  If some stored material
    has the candidate's colour, the first such material is returned and
    the list is unchanged; otherwise a new material with the candidate's
    colour and with id and extruder [length + 1] is appended and
    returned.  Either way the old list is an initial segment of the new
    one, and so it is across [processNode]: nothing is ever removed or
    merged.  Two meshes of the same export whose colour is the same (and
    equal to itself) get the same material, hence the same extruder, and
    the second adds nothing to the list. *)
Theorem material_resolution (meshName : string) (color : Color)
    (ms : list MaterialInfo) :
  let res := resolveMaterial meshName color ms in
  ms `prefix_of` res.2
  ∧ ((∃ m, m ∈ ms ∧ sameColor (m_color m) color = true) →
     res.2 = ms
     ∧ ∃ i, ms !! i = Some res.1
         ∧ sameColor (m_color res.1) color = true
         ∧ ∀ j m, j < i → ms !! j = Some m → sameColor (m_color m) color = false)
  ∧ ((∀ m, m ∈ ms → sameColor (m_color m) color = false) →
     res.2 = ms ++ [res.1]
     ∧ m_color res.1 = color
     ∧ extruder res.1 = (Z.of_nat (length ms) + 1)%Z
     ∧ m_id res.1 = (Z.of_nat (length ms) + 1)%Z)
  ∧ (∀ node st, materials st `prefix_of` materials (processNode node st).2)
  ∧ (∀ node1 node2 st st2,
       meshColor (o_material node1) = Some color →
       meshColor (o_material node2) = Some color →
       sameColor color color = true →
       materials (processMesh node1 st).2 `prefix_of` materials st2 →
       ∃ c1 c2 m,
         components (processMesh node1 st).2 = components st ++ [c1]
         ∧ components (processMesh node2 st2).2 = components st2 ++ [c2]
         ∧ c_material c1 = Some m ∧ c_material c2 = Some m
         ∧ m ∈ materials st2
         ∧ materials (processMesh node2 st2).2 = materials st2).
Proof.
  intros res. split; [apply resolveMaterial_prefix|]. split; [|split; [|split]].
  - intros (m & Hm & Hsame). subst res. unfold resolveMaterial.
    destruct (List.find _ ms) as [m'|] eqn:Hfind; simpl.
    + split; [done|]. by apply (find_first _ _ _ Hfind).
    + rewrite find_None_iff in Hfind. rewrite (Hfind m Hm) in Hsame. done.
  - intros Hnone. apply find_None_iff in Hnone. subst res.
    unfold resolveMaterial. by rewrite Hnone.
  - intros node st. destruct (processNode node st) as [id st'] eqn:Hrun.
    by destruct (processNode_spec node _ _ _ Hrun) as ([_ Hmat] & _).
  - intros node1 node2 st st2 Hc1 Hc2 Hrefl Hpre.
    destruct (processMesh node1 st) as [id1 st1] eqn:E1.
    destruct (processMesh node2 st2) as [id2 st2'] eqn:E2.
    destruct (processMesh_spec _ _ _ _ E1)
      as (_ & (c1 & Hcs1 & _ & _ & _ & _ & Hm1) & Hms1 & _).
    destruct (processMesh_spec _ _ _ _ E2)
      as (_ & (c2 & Hcs2 & _ & _ & _ & _ & Hm2) & Hms2 & _).
    unfold processMaterial in Hm1, Hms1, Hm2, Hms2.
    rewrite Hc1 in Hm1, Hms1. rewrite Hc2 in Hm2, Hms2.
    pose proof (resolveMaterial_first (o_name node1) color (materials st) Hrefl)
      as Hfirst.
    destruct (resolveMaterial (o_name node1) color (materials st))
      as [m1 ms1] eqn:R1. simpl in *.
    rewrite <- Hms1 in Hfirst. destruct Hpre as [rest Hrest].
    assert (List.find (fun m => sameColor (m_color m) color) (materials st2)
            = Some m1) as Hfind2.
    { rewrite Hrest. by apply find_app_Some. }
    unfold resolveMaterial in Hm2, Hms2. rewrite Hfind2 in Hm2, Hms2.
    simpl in *. exists c1, c2, m1. repeat split; try done.
    apply find_first in Hfind2 as (i & Hi & _). by eapply list_elem_of_lookup_2.
Qed.

(** ** Numbers *)

(** Facts about binary64 comparison, read off the specification of the
    primitive operations. *)

Lemma SFcompare_refl x : x ≠ S754_nan → SFcompare x x = Some Eq.
Proof.
  destruct x as [s|s| |s m e]; intros Hx; simpl; try done.
  - by destruct s.
  - rewrite Z.compare_refl, Pos.compare_cont_refl. by destruct s.
Qed.

Lemma SFleb_trans x y z :
  SFleb x y = true → SFleb y z = true → SFleb x z = true.
Proof.
  unfold SFleb.
  destruct x as [s1|s1| |s1 m1 e1], y as [s2|s2| |s2 m2 e2],
           z as [s3|s3| |s3 m3 e3];
    simpl; try done;
    repeat match goal with s : bool |- _ => destruct s end; simpl; try done.
  all: fold (Pos.compare m1 m2); fold (Pos.compare m2 m3); fold (Pos.compare m1 m3).
  all: destruct (Z.compare_spec e1 e2), (Z.compare_spec e2 e3),
         (Z.compare_spec e1 e3); try done; try lia.
  all: destruct (Pos.compare_spec m1 m2), (Pos.compare_spec m2 m3),
         (Pos.compare_spec m1 m3); simpl; try done; try lia.
Qed.

Lemma SFleb_total x y :
  x ≠ S754_nan → y ≠ S754_nan → SFltb y x = false → SFleb x y = true.
Proof.
  unfold SFleb, SFltb.
  destruct x as [s1|s1| |s1 m1 e1], y as [s2|s2| |s2 m2 e2];
    simpl; try done;
    repeat match goal with s : bool |- _ => destruct s end; simpl; try done.
  all: fold (Pos.compare m1 m2); fold (Pos.compare m2 m1).
  all: rewrite (Z.compare_antisym e1 e2), (Pos.compare_antisym m1 m2).
  all: destruct (e1 ?= e2)%Z; simpl; try done;
       destruct (m1 ?= m2)%positive; simpl; done.
Qed.

Lemma isNumber_SF x : isNumber x ↔ Prim2SF x ≠ S754_nan.
Proof.
  unfold isNumber, is_nan. rewrite FloatAxioms.eqb_spec. unfold SFeqb. split.
  - intros Hx Hnan. rewrite Hnan in Hx. done.
  - intros Hx. by rewrite SFcompare_refl.
Qed.

Lemma leb_refl x : isNumber x → PrimFloat.leb x x = true.
Proof.
  intros Hx%isNumber_SF. rewrite FloatAxioms.leb_spec. unfold SFleb.
  by rewrite SFcompare_refl.
Qed.

Lemma leb_trans x y z :
  PrimFloat.leb x y = true → PrimFloat.leb y z = true → PrimFloat.leb x z = true.
Proof. rewrite !FloatAxioms.leb_spec. apply SFleb_trans. Qed.

Lemma ltb_leb x y : PrimFloat.ltb x y = true → PrimFloat.leb x y = true.
Proof.
  rewrite FloatAxioms.ltb_spec, FloatAxioms.leb_spec. unfold SFltb, SFleb.
  by destruct (SFcompare _ _) as [[]|].
Qed.

Lemma not_ltb_leb x y :
  isNumber x → isNumber y → PrimFloat.ltb y x = false → PrimFloat.leb x y = true.
Proof.
  intros Hx%isNumber_SF Hy%isNumber_SF. rewrite FloatAxioms.ltb_spec, FloatAxioms.leb_spec.
  by apply SFleb_total.
Qed.

Lemma is_zero_SF x : is_zero x = true → ∃ s, Prim2SF x = S754_zero s.
Proof.
  unfold is_zero. rewrite FloatAxioms.eqb_spec. change (Prim2SF zero) with (S754_zero false).
  unfold SFeqb. destruct (Prim2SF x) as [s|s| |s m e]; simpl; try done.
  - by exists s.
  - by destruct s.
  - by destruct s.
Qed.

Lemma zeros_leb x y : is_zero x = true → is_zero y = true → PrimFloat.leb x y = true.
Proof.
  intros [s Hx]%is_zero_SF [s' Hy]%is_zero_SF. by rewrite FloatAxioms.leb_spec, Hx, Hy.
Qed.

Lemma not_below_infinity x :
  isNumber x → PrimFloat.ltb x infinity = false → x = infinity.
Proof.
  intros Hx%isNumber_SF. rewrite FloatAxioms.ltb_spec. intros Hlt. apply Prim2SF_inj.
  change (Prim2SF infinity) with (S754_infinity false) in *.
  unfold SFltb in Hlt.
  destruct (Prim2SF x) as [s|s| |s m e]; simpl in *; try done; by destruct s.
Qed.

Lemma not_above_neg_infinity x :
  isNumber x → PrimFloat.ltb neg_infinity x = false → x = neg_infinity.
Proof.
  intros Hx%isNumber_SF. rewrite FloatAxioms.ltb_spec. intros Hlt. apply Prim2SF_inj.
  change (Prim2SF neg_infinity) with (S754_infinity true) in *.
  unfold SFltb in Hlt.
  destruct (Prim2SF x) as [s|s| |s m e]; simpl in *; try done; by destruct s.
Qed.

(** [x - 0] is [x], for every [x]. *)
Lemma sub_zero x : (x - 0)%float = x.
Proof.
  apply Prim2SF_inj. rewrite FloatAxioms.sub_spec.
  change (Prim2SF 0) with (S754_zero false).
  by destruct (Prim2SF x) as [[]|[]| |].
Qed.

(** [0 - x] and [-x] are the same number; they differ only in the sign
    of the zero they give for [x = 0]. *)
Lemma zero_sub_opp x : sameValueZero (0 - x) (- x) = true.
Proof.
  unfold sameValueZero, is_nan. rewrite !FloatAxioms.eqb_spec, FloatAxioms.sub_spec, FloatAxioms.opp_spec.
  change (Prim2SF 0) with (S754_zero false). unfold SFeqb.
  destruct (Prim2SF x) as [s|s| |s m e]; simpl; try done.
  all: rewrite ?Z.compare_refl, ?Pos.compare_cont_refl; by destruct s.
Qed.

(** ** The bounding box *)

Lemma Math_min_infinity x : isNumber x → Math_min infinity x = x.
Proof.
  intros Hx. unfold Math_min. rewrite Hx.
  change (is_nan infinity) with false. cbn [orb]. cbv zeta.
  change (PrimFloat.ltb infinity infinity) with false.
  change (isNegZero infinity) with false. cbn [orb andb].
  change (isPosZero infinity) with false. rewrite andb_false_r, orb_false_r.
  destruct (PrimFloat.ltb x infinity) eqn:Hlt; [done|].
  symmetry. by apply not_below_infinity.
Qed.

Lemma Math_max_neg_infinity x : isNumber x → Math_max neg_infinity x = x.
Proof.
  intros Hx. unfold Math_max. rewrite Hx.
  change (is_nan neg_infinity) with false. cbn [orb]. cbv zeta.
  change (PrimFloat.ltb neg_infinity neg_infinity) with false.
  change (isPosZero neg_infinity) with false. cbn [orb andb].
  change (isNegZero neg_infinity) with false. rewrite andb_false_r, orb_false_r.
  destruct (PrimFloat.ltb neg_infinity x) eqn:Hlt; [done|].
  symmetry. by apply not_above_neg_infinity.
Qed.

Lemma Math_min_spec a b : isNumber a → isNumber b →
  (Math_min a b = a ∨ Math_min a b = b)
  ∧ PrimFloat.leb (Math_min a b) a = true
  ∧ PrimFloat.leb (Math_min a b) b = true.
Proof.
  intros Ha Hb. pose proof (Math_min_infinity a Ha) as Hinf.
  unfold Math_min in *. rewrite Ha, Hb in *.
  change (is_nan infinity) with false in Hinf. cbn [orb] in *. cbv zeta in *.
  change (PrimFloat.ltb infinity infinity) with false in Hinf.
  change (isNegZero infinity) with false in Hinf. cbn [orb andb] in Hinf.
  rewrite Hinf.
  destruct (PrimFloat.ltb b a) eqn:Hlt; cbn [orb].
  - split; [by right|]. split; [by apply ltb_leb|by apply leb_refl].
  - destruct (isNegZero b && isPosZero a) eqn:Hzero.
    + apply andb_prop in Hzero as [[Hzb _]%andb_prop [Hza _]%andb_prop].
      split; [by right|]. split; [by apply zeros_leb|by apply leb_refl].
    + split; [by left|]. split; [by apply leb_refl|by apply not_ltb_leb].
Qed.

Lemma Math_max_spec a b : isNumber a → isNumber b →
  (Math_max a b = a ∨ Math_max a b = b)
  ∧ PrimFloat.leb a (Math_max a b) = true
  ∧ PrimFloat.leb b (Math_max a b) = true.
Proof.
  intros Ha Hb. pose proof (Math_max_neg_infinity a Ha) as Hinf.
  unfold Math_max in *. rewrite Ha, Hb in *.
  change (is_nan neg_infinity) with false in Hinf. cbn [orb] in *. cbv zeta in *.
  change (PrimFloat.ltb neg_infinity neg_infinity) with false in Hinf.
  change (isPosZero neg_infinity) with false in Hinf. cbn [orb andb] in Hinf.
  rewrite Hinf.
  destruct (PrimFloat.ltb a b) eqn:Hlt; cbn [orb].
  - split; [by right|]. split; [by apply ltb_leb|by apply leb_refl].
  - destruct (isPosZero b && isNegZero a) eqn:Hzero.
    + apply andb_prop in Hzero as [[Hzb _]%andb_prop [Hza _]%andb_prop].
      split; [by right|]. split; [by apply zeros_leb|by apply leb_refl].
    + split; [by left|]. split; [by apply leb_refl|by apply not_ltb_leb].
Qed.

Lemma fold_min_spec xs : ∀ acc, isNumber acc → Forall isNumber xs →
  let m := fold_left Math_min xs acc in
  isNumber m ∧ (m = acc ∨ m ∈ xs) ∧ PrimFloat.leb m acc = true
  ∧ ∀ x, x ∈ xs → PrimFloat.leb m x = true.
Proof.
  induction xs as [|x xs IH]; intros acc Hacc Hxs; simpl.
  - split; [done|]. split; [by left|]. split; [by apply leb_refl|].
    intros x Hx. by apply not_elem_of_nil in Hx.
  - apply Forall_cons in Hxs as [Hx Hxs].
    destruct (Math_min_spec acc x Hacc Hx) as (Hor & Hle1 & Hle2).
    assert (isNumber (Math_min acc x)) as Hnum by (by destruct Hor as [-> | ->]).
    destruct (IH _ Hnum Hxs) as (Hm & Hin & Hlem & Hall).
    split; [done|]. split; [|split].
    + destruct Hin as [-> | Hin]; [|right; by right].
      destruct Hor as [-> | ->]; [by left|right; by left].
    + by eapply leb_trans.
    + intros y [-> | Hy]%elem_of_cons; [by eapply leb_trans|by apply Hall].
Qed.

Lemma fold_max_spec xs : ∀ acc, isNumber acc → Forall isNumber xs →
  let m := fold_left Math_max xs acc in
  isNumber m ∧ (m = acc ∨ m ∈ xs) ∧ PrimFloat.leb acc m = true
  ∧ ∀ x, x ∈ xs → PrimFloat.leb x m = true.
Proof.
  induction xs as [|x xs IH]; intros acc Hacc Hxs; simpl.
  - split; [done|]. split; [by left|]. split; [by apply leb_refl|].
    intros x Hx. by apply not_elem_of_nil in Hx.
  - apply Forall_cons in Hxs as [Hx Hxs].
    destruct (Math_max_spec acc x Hacc Hx) as (Hor & Hle1 & Hle2).
    assert (isNumber (Math_max acc x)) as Hnum by (by destruct Hor as [-> | ->]).
    destruct (IH _ Hnum Hxs) as (Hm & Hin & Hlem & Hall).
    split; [done|]. split; [|split].
    + destruct Hin as [-> | Hin]; [|right; by right].
      destruct Hor as [-> | ->]; [by left|right; by left].
    + by eapply leb_trans.
    + intros y [-> | Hy]%elem_of_cons; [by eapply leb_trans|by apply Hall].
Qed.

Lemma fold_min_least proj pts :
  pts ≠ [] → Forall (fun v => isNumber (proj v)) pts →
  leastOf proj pts (fold_left Math_min (proj <$> pts) infinity).
Proof.
  intros Hne Hnum. destruct pts as [|p pts]; [done|].
  apply Forall_cons in Hnum as [Hp Hnum]. simpl.
  rewrite Math_min_infinity by done.
  destruct (fold_min_spec (proj <$> pts) (proj p) Hp) as (_ & Hin & Hle & Hall).
  { by apply Forall_fmap. }
  split.
  - intros v [-> | Hv]%elem_of_cons; [done|].
    apply Hall. by apply list_elem_of_fmap_2.
  - destruct Hin as [Heq | Hin].
    + exists p. split; [by left|done].
    + apply list_elem_of_fmap in Hin as (v & Hv & Hin).
      exists v. split; [by right|done].
Qed.

Lemma fold_max_greatest proj pts :
  pts ≠ [] → Forall (fun v => isNumber (proj v)) pts →
  greatestOf proj pts (fold_left Math_max (proj <$> pts) neg_infinity).
Proof.
  intros Hne Hnum. destruct pts as [|p pts]; [done|].
  apply Forall_cons in Hnum as [Hp Hnum]. simpl.
  rewrite Math_max_neg_infinity by done.
  destruct (fold_max_spec (proj <$> pts) (proj p) Hp) as (_ & Hin & Hle & Hall).
  { by apply Forall_fmap. }
  split.
  - intros v [-> | Hv]%elem_of_cons; [done|].
    apply Hall. by apply list_elem_of_fmap_2.
  - destruct Hin as [Heq | Hin].
    + exists p. split; [by left|done].
    + apply list_elem_of_fmap in Hin as (v & Hv & Hin).
      exists v. split; [by right|done].
Qed.

Lemma fold_growBox pts : ∀ box,
  fold_left growBox pts box =
    ({| vx := fold_left Math_min (vx <$> pts) (vx box.1);
        vy := fold_left Math_min (vy <$> pts) (vy box.1);
        vz := fold_left Math_min (vz <$> pts) (vz box.1) |},
     {| vx := fold_left Math_max (vx <$> pts) (vx box.2);
        vy := fold_left Math_max (vy <$> pts) (vy box.2);
        vz := fold_left Math_max (vz <$> pts) (vz box.2) |}).
Proof.
  induction pts as [|p pts IH]; intros box; simpl.
  - by destruct box as [[] []].
  - by rewrite IH.
Qed.

(** On a non-empty list of points without NaN, [boundingBox] is the
    axis-aligned bounding box: per axis, the least and the greatest
    coordinate. *)
Lemma boundingBox_spec pts :
  pts ≠ [] → Forall numberVector pts →
  let box := boundingBox pts in
  leastOf vx pts (vx box.1) ∧ greatestOf vx pts (vx box.2)
  ∧ leastOf vy pts (vy box.1) ∧ greatestOf vy pts (vy box.2)
  ∧ leastOf vz pts (vz box.1) ∧ greatestOf vz pts (vz box.2).
Proof.
  intros Hne Hnum. unfold boundingBox.
  rewrite bool_decide_true by (destruct pts; [done|simpl; lia]).
  rewrite fold_growBox. simpl.
  repeat split; try (apply fold_min_least; [done|]);
    try (apply fold_max_greatest; [done|]);
    (eapply Forall_impl; [exact Hnum|]); by intros v (? & ? & ?).
Qed.

(** ** The world-space vertices *)

Lemma gatheredVertices_eq node :
  gatheredVertices node =
    if String.eqb (o_type node) "Mesh"
    then toVector3 <$> (processTriangles (o_geometry node)).2.2
    else if isContainer (o_type node) then
      flat_map (fun child =>
                  (fun v => applyMatrix4 v (relMatrix child node))
                    <$> gatheredVertices child)
        (o_children node)
    else [].
Proof. destruct node; reflexivity. Qed.

Lemma gathers_find cs table id vs fuel :
  cs `prefix_of` table → wfTable table → gathers cs id vs →
  (length cs ≤ fuel)%nat →
  ∃ c, findComponent table id = Some c ∧ getVerts fuel table c = Normal vs.
Proof.
  intros Hpre Hwf (i & c & Hi & -> & Hvs) Hfuel. exists c.
  pose proof (lookup_lt_Some _ _ _ Hi) as Hlt. split.
  - apply findComponent_wf; [done|].
    destruct Hpre as [rest ->]. by apply lookup_app_l_Some.
  - rewrite (getVerts_stable cs table Hpre Hwf (S i) fuel i c Hi); [done|lia..].
Qed.

(** What [getVerts] gathers from the component made for a node is what
    the scene says: the vertices gathered for the node. *)
Lemma processNode_gathers node : ∀ st,
  wfTable (components st) →
  ((processNode node st).1 = (-1)%Z ∧ (processNode node st).2 = st
   ∧ gatheredVertices node = [])
  ∨ gathers (components (processNode node st).2) (processNode node st).1
      (gatheredVertices node).
Proof.
  induction node as [t n m mw geo mat cs IH] using Object3D_nested_ind.
  intros st Hwf.
  pose proof (processNode_spec (mkObject3D t n m mw geo mat cs) st) as Hspec.
  rewrite gatheredVertices_eq. rewrite processNode_eq in *. simpl in *.
  destruct (String.eqb t "Mesh").
  - right.
    destruct (processMesh (mkObject3D t n m mw geo mat cs) st) as [id st'] eqn:Hrun.
    apply processMesh_spec in Hrun
      as (-> & (c & Hc & _ & Htype & Hverts & _) & _).
    simpl in *. exists (length (components st)), c.
    split; [by rewrite Hc, lookup_app_r, Nat.sub_diag|]. split; [done|].
    simpl. by rewrite Htype, Hverts.
  - destruct (isContainer t); [|by left].
    set (node := mkObject3D t n m mw geo mat cs) in *.
    set (G := fun child : Object3D =>
                (fun v => applyMatrix4 v (relMatrix child node))
                  <$> gatheredVertices child).
    set (F := fun (table : list ComponentInfo) (fuel : nat) (sc : SubComponent) =>
                match findComponent table (sc_objectId sc) with
                | None => Throw
                | Some subComp =>
                    map (fun v => applyMatrix4 v (sc_transform sc))
                      <$> getVerts fuel table subComp
                end).
    assert (∀ children, Forall (fun child => ∀ st0, wfTable (components st0) →
                ((processNode child st0).1 = (-1)%Z ∧ (processNode child st0).2 = st0
                 ∧ gatheredVertices child = [])
                ∨ gathers (components (processNode child st0).2)
                    (processNode child st0).1 (gatheredVertices child)) children →
              ∀ acc done,
                wfTable (components acc.2) →
                (∀ table fuel, components acc.2 `prefix_of` table → wfTable table →
                   (length (components acc.2) ≤ fuel)%nat →
                   flatMapC (F table fuel) acc.1 = Normal (flat_map G done)) →
                let acc' := processChildren node children acc in
                wfTable (components acc'.2)
                ∧ ∀ table fuel, components acc'.2 `prefix_of` table → wfTable table →
                    (length (components acc'.2) ≤ fuel)%nat →
                    flatMapC (F table fuel) acc'.1
                      = Normal (flat_map G (done ++ children))) as Hloop.
    { clear. induction 1 as [|child rest Hchild _ IHrest];
        intros acc done Hwf Hinv; cbv zeta.
      - rewrite app_nil_r. by split.
      - rewrite processChildren_cons.
        replace (done ++ child :: rest) with ((done ++ [child]) ++ rest)
          by (by rewrite <- app_assoc).
        destruct (processNode child acc.2) as [subId st1] eqn:Hrun.
        destruct (processNode_spec child _ _ _ Hrun) as ([Hpre _] & _ & _ & Hwf1).
        specialize (Hwf1 Hwf). specialize (Hchild acc.2 Hwf).
        rewrite Hrun in Hchild. simpl in Hchild. simpl.
        apply IHrest; simpl; [done|].
        intros table fuel Hpre' Hwf' Hfuel.
        assert (flatMapC (F table fuel) acc.1 = Normal (flat_map G done)) as Hold.
        { apply Hinv; [by etrans|done|]. apply prefix_length in Hpre. lia. }
        rewrite flat_map_app. simpl. rewrite app_nil_r.
        destruct Hchild as [(-> & _ & Hnone)|Hg].
        + unfold pushSub, G at 2. simpl. by rewrite Hnone, app_nil_r.
        + pose proof Hg as (i & c & _ & Hid & _).
          unfold pushSub. destruct (Z.eqb_spec subId (-1)) as [|_]; [lia|].
          apply flatMapC_snoc; [done|].
          destruct (gathers_find _ table subId _ fuel Hpre' Hwf' Hg Hfuel)
            as (c' & Hfind & Hverts).
          unfold F. simpl. by rewrite Hfind, Hverts. }
    destruct (Hloop cs IH ([], st) [] Hwf) as [Hwf1 Hinv]; [done|].
    simpl in Hinv.
    destruct (processChildren node cs ([], st)) as [subs st1] eqn:Hch.
    simpl in Hwf1, Hinv.
    destruct (closeAssembly node subs st1) as [id st'] eqn:Hclose.
    destruct (Hspec id st' eq_refl) as (_ & _ & Hret & Hwf').
    specialize (Hwf' Hwf). simpl.
    unfold closeAssembly in Hclose. destruct subs as [|sc subs].
    + simpl in Hclose. injection Hclose as <- <-. left.
      destruct Hret as [[_ Hst]|[Hid _]]; [|lia].
      split; [done|]. split; [done|].
      specialize (Hinv (components st1) (length (components st1))
                    (reflexivity _) Hwf1 (le_n _)).
      by injection Hinv as <-.
    + rewrite bool_decide_true in Hclose by (simpl; lia).
      destruct (generateUUID (rng st1)) as [uuid rng'].
      injection Hclose as <- <-. right. simpl in *.
      eexists (length (components st1)), _.
      split; [by rewrite lookup_app_r, Nat.sub_diag|]. split; [done|].
      simpl. apply (Hinv _ (length (components st1))); [|done|done].
      by apply prefix_app_r.
Qed.

(** One turn of [rootChildren.forEach] adds the vertices gathered for
    the child, moved by the child's local matrix. *)
Lemma exportChild_world child st st' :
  wfState st → exportChild child st = Normal st' →
  allVerticesWorld st' =
    allVerticesWorld st
      ++ ((fun v => applyMatrix4 v (o_matrix child)) <$> gatheredVertices child).
Proof.
  intros (Hwf & _) Hrun. unfold exportChild in Hrun.
  pose proof (processNode_gathers child st Hwf) as Hg.
  destruct (processNode child st) as [childId st1] eqn:Hnode.
  destruct (processNode_spec child _ _ _ Hnode) as (_ & [_ Hv] & _ & Hwf1).
  specialize (Hwf1 Hwf). simpl in Hg.
  destruct Hg as [(-> & -> & Hnone)|Hg].
  - simpl in Hrun. injection Hrun as <-. by rewrite Hnone, app_nil_r.
  - pose proof Hg as (i & c & _ & Hid & _).
    destruct (Z.eqb_spec childId (-1)) as [|_]; [lia|].
    destruct (gathers_find _ _ _ _ (length (components st1))
                (reflexivity _) Hwf1 Hg (le_n _))
      as (c' & Hfind & Hverts).
    rewrite Hfind, Hverts in Hrun. simpl in Hrun.
    destruct (generateUUID (rng st1)) as [uuid rng'].
    injection Hrun as <-. simpl. by rewrite Hv.
Qed.

Lemma forEachRootChild_world children : ∀ st st',
  wfState st → forEachRootChild children st = Normal st' →
  allVerticesWorld st' =
    allVerticesWorld st
      ++ flat_map (fun child =>
                     (fun v => applyMatrix4 v (o_matrix child))
                       <$> gatheredVertices child) children.
Proof.
  induction children as [|child rest IH]; intros st st' Hst Hrun; simpl in Hrun.
  - injection Hrun as <-. simpl. by rewrite app_nil_r.
  - destruct (exportChild_spec child st Hst) as (st1 & Hstep & Hst1 & _).
    rewrite Hstep in Hrun. simpl in Hrun.
    rewrite (IH _ _ Hst1 Hrun), (exportChild_world child st st1 Hst Hstep).
    simpl. by rewrite <- app_assoc.
Qed.

Lemma traverse_world object st :
  traverse object = Normal st → allVerticesWorld st = worldVertices object.
Proof.
  intros Hrun.
  by rewrite (forEachRootChild_world _ _ _ wfState_initial Hrun).
Qed.

(** ** Centring *)

Lemma emitDocuments_inv printConfig st docs st' :
  emitDocuments printConfig st = Normal (docs, st') →
  st' = st
  ∧ createMainModelXML (components st) (buildItems st)
      (centeringShift printConfig (allVerticesWorld st)) printConfig
    = Normal (mainModelXml docs)
  ∧ createModelSettingsXML (components st) (buildItems st)
    = Normal (modelSettingsXml docs)
  ∧ projectSettingsConfig docs = createProjectSettingsConfig (materials st) printConfig.
Proof.
  rewrite emitDocuments_pure.
  destruct (createMainModelXML _ _ _ _) as [main| |]; [|done..]. simpl.
  destruct (createModelSettingsXML _ _) as [settings| |]; [|done..]. simpl.
  by intros [= <- <-].
Qed.

(** C5: the centring translation of an export.  The points it is computed
    from are the world-space vertices of all build items, in build order:
    they are what the scene says, the vertices of every mesh below a root
    child carried up through the relative transforms of the containers
    and moved by the root child's local matrix, and they are what
    [getVerts] gathers from the table.  The translation's x and y are the
    bed centre minus the centre of the bounding box, its z is
    [0 - min.z], which is the number [-min.z].  On points without NaN the
    box is, per axis, the least and the greatest coordinate of the
    points.  Without any point the box is the origin and the translation
    is (printableWidth / 2, printableDepth / 2, 0).  This is the
    translation handed to the main-model emitter. *)
Theorem centering_translation (object : Object3D)
    (printJobConfig : option PartialPrintConfig) :
  let printConfig := mergePrintConfig printJobConfig in
  ∃ st, traverse object = Normal st
    ∧ allVerticesWorld st = worldVertices object
    ∧ sceneWorldVertices (components st) (buildItems st)
        = Normal (worldVertices object)
    ∧ let pts := worldVertices object in
      let box := boundingBox pts in
      let shift := centeringShift printConfig pts in
      vx shift = (printableWidth printConfig / 2 - (vx box.1 + vx box.2) / 2)%float
      ∧ vy shift = (printableDepth printConfig / 2 - (vy box.1 + vy box.2) / 2)%float
      ∧ vz shift = (0 - vz box.1)%float
      ∧ sameValueZero (vz shift) (- vz box.1) = true
      ∧ (pts ≠ [] → Forall numberVector pts →
         leastOf vx pts (vx box.1) ∧ greatestOf vx pts (vx box.2)
         ∧ leastOf vy pts (vy box.1) ∧ greatestOf vy pts (vy box.2)
         ∧ leastOf vz pts (vz box.1) ∧ greatestOf vz pts (vz box.2))
      ∧ (pts = [] →
         box = ({| vx := 0; vy := 0; vz := 0 |}, {| vx := 0; vy := 0; vz := 0 |})
         ∧ shift = {| vx := printableWidth printConfig / 2;
                      vy := printableDepth printConfig / 2;
                      vz := 0 |})
      ∧ (∀ docs st', emitDocuments printConfig st = Normal (docs, st') →
           createMainModelXML (components st) (buildItems st) shift printConfig
             = Normal (mainModelXml docs)).
Proof.
  intros printConfig.
  destruct (traverse_spec object) as (st & Hrun & _ & _ & Hworld).
  pose proof (traverse_world object st Hrun) as Hscene.
  exists st. split; [done|]. split; [done|]. rewrite <- Hscene.
  split; [done|]. cbv zeta.
  split; [done|]. split; [done|]. split; [done|].
  split; [apply zero_sub_opp|]. split; [apply boundingBox_spec|]. split.
  - intros Hpts. rewrite Hpts. split; [done|].
    unfold centeringShift, boundingBox, modelCenter, bedCenter. simpl.
    change ((0 + 0) / 2)%float with 0%float.
    change (0 - 0)%float with 0%float. by rewrite !sub_zero.
  - intros docs st' Hemit. by apply emitDocuments_inv in Hemit as (_ & ? & _).
Qed.

(** ** Emission *)

Lemma append_nil_r (s : string) : s +:+ EmptyString = s.
Proof.
  induction s as [|c s IH]; [done|].
  change (String c s +:+ EmptyString) with (String c (s +:+ EmptyString)).
  by rewrite IH.
Qed.

Lemma append_assoc (s1 s2 s3 : string) : (s1 +:+ s2) +:+ s3 = s1 +:+ s2 +:+ s3.
Proof.
  induction s1 as [|c s1 IH]; [done|].
  change ((String c s1 +:+ s2) +:+ s3) with (String c ((s1 +:+ s2) +:+ s3)).
  by rewrite IH.
Qed.

Lemma cat_cons piece pieces : cat (piece :: pieces) = piece +:+ cat pieces.
Proof.
  unfold cat. simpl. destruct pieces; [by rewrite append_nil_r|done].
Qed.

Lemma mapC_normal_inv {A B} (f : A → Completion B) (l : list A) bs :
  mapC f l = Normal bs → ∀ a, a ∈ l → ∃ b, f a = Normal b.
Proof.
  revert bs. induction l as [|x l IH]; intros bs Hl a Ha; [by apply not_elem_of_nil in Ha|].
  simpl in Hl. destruct (f x) as [y| |] eqn:Hx; [|done..]. simpl in Hl.
  destruct (mapC f l) as [ys| |] eqn:Hys; [|done..].
  apply elem_of_cons in Ha as [->|Ha]; [by eexists|]. by eapply IH.
Qed.

Lemma definedGeometry_of_emission cs items shift printConfig text :
  wfTable cs →
  createMainModelXML cs items shift printConfig = Normal text →
  definedGeometry cs.
Proof.
  intros Hwf Hmain c v Hc Hv. unfold createMainModelXML in Hmain.
  destruct (mapC resourceXML cs) as [rs| |] eqn:Hrs; [|done..].
  destruct (mapC_normal_inv _ _ _ Hrs c Hc) as [text' Hres].
  apply list_elem_of_lookup in Hc as [i Hi].
  destruct (Hwf i c Hi) as (_ & _ & _ & Hkind).
  unfold resourceXML in Hres. destruct (c_type c).
  - destruct (mapC vertexXML (vertices c)) as [vs| |] eqn:Hvs; [|done..].
    destruct (mapC_normal_inv _ _ _ Hvs v Hv) as [line Hline].
    unfold vertexXML, toFixedC in Hline.
    unfold definedVertex.
    destruct (vert_x v); [|done]. destruct (vert_y v); [|done].
    destruct (vert_z v); [|done]. repeat split; by eexists.
  - destruct Hkind as (_ & Hnone & _). rewrite Hnone in Hv.
    by apply not_elem_of_nil in Hv.
Qed.

Lemma resourceXML_normal c :
  (∀ v, v ∈ vertices c → definedVertex v) → ∃ text, resourceXML c = Normal text.
Proof.
  intros Hdef. unfold resourceXML. destruct (c_type c); [|by eexists].
  destruct (mapC_normal vertexXML (vertices c)) as [vs ->]; [|by eexists].
  intros v Hv. destruct (Hdef v Hv) as ([x Hx] & [y Hy] & [z Hz]).
  unfold vertexXML. rewrite Hx, Hy, Hz. by eexists.
Qed.

Lemma createMainModelXML_normal cs items shift printConfig :
  definedGeometry cs →
  ∃ text, createMainModelXML cs items shift printConfig = Normal text.
Proof.
  intros Hdef. unfold createMainModelXML.
  destruct (mapC_normal resourceXML cs) as [rs ->]; [|by eexists].
  intros c Hc. apply resourceXML_normal. intros v Hv. by eapply Hdef.
Qed.

Lemma settingsLoop_normal cs items : wfTable cs → itemsBounded cs items →
  ∀ index acc, ∃ acc', settingsLoop cs items index acc = Normal acc'.
Proof.
  intros Hwf. induction 1 as [|item items Hitem _ IH]; intros index acc; simpl.
  - by eexists.
  - unfold settingsStep. destruct acc as [[objectsXml instancesXml] assembleXml].
    destruct (findComponent_in_range cs (objectId item) Hwf Hitem) as (c & -> & Hc).
    destruct (collect_normal cs Hwf (length cs) _ c Hc) as [parts ->].
    { by eapply lookup_lt_Some. }
    simpl. apply IH.
Qed.

Lemma createModelSettingsXML_normal cs items :
  wfTable cs → itemsBounded cs items →
  ∃ text, createModelSettingsXML cs items = Normal text.
Proof.
  intros Hwf Hitems. unfold createModelSettingsXML.
  destruct (settingsLoop_normal cs items Hwf Hitems 0
              (EmptyString, EmptyString, EmptyString)) as [[[o i] a] ->].
  by eexists.
Qed.

(** The emitters end normally on the tables of a traversal whose stored
    vertices are all defined. *)
Lemma emitDocuments_normal printConfig st :
  wfState st → definedGeometry (components st) →
  ∃ docs, emitDocuments printConfig st = Normal (docs, st).
Proof.
  intros (Hwf & Hitems & _) Hdef. rewrite emitDocuments_pure.
  destruct (createMainModelXML_normal (components st) (buildItems st)
    (centeringShift printConfig (allVerticesWorld st)) printConfig Hdef) as [main ->].
  destruct (createModelSettingsXML_normal _ _ Hwf Hitems) as [settings ->].
  by eexists.
Qed.

Lemma exportRun_normal object printJobConfig st :
  traverse object = Normal st → definedGeometry (components st) →
  ∃ blob, exportRun object printJobConfig = Normal (blob, st).
Proof.
  intros Hrun Hdef. destruct (traverse_spec object) as (st0 & Hrun0 & Hst).
  assert (st0 = st) as -> by congruence.
  unfold exportRun. rewrite Hrun. simpl.
  destruct (emitDocuments_normal (mergePrintConfig printJobConfig) st Hst Hdef)
    as [docs ->].
  by eexists.
Qed.



Lemma zip_file_fresh name data zip :
  name ∉ zip.*1 → zip_file name data zip = zip ++ [(name, data)].
Proof.
  induction zip as [|entry zip IH]; intros Hfresh; simpl; [done|].
  rewrite fmap_cons, not_elem_of_cons in Hfresh. destruct Hfresh as [Hne Hfresh].
  destruct (String.eqb_spec entry.1 name) as [Heq|_]; [done|].
  by rewrite IH.
Qed.

(** The names of the archive's entries, in the order written. *)
Lemma packageFiles_names docs :
  (packageFiles docs).*1 =
    ["_rels/.rels"; "3D/3dmodel.model"; "Metadata/model_settings.config";
     "Metadata/project_settings.config"; "[Content_Types].xml"].
Proof. reflexivity. Qed.

Lemma exportRun_inv object printJobConfig blob st :
  exportRun object printJobConfig = Normal (blob, st) →
  traverse object = Normal st
  ∧ ∃ docs, emitDocuments (mergePrintConfig printJobConfig) st = Normal (docs, st)
      ∧ blob = {| files := packageFiles docs;
                  mimeType := "application/vnd.ms-package.3dmanufacturing-3dmodel+xml";
                  blobCompression :=
                    JSZipCompressionMap (compression (mergePrintConfig printJobConfig)) |}.
Proof.
  intros Hrun. pose proof (exportRun_state _ _ _ _ Hrun) as Htrav.
  split; [done|]. unfold exportRun in Hrun. rewrite Htrav in Hrun. simpl in Hrun.
  destruct (emitDocuments _ st) as [[docs st']| |] eqn:Hemit; [|done..].
  simpl in Hrun. injection Hrun as <- <-.
  by exists docs.
Qed.

(** Every build item carries the local matrix of the root child it was
    made for. *)
Lemma forEachRootChild_items children : ∀ st st',
  wfState st → forEachRootChild children st = Normal st' →
  ∃ new, buildItems st' = buildItems st ++ new
    ∧ Forall (fun item => ∃ child, child ∈ children
                            ∧ transformMatrix item = o_matrix child) new.
Proof.
  induction children as [|child rest IH]; intros st st' Hst Hrun; simpl in Hrun.
  - injection Hrun as <-. exists []. by rewrite app_nil_r.
  - destruct (exportChild_spec child st Hst) as (st1 & Hstep & Hst1 & _ & _ & _ & Hitems).
    rewrite Hstep in Hrun. simpl in Hrun.
    destruct (IH _ _ Hst1 Hrun) as (new & Hnew & Hall).
    assert (Forall (fun item => ∃ c, c ∈ child :: rest
                                 ∧ transformMatrix item = o_matrix c) new) as Hall'.
    { eapply Forall_impl; [exact Hall|]. intros item (c & Hc & Hm).
      exists c. split; [by right|done]. }
    destruct ((processNode child st).1 =? -1)%Z.
    + subst st1. by exists new.
    + destruct Hitems as [uuid Hitems]. rewrite Hitems, <- app_assoc in Hnew.
      eexists. split; [exact Hnew|]. constructor; [|done].
      exists child. split; [by left|done].
Qed.

Lemma itemXML_line shift item : itemXML shift item = shiftedItemLine shift item.
Proof.
  unfold itemXML, shiftedItemLine, quoted, numbersText, transformString, attr, cat, dq.
  cbn [String.concat fmap list_fmap].
  rewrite ?append_assoc, ?append_nil_r. cbv [String.append]. reflexivity.
Qed.

Lemma componentRefXML_line sc : componentRefXML sc = componentLine sc.
Proof.
  unfold componentRefXML, componentLine, quoted, numbersText, transformString,
    attr, cat, dq.
  cbn [String.concat fmap list_fmap].
  rewrite ?append_assoc, ?append_nil_r. cbv [String.append]. reflexivity.
Qed.

Lemma vertexXML_line x y z :
  vertexXML {| vert_x := Some x; vert_y := Some y; vert_z := Some z |}
  = Normal (vertexLine x y z).
Proof.
  unfold vertexXML, vertexLine, quoted, toFixedC, attr, cat, dq. simpl.
  rewrite ?append_assoc, ?append_nil_r. cbv [String.append]. reflexivity.
Qed.

Lemma liftE_inv {A} (c : Completion A) s a s' :
  liftE c s = Normal (a, s') → c = Normal a ∧ s' = s.
Proof. unfold liftE. destruct c; simpl; [|done..]. by intros [= -> ->]. Qed.

(** C6: the centring translation enters the output in one place only,
    and emission changes nothing.  Each emitter, run as a program over
    the tables, leaves every state as it found it, and so the three
    together leave the component table, the material list and the
    build-item list of the export as the traversal built them.  In the
    main model document of a completed export each build item is written
    with the nine numbers of its stored matrix and with its translation
    components 12, 13 and 14 plus the centring translation, added once;
    each sub-component is written with the twelve numbers of its stored
    transform and each vertex with its stored coordinates, nothing
    added.  The translation is that of the world vertices of the scene,
    and the matrix stored in a build item is the local matrix of its
    root child. *)
Theorem centering_applied_at_emission (object : Object3D)
    (printJobConfig : option PartialPrintConfig) (blob : Blob) (st : ExportState) :
  exportRun object printJobConfig = Normal (blob, st) →
  let printConfig := mergePrintConfig printJobConfig in
  let shift := centeringShift printConfig (worldVertices object) in
  traverse object = Normal st
  ∧ (∀ anyShift s text s',
       runCreateMainModelXML anyShift printConfig s = Normal (text, s') → s' = s)
  ∧ (∀ s text s', runCreateModelSettingsXML s = Normal (text, s') → s' = s)
  ∧ (∀ s text s',
       runCreateProjectSettingsConfig printConfig s = Normal (text, s') → s' = s)
  ∧ (∀ docs st', emitDocuments printConfig st = Normal (docs, st') →
       st' = st
       ∧ components st' = components st ∧ materials st' = materials st
       ∧ buildItems st' = buildItems st)
  ∧ (∃ rs settings,
       mapC resourceXML (components st) = Normal rs
       ∧ files blob =
           [("_rels/.rels", relationshipsXML);
            ("3D/3dmodel.model",
             modelDocument (metadataLines printConfig) (String.concat nl rs)
               (String.concat nl (shiftedItemLine shift <$> buildItems st)));
            ("Metadata/model_settings.config", settings);
            ("Metadata/project_settings.config",
             createProjectSettingsConfig (materials st) printConfig);
            ("[Content_Types].xml", contentTypesXML)])
  ∧ (∀ item, itemXML shift item = shiftedItemLine shift item)
  ∧ (∀ sc, componentRefXML sc = componentLine sc)
  ∧ (∀ c v, c ∈ components st → v ∈ vertices c →
       ∃ x y z, v = {| vert_x := Some x; vert_y := Some y; vert_z := Some z |}
         ∧ vertexXML v = Normal (vertexLine x y z))
  ∧ Forall (fun item => ∃ child, child ∈ rootChildren object
                          ∧ transformMatrix item = o_matrix child) (buildItems st).
Proof.
  intros Hrun printConfig shift.
  destruct (exportRun_inv _ _ _ _ Hrun) as (Htrav & docs & Hemit & ->).
  pose proof (traverse_world object st Htrav) as Hscene.
  destruct (traverse_spec object) as (st0 & Htrav0 & Hwf & _).
  assert (st0 = st) as -> by congruence.
  split; [done|]. split; [|split; [|split; [|split; [|split]]]].
  - intros anyShift s text s'. rewrite runCreateMainModelXML_pure.
    by intros [_ ->]%liftE_inv.
  - intros s text s'. rewrite runCreateModelSettingsXML_pure.
    by intros [_ ->]%liftE_inv.
  - intros s text s'. rewrite runCreateProjectSettingsConfig_pure.
    by intros [= _ ->].
  - intros docs' st' Hemit'. by apply emitDocuments_inv in Hemit' as (-> & _).
  - apply emitDocuments_inv in Hemit as (_ & Hmain & Hsettings & Hproject).
    unfold createMainModelXML in Hmain.
    destruct (mapC resourceXML (components st)) as [rs| |]; [|done..].
    simpl in Hmain. injection Hmain as Hmain.
    exists rs, (modelSettingsXml docs). split; [done|].
    simpl. unfold packageFiles. simpl. rewrite <- Hmain, Hproject.
    subst shift. rewrite <- Hscene.
    by rewrite (list_fmap_ext (shiftedItemLine _) (itemXML _) (buildItems st))
      by (intros; symmetry; apply itemXML_line).
  - split; [intros item; apply itemXML_line|].
    split; [apply componentRefXML_line|]. split.
    + intros c v Hc Hv.
      apply emitDocuments_inv in Hemit as (_ & Hmain & _).
      destruct (definedGeometry_of_emission _ _ _ _ _ Hwf Hmain c v Hc Hv)
        as ([x Hx] & [y Hy] & [z Hz]).
      exists x, y, z. destruct v as [vx0 vy0 vz0]. simpl in *. subst.
      split; [done|apply vertexXML_line].
    + destruct (forEachRootChild_items _ _ _ wfState_initial Htrav)
        as (new & Hnew & Hall).
      simpl in Hnew. by rewrite Hnew.
Qed.

(** ** Project settings *)

Lemma padColors_two colors :
  padColors 2 colors = colors ++ replicate (2 - length colors) "#FFFFFF".
Proof.
  destruct colors as [|a [|a' colors]]; simpl; try done. by rewrite app_nil_r.
Qed.

(** C7, as the code has it: what is padded is the list of colours taken
    from the material list, not the material list.  The colour list is
    the materials' colours in order followed by as many [#FFFFFF] as are
    missing to reach two, so it has at least two entries; the document
    lists exactly these colours and gives every per-extruder filament
    array one slot per colour.  The material list is the same before and
    after emission. *)
Theorem filament_colours_padded (ms : list MaterialInfo) (printConfig : PrintConfig) :
  let colors := filamentColours ms in
  let fields := projectSettings ms printConfig in
  colors = ((fun m => "#" +:+ getHexString (m_color m)) <$> ms)
             ++ replicate (2 - length ms) "#FFFFFF"
  ∧ (2 ≤ length colors)%nat
  ∧ length colors = Nat.max 2 (length ms)
  ∧ jsonField "filament_colour" fields = Some (JArray (JString <$> colors))
  ∧ jsonField "filament_settings_id" fields
      = Some (JArray (replicate (length colors) (JString (filament printConfig))))
  ∧ jsonField "filament_diameter" fields
      = Some (JArray (replicate (length colors) (JString "1.75")))
  ∧ jsonField "filament_is_support" fields
      = Some (JArray (replicate (length colors) (JString "0")))
  ∧ createProjectSettingsConfig ms printConfig = JSON_stringify (JObject fields)
  ∧ (∀ st docs st', materials st = ms →
       emitDocuments printConfig st = Normal (docs, st') →
       materials st' = ms
       ∧ projectSettingsConfig docs = createProjectSettingsConfig ms printConfig).
Proof.
  intros colors fields.
  assert (colors = ((fun m => "#" +:+ getHexString (m_color m)) <$> ms)
                     ++ replicate (2 - length ms) "#FFFFFF") as Hcolors.
  { subst colors. unfold filamentColours. by rewrite padColors_two, length_map. }
  assert (length colors = Nat.max 2 (length ms)) as Hlen.
  { rewrite Hcolors, length_app, length_fmap, length_replicate. lia. }
  split; [done|]. split; [lia|]. split; [done|].
  assert (∀ st docs st', materials st = ms →
            emitDocuments printConfig st = Normal (docs, st') →
            materials st' = ms
            ∧ projectSettingsConfig docs = createProjectSettingsConfig ms printConfig)
    as Hframe.
  { intros st docs st' Hms Hemit.
    apply emitDocuments_inv in Hemit as (-> & _ & _ & ->). by rewrite Hms. }
  assert (createProjectSettingsConfig ms printConfig
          = JSON_stringify (JObject fields)) as Hjson by done.
  clear Hcolors Hlen. revert Hjson Hframe. generalize (createProjectSettingsConfig ms printConfig).
  subst fields. unfold projectSettings. fold colors.
  destruct (printableArea printConfig) as [[[a1 a2] a3] a4].
  intros text Hjson Hframe. by repeat (split; [reflexivity|]).
Qed.

(** ** Skipped nodes *)

(** C8: a node of an unrecognized type, and a container whose composed
    sub-component list is empty, make [processNode] return -1 and leave
    the state as it was, so the node adds no component; the top-level
    loop then adds no build item for it and goes on as if the node were
    not there.  Nothing is thrown: when such a node is the root, the
    export completes with a package of the five entries, and whatever
    nodes were skipped, an export completes as soon as no stored vertex
    has an undefined coordinate. *)
Theorem skipped_nodes (node : Object3D) (st : ExportState) :
  (String.eqb (o_type node) "Mesh" = false → isContainer (o_type node) = false →
   processNode node st = ((-1)%Z, st))
  ∧ (String.eqb (o_type node) "Mesh" = false → isContainer (o_type node) = true →
     (processChildren node (o_children node) ([], st)).1 = [] →
     processNode node st = ((-1)%Z, st))
  ∧ ((processNode node st).1 = (-1)%Z →
     processNode node st = ((-1)%Z, st)
     ∧ exportChild node st = Normal st
     ∧ ∀ rest, forEachRootChild (node :: rest) st = forEachRootChild rest st)
  ∧ ((processNode node initialState).1 = (-1)%Z →
     String.eqb (o_type node) "Scene" = false →
     traverse node = Normal initialState
     ∧ ∀ printJobConfig, ∃ blob,
         exportTo3MF node printJobConfig = Normal blob
         ∧ (files blob).*1 =
             ["_rels/.rels"; "3D/3dmodel.model"; "Metadata/model_settings.config";
              "Metadata/project_settings.config"; "[Content_Types].xml"])
  ∧ (∀ object printJobConfig st',
       traverse object = Normal st' → definedGeometry (components st') →
       ∃ blob, exportTo3MF object printJobConfig = Normal blob).
Proof.
  assert (∀ st0, (processNode node st0).1 = (-1)%Z →
            processNode node st0 = ((-1)%Z, st0)
            ∧ exportChild node st0 = Normal st0) as Hskip.
  { intros st0 Hid. destruct (processNode node st0) as [id st'] eqn:Hrun.
    simpl in Hid. subst id.
    destruct (processNode_spec node _ _ _ Hrun) as (_ & _ & Hret & _).
    destruct Hret as [[_ ->]|[Hid _]]; [|lia].
    split; [done|]. unfold exportChild. by rewrite Hrun. }
  split; [|split; [|split; [|split]]].
  - intros Hmesh Hcont. rewrite processNode_eq. by rewrite Hmesh, Hcont.
  - intros Hmesh Hcont Hsubs.
    apply Hskip. rewrite processNode_eq, Hmesh, Hcont.
    destruct (processChildren node (o_children node) ([], st)) as [subs st'].
    simpl in Hsubs. by subst subs.
  - intros Hid. destruct (Hskip st Hid) as [Hnode Hchild].
    split; [done|]. split; [done|]. intros rest. simpl. by rewrite Hchild.
  - intros Hid Hscene. destruct (Hskip initialState Hid) as [_ Hchild].
    assert (traverse node = Normal initialState) as Htrav.
    { unfold traverse, rootChildren. rewrite Hscene. simpl. by rewrite Hchild. }
    split; [done|]. intros printJobConfig.
    destruct (exportRun_normal node printJobConfig initialState Htrav) as [blob Hrun].
    { intros c v Hc. by apply not_elem_of_nil in Hc. }
    exists blob. unfold exportTo3MF. rewrite Hrun. split; [done|].
    apply exportRun_inv in Hrun as (_ & docs & _ & ->). apply packageFiles_names.
  - intros object printJobConfig st' Htrav Hdef.
    destruct (exportRun_normal object printJobConfig st' Htrav Hdef) as [blob Hrun].
    exists blob. unfold exportTo3MF. by rewrite Hrun.
Qed.

(** ** The archive *)

(** C9: in the package of every completed export the entries were
    written in this order: the relationships, the main model, the model
    settings, the project settings and, last, the content types.  So the
    content-types entry is the last one and not the first. *)
Theorem content_types_written_last (object : Object3D)
    (printJobConfig : option PartialPrintConfig) (blob : Blob) :
  exportTo3MF object printJobConfig = Normal blob →
  (files blob).*1 =
    ["_rels/.rels"; "3D/3dmodel.model"; "Metadata/model_settings.config";
     "Metadata/project_settings.config"; "[Content_Types].xml"]
  ∧ last (files blob).*1 = Some "[Content_Types].xml"
  ∧ head (files blob).*1 ≠ Some "[Content_Types].xml"
  ∧ (∃ earlier content, files blob = earlier ++ [("[Content_Types].xml", content)]
       ∧ earlier.*1 = ["_rels/.rels"; "3D/3dmodel.model";
                       "Metadata/model_settings.config";
                       "Metadata/project_settings.config"]).
Proof.
  unfold exportTo3MF. intros Hexp.
  destruct (exportRun object printJobConfig) as [[blob' st]| |] eqn:Hrun; [|done..].
  simpl in Hexp. injection Hexp as ->.
  apply exportRun_inv in Hrun as (_ & docs & _ & ->). cbn [files].
  rewrite packageFiles_names.
  split; [done|]. split; [done|]. split; [done|].
  eexists [_; _; _; _], _. split; reflexivity.
Qed.

End Properties.

(** * Further properties of the exporter *)

Section Identifiers.
Context `{Host}.

(** ** Identifiers *)

Lemma uuidDigit_x k :
  (random16 k < 16)%N →
  ∃ d, uuidDigit "x" k = String d EmptyString ∧ isHexDigit d = true.
Proof.
  intros Hr. unfold uuidDigit. simpl.
  assert (∃ n, n < 16 ∧ random16 k = N.of_nat n) as (n & Hn & ->).
  { exists (N.to_nat (random16 k)). split; lia. }
  do 16 (destruct n as [|n]; [by eexists|]). lia.
Qed.

Lemma uuidDigit_y k :
  (random16 k < 16)%N →
  ∃ d, uuidDigit "y" k = String d EmptyString
    ∧ existsb (Ascii.eqb d) (list_ascii_of_string "89ab") = true.
Proof.
  intros Hr. unfold uuidDigit. simpl.
  assert (∃ n, n < 16 ∧ random16 k = N.of_nat n) as (n & Hn & ->).
  { exists (N.to_nat (random16 k)). split; lia. }
  do 16 (destruct n as [|n]; [by eexists|]). lia.
Qed.

(** When every random draw is one of 0..15, as [Math.random() * 16 | 0]
    is, [generateUUID] returns a text of the version-4 form
    xxxxxxxx-xxxx-4xxx-yxxx-xxxxxxxxxxxx (36 characters, lower-case
    hexadecimal digits, y one of 8, 9, a, b) and uses up 31 draws. *)
Theorem generateUUID_shape (k : nat) :
  (∀ j, (random16 j < 16)%N) →
  isUUIDv4 (generateUUID k).1 = true ∧ (generateUUID k).2 = k + 31.
Proof.
  intros Hr. unfold generateUUID. cbn -[uuidDigit].
  repeat match goal with
  | |- context [uuidDigit "x" ?j] =>
      let Hd := fresh "Hd" in
      destruct (uuidDigit_x j (Hr j)) as (? & -> & Hd)
  | |- context [uuidDigit "y" ?j] =>
      let Hd := fresh "Hd" in
      destruct (uuidDigit_y j (Hr j)) as (? & -> & Hd)
  end.
  split; [|lia].
  cbv [String.append]. unfold isUUIDv4, isHexDigit in *. cbn in *.
  repeat match goal with Hd : _ = true |- _ => rewrite Hd; clear Hd end.
  reflexivity.
Qed.

End Identifiers.

Section Coverage.
Context `{Host}.

Local Opaque generateUUID.

(** ** Which nodes yield a component *)

(** A property of the state that [processMesh] and the closing of an
    assembly keep is kept by [processNode]. *)
Lemma processNode_preserves (P : ExportState → Prop) :
  (∀ mesh st, P st → P (processMesh mesh st).2) →
  (∀ node subs st, P st → P (closeAssembly node subs st).2) →
  ∀ node st, P st → P (processNode node st).2.
Proof.
  intros Hmesh Hclose node.
  induction node as [t n m mw geo mat cs IH] using Object3D_nested_ind.
  intros st HP. rewrite processNode_eq. simpl.
  destruct (String.eqb t "Mesh"); [by apply Hmesh|].
  destruct (isContainer t); [|done].
  set (node := mkObject3D t n m mw geo mat cs).
  assert (∀ acc, P acc.2 → P (processChildren node cs acc).2) as Hchildren.
  { clear st HP. induction IH as [|child rest Hchild _ IHrest]; intros acc HP; [done|].
    rewrite processChildren_cons. apply IHrest. simpl. by apply Hchild. }
  specialize (Hchildren ([], st) HP).
  destruct (processChildren node cs ([], st)) as [subs st1]. by apply Hclose.
Qed.

Lemma closeAssembly_id node subs st :
  (closeAssembly node subs st).1 = (-1)%Z ↔ subs = [].
Proof.
  unfold closeAssembly. destruct subs as [|sc subs]; simpl; [done|].
  destruct (generateUUID (rng st)). simpl. split; [lia|done].
Qed.

Lemma processMesh_id mesh st : (processMesh mesh st).1 ≠ (-1)%Z.
Proof.
  destruct (processMesh mesh st) as [id st'] eqn:Hrun.
  apply processMesh_spec in Hrun as (-> & _). simpl. lia.
Qed.

Lemma flat_map_nil {A B} (f : A → list B) (l : list A) :
  flat_map f l = [] ↔ Forall (fun a => f a = []) l.
Proof.
  induction l as [|a l IH]; simpl; [by split|].
  rewrite Forall_cons, <- IH. split.
  - by intros [? ?]%app_eq_nil.
  - by intros [-> ->].
Qed.

Lemma filter_yields_nil (l : list Object3D) :
  List.filter yields l = [] ↔ Forall (fun a => reachedMeshes a = []) l.
Proof.
  induction l as [|a l IH]; simpl; [by split|].
  rewrite Forall_cons, <- IH. unfold yields.
  destruct (reachedMeshes a); split; try done; by intros [? ?].
Qed.

(** The transforms recorded by the children loop are those of the
    children that yield a component, in order. *)
Lemma processChildren_transforms node children :
  Forall (fun child => ∀ st,
            (processNode child st).1 = (-1)%Z ↔ reachedMeshes child = []) children →
  ∀ acc,
    sc_transform <$> (processChildren node children acc).1
    = (sc_transform <$> acc.1)
        ++ ((fun child => relMatrix child node) <$> List.filter yields children).
Proof.
  induction 1 as [|child rest Hchild _ IH]; intros [subs st].
  - simpl. by rewrite app_nil_r.
  - rewrite processChildren_cons, IH. simpl. unfold pushSub, yields.
    specialize (Hchild st).
    destruct (Z.eqb_spec (processNode child st).1 (-1)) as [Hid|Hid].
    + apply Hchild in Hid. by rewrite Hid.
    + destruct (reachedMeshes child) eqn:Hr; [by destruct Hid; apply Hchild|].
      rewrite fmap_app, <- app_assoc. done.
Qed.

Lemma processNode_yields node : ∀ st,
  (processNode node st).1 = (-1)%Z ↔ reachedMeshes node = [].
Proof.
  induction node as [t n m mw geo mat cs IH] using Object3D_nested_ind.
  intros st. rewrite processNode_eq. simpl.
  destruct (String.eqb t "Mesh"); [split; [by intros ?%processMesh_id|done]|].
  destruct (isContainer t); [|done].
  set (node := mkObject3D t n m mw geo mat cs).
  pose proof (processChildren_transforms node cs IH ([], st)) as Htr. simpl in Htr.
  destruct (processChildren node cs ([], st)) as [subs st1]. simpl in Htr.
  rewrite closeAssembly_id, flat_map_nil, <- filter_yields_nil.
  split.
  - intros ->. simpl in Htr. symmetry in Htr. by apply fmap_nil_inv in Htr.
  - intros Hf. rewrite Hf in Htr. by apply fmap_nil_inv in Htr.
Qed.

(** A node yields a component exactly when it reaches a mesh: the value
    returned by [processNode] is -1 if and only if no mesh is reachable
    from the node through containers, and then the state is untouched;
    otherwise, on a well-formed table, it is the id of the component
    appended last, which is the one [find] returns for this id. *)
Theorem component_iff_mesh_reached (node : Object3D) (st : ExportState) :
  let id := (processNode node st).1 in
  let st' := (processNode node st).2 in
  (id = (-1)%Z ↔ reachedMeshes node = [])
  ∧ (reachedMeshes node = [] → st' = st)
  ∧ (reachedMeshes node ≠ [] → wfTable (components st) →
     ∃ c earlier, components st' = earlier ++ [c] ∧ c_id c = id
       ∧ findComponent (components st') id = Some c).
Proof.
  intros id st'. pose proof (processNode_yields node st) as Hiff.
  split; [done|].
  destruct (processNode node st) as [id0 st0] eqn:Hrun. simpl in *. subst id st'.
  destruct (processNode_spec node _ _ _ Hrun) as (Hext & _ & Hret & Hwf).
  split.
  - intros Hnone. apply Hiff in Hnone. destruct Hret as [[_ ->]|[-> _]]; [done|lia].
  - intros Hsome Hwf0. specialize (Hwf Hwf0).
    destruct Hret as [[-> _]|[-> Hlt]]; [by destruct Hsome; apply Hiff|].
    destruct (components st0) as [|c earlier _] eqn:Hcs using rev_ind;
      [simpl in Hlt; lia|].
    exists c, earlier. split; [done|].
    assert ((earlier ++ [c]) !! length earlier = Some c) as Hlast.
    { by rewrite lookup_app_r, Nat.sub_diag. }
    rewrite length_app. simpl.
    replace (Z.of_nat (length earlier + 1)) with (Z.of_nat (length earlier) + 1)%Z by lia.
    split; [by destruct (Hwf _ _ Hlast) as [-> _]|by apply findComponent_wf].
Qed.

(** The assembly made for a container that reaches a mesh: it is the
    component appended last, it has no geometry and no material, and its
    sub-components carry, in child order, the transform of every child
    that reaches a mesh relative to the container: the child's world
    matrix premultiplied by the inverse of the container's. *)
Theorem assembly_of_container (node : Object3D) (st : ExportState) :
  String.eqb (o_type node) "Mesh" = false →
  isContainer (o_type node) = true →
  reachedMeshes node ≠ [] →
  ∃ c earlier,
    components (processNode node st).2 = earlier ++ [c]
    ∧ c_type c = type_assembly
    ∧ vertices c = [] ∧ triangles c = [] ∧ c_material c = None
    ∧ c_name c = (if String.eqb (o_name node) EmptyString
                  then "Group-" +:+ pretty (processNode node st).1 else o_name node)
    ∧ sc_transform <$> subComponents c
      = (fun child => premultiply (o_matrixWorld child) (invert (o_matrixWorld node)))
          <$> List.filter yields (o_children node)
    ∧ length (subComponents c) = length (List.filter yields (o_children node)).
Proof.
  intros Hmesh Hcont Hsome.
  assert (Forall (fun child => ∀ st0,
            (processNode child st0).1 = (-1)%Z ↔ reachedMeshes child = [])
            (o_children node)) as Hall.
  { apply Forall_forall. intros child _ st0. apply processNode_yields. }
  pose proof (processChildren_transforms node (o_children node) Hall ([], st)) as Htr.
  pose proof (processNode_yields node st) as Hiff.
  rewrite processNode_eq, Hmesh, Hcont in *.
  destruct (processChildren node (o_children node) ([], st)) as [subs st1].
  simpl in Htr. unfold closeAssembly in *.
  destruct subs as [|sc subs]; [simpl in Hiff; by destruct Hsome; apply Hiff|].
  clear Hiff. rewrite bool_decide_true by (simpl; lia).
  destruct (generateUUID (rng st1)) as [uuid rng']. simpl.
  eexists _, _. split; [done|]. simpl. repeat (split; [done|]).
  apply (f_equal length) in Htr. rewrite !length_fmap in Htr. exact Htr.
Qed.

(** ** Build items *)

Lemma exportChild_items child st st' :
  wfState st → itemsIncreasing (buildItems st) →
  exportChild child st = Normal st' →
  itemsIncreasing (buildItems st')
  ∧ transformMatrix <$> buildItems st'
    = (transformMatrix <$> buildItems st)
        ++ (o_matrix <$> List.filter yields [child]).
Proof.
  intros Hst Hinc Hrun.
  destruct (exportChild_spec child st Hst) as (st1 & Hrun1 & _ & _ & Hcs & _ & Hitems).
  assert (st1 = st') as -> by congruence.
  pose proof (processNode_yields child st) as Hiff.
  destruct (processNode child st) as [id st0] eqn:Hnode. simpl in *.
  destruct (processNode_spec child _ _ _ Hnode) as ([Hpre _] & _ & Hret & _).
  unfold yields. destruct (Z.eqb_spec id (-1)) as [Hid|Hid].
  - subst st'. apply Hiff in Hid. rewrite Hid. simpl. by rewrite app_nil_r.
  - destruct Hitems as [uuid Hitems].
    destruct (reachedMeshes child) eqn:Hr; [by destruct Hid; apply Hiff|].
    rewrite Hitems, fmap_app. split; [|done].
    destruct Hret as [[-> _]|[-> Hlt]]; [done|].
    destruct Hst as (_ & Hb & _). unfold itemsBounded in Hb.
    rewrite Forall_forall in Hb.
    intros i j a b Hij Ha Hb'.
    apply lookup_app_Some in Hb' as [Hb'|[Hge Hb']].
    + apply lookup_lt_Some in Hb' as Hjlt.
      rewrite lookup_app_l in Ha by lia. exact (Hinc i j a b Hij Ha Hb').
    + apply list_lookup_singleton_Some in Hb' as [Hj <-]. simpl.
      rewrite lookup_app_l in Ha by lia.
      apply list_elem_of_lookup_2 in Ha. apply Hb in Ha. lia.
Qed.

Lemma forEachRootChild_build children : ∀ st st',
  wfState st → itemsIncreasing (buildItems st) →
  forEachRootChild children st = Normal st' →
  itemsIncreasing (buildItems st')
  ∧ transformMatrix <$> buildItems st'
    = (transformMatrix <$> buildItems st)
        ++ (o_matrix <$> List.filter yields children).
Proof.
  induction children as [|child rest IH]; intros st st' Hst Hinc Hrun; simpl in Hrun.
  - injection Hrun as <-. simpl. by rewrite app_nil_r.
  - destruct (exportChild_spec child st Hst) as (st1 & Hstep & Hst1 & _).
    rewrite Hstep in Hrun. simpl in Hrun.
    destruct (exportChild_items child st st1 Hst Hinc Hstep) as [Hinc1 Htr1].
    destruct (IH _ _ Hst1 Hinc1 Hrun) as [Hinc' Htr'].
    split; [done|]. rewrite Htr', Htr1, <- app_assoc, <- fmap_app. simpl.
    by destruct (yields child).
Qed.

(** The build items of an export are, in order, the root children that
    reach a mesh, each with its local matrix; a root that is not a Scene
    gives at most one.  Their object ids grow strictly, so no component
    is placed twice, and each id is that of a component of the table,
    which is the one [find] returns for it. *)
Theorem build_items_of_root_children (object : Object3D) :
  ∃ st, traverse object = Normal st
    ∧ transformMatrix <$> buildItems st
      = o_matrix <$> List.filter yields (rootChildren object)
    ∧ (String.eqb (o_type object) "Scene" = false → (length (buildItems st) ≤ 1)%nat)
    ∧ (∀ i j a b, i < j → buildItems st !! i = Some a → buildItems st !! j = Some b →
         (objectId a < objectId b)%Z)
    ∧ (∀ item, item ∈ buildItems st →
         ∃ c, findComponent (components st) (objectId item) = Some c
           ∧ c ∈ components st ∧ c_id c = objectId item).
Proof.
  destruct (traverse_spec object) as (st & Hrun & Hst).
  exists st. split; [done|].
  destruct (forEachRootChild_build (rootChildren object) initialState st
              wfState_initial) as [Hinc Htr]; [|done|].
  { intros i j a b _ Ha. simpl in Ha. by rewrite lookup_nil in Ha. }
  simpl in Htr. split; [done|]. split; [|split; [done|]].
  - intros Hscene. apply (f_equal length) in Htr. rewrite !length_fmap in Htr.
    rewrite Htr. unfold rootChildren. rewrite Hscene. simpl.
    destruct (yields object); simpl; lia.
  - intros item Hitem. destruct Hst as (Hwf & Hb & _).
    unfold itemsBounded in Hb. rewrite Forall_forall in Hb.
    destruct (findComponent_in_range _ _ Hwf (Hb item Hitem)) as (c & Hfind & Hc).
    exists c. split; [done|]. split; [by eapply list_elem_of_lookup_2|].
    destruct (Hwf _ _ Hc) as [-> _]. specialize (Hb item Hitem). lia.
Qed.

(** ** Mesh components and mesh nodes *)

Lemma processMesh_component mesh st :
  ∃ c, components (processMesh mesh st).2 = components st ++ [c]
    ∧ meshComponentOf c mesh.
Proof.
  unfold processMesh, meshComponentOf, geometryOf, flattened, processMaterial.
  destruct (meshColor (o_material mesh)) as [color|] eqn:Hcolor.
  - unfold resolveMaterial.
    destruct (List.find _ (materials st)) as [mi|] eqn:Hfind;
      destruct (generateUUID (rng st)) as [uuid rng'];
      destruct (processTriangles (o_geometry mesh)) as [tris [vm verts]]; simpl;
      eexists; (split; [done|]); simpl; repeat (split; [done|]).
    + exists mi. split; [done|]. right. by apply find_some in Hfind as [_ ?].
    + eexists. split; [done|]. by left.
  - destruct (generateUUID (rng st)) as [uuid rng'].
    destruct (processTriangles (o_geometry mesh)) as [tris [vm verts]]; simpl.
    eexists. split; [done|]. simpl. by repeat (split; [done|]).
Qed.

Lemma closeAssembly_components node subs st :
  ∃ new, components (closeAssembly node subs st).2 = components st ++ new
    ∧ List.filter isMeshComponent new = [].
Proof.
  unfold closeAssembly. destruct (bool_decide _).
  - destruct (generateUUID (rng st)) as [uuid rng']. simpl. by eexists [_].
  - exists []. by rewrite app_nil_r.
Qed.

Lemma processNode_meshes node : ∀ st,
  ∃ new, components (processNode node st).2 = components st ++ new
    ∧ Forall2 meshComponentOf (List.filter isMeshComponent new) (reachedMeshes node).
Proof.
  induction node as [t n m mw geo mat cs IH] using Object3D_nested_ind.
  intros st. rewrite processNode_eq. simpl.
  destruct (String.eqb t "Mesh").
  - destruct (processMesh_component (mkObject3D t n m mw geo mat cs) st)
      as (c & Hc & Hof).
    exists [c]. split; [done|]. simpl. unfold isMeshComponent.
    pose proof Hof as (Htype & _). rewrite Htype.
    constructor; [done|constructor].
  - destruct (isContainer t); [|exists []; by rewrite app_nil_r].
    set (node := mkObject3D t n m mw geo mat cs).
    assert (∀ parent acc, ∃ new,
              components (processChildren parent cs acc).2 = components acc.2 ++ new
              ∧ Forall2 meshComponentOf (List.filter isMeshComponent new)
                  (flat_map reachedMeshes cs)) as Hchildren.
    { clear st node. intros parent.
      induction IH as [|child rest Hchild _ IHrest]; intros acc.
      - exists []. by rewrite app_nil_r.
      - rewrite processChildren_cons.
        destruct (Hchild acc.2) as (new1 & Hnew1 & Hof1).
        destruct (IHrest (pushSub parent child (processNode child acc.2).1 acc.1,
                          (processNode child acc.2).2)) as (new2 & Hnew2 & Hof2).
        simpl in Hnew2. exists (new1 ++ new2).
        split; [by rewrite Hnew2, Hnew1, app_assoc|].
        rewrite List.filter_app. simpl. by apply Forall2_app. }
    destruct (Hchildren node ([], st)) as (new & Hnew & Hof). simpl in Hnew.
    destruct (processChildren node cs ([], st)) as [subs st1]. simpl in Hnew.
    destruct (closeAssembly_components node subs st1) as (new' & Hnew' & Hnone).
    exists (new ++ new'). split; [by rewrite Hnew', Hnew, app_assoc|].
    by rewrite List.filter_app, Hnone, app_nil_r.
Qed.

Lemma forEachRootChild_meshes children : ∀ st st',
  wfState st → forEachRootChild children st = Normal st' →
  ∃ new, components st' = components st ++ new
    ∧ Forall2 meshComponentOf (List.filter isMeshComponent new)
        (flat_map reachedMeshes children).
Proof.
  induction children as [|child rest IH]; intros st st' Hst Hrun; simpl in Hrun.
  - injection Hrun as <-. exists []. by rewrite app_nil_r.
  - destruct (exportChild_spec child st Hst) as (st1 & Hstep & Hst1 & _ & Hcs & _).
    rewrite Hstep in Hrun. simpl in Hrun.
    destruct (processNode_meshes child st) as (new1 & Hnew1 & Hof1).
    destruct (IH _ _ Hst1 Hrun) as (new2 & Hnew2 & Hof2).
    exists (new1 ++ new2). split; [by rewrite Hnew2, Hcs, Hnew1, app_assoc|].
    rewrite List.filter_app. simpl. by apply Forall2_app.
Qed.

(** The mesh components of the table are the mesh nodes of the scene
    that the traversal reaches, one for one and in depth-first order:
    each has the node's de-duplicated vertices and its triangles, the
    node's name (or Mesh-id when the node has none) and, when the node
    has a material, a material of the node's colour. *)
Theorem mesh_components_of_scene (object : Object3D) :
  ∃ st, traverse object = Normal st
    ∧ Forall2 meshComponentOf (List.filter isMeshComponent (components st))
        (sceneMeshes object)
    ∧ length (List.filter isMeshComponent (components st))
      = length (sceneMeshes object).
Proof.
  destruct (traverse_spec object) as (st & Hrun & Hst).
  exists st. split; [done|].
  destruct (forEachRootChild_meshes _ _ _ wfState_initial Hrun) as (new & Hnew & Hof).
  simpl in Hnew. rewrite Hnew. split; [done|]. by eapply Forall2_length.
Qed.

(** ** Exports that complete *)










(** ** Exports that throw *)










(** ** Meshes without a position attribute *)

Lemma SparseObject3D_nested_ind (P : SparseObject3D → Prop) :
  (∀ t n m mw geo mat cs, Forall P cs → P (mkSparseObject3D t n m mw geo mat cs)) →
  ∀ o, P o.
Proof.
  intros IH. fix go 1. intros [t n m mw geo mat cs]. apply IH.
  induction cs as [|c cs IHcs]; constructor; [apply go | exact IHcs].
Qed.

Lemma sparse_processNode_eq node st :
  Sparse.processNode node st =
    if String.eqb (s_type node) "Mesh" then Sparse.processMesh node st
    else if isContainer (s_type node) then
      acc ← fold_left (fun acc child =>
                         '(subs, st0) ← acc;
                         '(subId, st1) ← Sparse.processNode child st0;
                         Normal (pushSub (dense node) (dense child) subId subs, st1))
               (s_children node) (Normal ([], st));
      Normal (closeAssembly (dense node) acc.1 acc.2)
    else Normal ((-1)%Z, st).
Proof. destruct node; reflexivity. Qed.


Lemma allReadable_app ms1 ms2 :
  allReadable (ms1 ++ ms2) = allReadable ms1 && allReadable ms2.
Proof. apply forallb_app. Qed.

(** The traversal of a scene whose meshes may lack the position
    attribute throws as soon as a reached mesh has it read while
    missing, and is the traversal of the dense scene otherwise. *)
Lemma processNode_dense node : ∀ st,
  Sparse.processNode node st =
    if allReadable (reachedSparse node)
    then Normal (processNode (dense node) st) else Throw.
Proof.
  induction node as [t n m mw geo mat cs IH] using SparseObject3D_nested_ind.
  intros st. rewrite sparse_processNode_eq, processNode_eq. simpl.
  destruct (String.eqb t "Mesh").
  - unfold Sparse.processMesh, allReadable, readable. simpl.
    by destruct (attributes_position geo), (geometry_index geo) as [[|??]|].
  - destruct (isContainer t); [|done].
    set (parent := mkObject3D t n m mw (denseGeometry geo) mat (map dense cs)).
    clearbody parent.
    set (F := fun (acc : Completion (list SubComponent * ExportState)) child =>
                '(subs, st0) ← acc;
                '(subId, st1) ← Sparse.processNode child st0;
                Normal (pushSub parent (dense child) subId subs, st1)).
    assert (∀ children, fold_left F children Throw = Throw) as Hthrow.
    { induction children as [|child rest IHrest]; [done|apply IHrest]. }
    assert (∀ children, Forall (fun child => ∀ st0,
                Sparse.processNode child st0 =
                  if allReadable (reachedSparse child)
                  then Normal (processNode (dense child) st0) else Throw) children →
              ∀ acc, fold_left F children (Normal acc) =
                if allReadable (flat_map reachedSparse children)
                then Normal (processChildren parent (dense <$> children) acc)
                else Throw) as Hfold.
    { induction 1 as [|child rest Hchild _ IHrest]; intros acc; [done|].
      rewrite fmap_cons, processChildren_cons.
      cbn [flat_map fold_left]. rewrite allReadable_app.
      unfold F at 2. destruct acc as [subs st0]. simpl. rewrite Hchild.
      destruct (allReadable (reachedSparse child)); simpl; [|apply Hthrow].
      destruct (processNode (dense child) st0) as [subId st1]. simpl.
      apply IHrest. }
    rewrite (Hfold cs IH ([], st)).
    destruct (allReadable (flat_map reachedSparse cs)); [|done]. simpl.
    change (map dense cs) with (dense <$> cs).
    by destruct (processChildren parent (dense <$> cs) ([], st)).
Qed.

Lemma exportChild_dense child st :
  Sparse.exportChild child st =
    if allReadable (reachedSparse child) then exportChild (dense child) st else Throw.
Proof.
  unfold Sparse.exportChild, exportChild. rewrite processNode_dense.
  destruct (allReadable (reachedSparse child)); [|done]. simpl.
  destruct (processNode (dense child) st) as [childId st1]. simpl.
  by destruct child.
Qed.

Lemma forEachRootChild_dense children : ∀ st,
  wfState st →
  Sparse.forEachRootChild children st =
    if allReadable (flat_map reachedSparse children)
    then forEachRootChild (dense <$> children) st else Throw.
Proof.
  induction children as [|child rest IH]; intros st Hst; [done|].
  simpl. rewrite allReadable_app, exportChild_dense.
  destruct (allReadable (reachedSparse child)); [|done]. simpl.
  destruct (exportChild_spec (dense child) st Hst) as (st1 & -> & Hst1 & _).
  simpl. by apply IH.
Qed.

Lemma rootChildren_dense object :
  rootChildren (dense object) = dense <$> Sparse.rootChildren object.
Proof.
  unfold rootChildren, Sparse.rootChildren. destruct object as [t n m mw geo mat cs].
  simpl. by destruct (String.eqb t "Scene").
Qed.


Lemma traverse_dense object :
  Sparse.traverse object =
    if allReadable (sparseMeshes object) then traverse (dense object) else Throw.
Proof.
  unfold Sparse.traverse, traverse, sparseMeshes.
  rewrite (forEachRootChild_dense _ _ wfState_initial).
  by rewrite rootChildren_dense.
Qed.

Lemma exportTo3MF_dense object printJobConfig :
  Sparse.exportTo3MF object printJobConfig =
    if allReadable (sparseMeshes object)
    then exportTo3MF (dense object) printJobConfig else Throw.
Proof.
  unfold Sparse.exportTo3MF, Sparse.exportRun, exportTo3MF, exportRun.
  rewrite traverse_dense. by destruct (allReadable (sparseMeshes object)).
Qed.





Lemma dense_sparse node : dense (sparse node) = node.
Proof.
  induction node as [t n m mw [pos idx] mat cs IH] using Object3D_nested_ind.
  simpl. unfold denseGeometry. simpl. f_equal.
  induction IH as [|child rest Hchild _ IHrest]; simpl; [done|].
  by rewrite Hchild, IHrest.
Qed.

Lemma reachedSparse_sparse node :
  reachedSparse (sparse node) = sparse <$> reachedMeshes node.
Proof.
  induction node as [t n m mw geo mat cs IH] using Object3D_nested_ind.
  simpl. destruct (String.eqb t "Mesh"); [done|].
  destruct (isContainer t); [|done].
  induction IH as [|child rest Hchild _ IHrest]; simpl; [done|].
  by rewrite fmap_app, Hchild, IHrest.
Qed.

Lemma sparseMeshes_sparse object :
  sparseMeshes (sparse object) = sparse <$> sceneMeshes object.
Proof.
  unfold sparseMeshes, sceneMeshes.
  assert (Sparse.rootChildren (sparse object) = sparse <$> rootChildren object) as ->.
  { unfold rootChildren, Sparse.rootChildren. destruct object as [t n m mw geo mat cs].
    simpl. by destruct (String.eqb t "Scene"). }
  induction (rootChildren object) as [|child rest IH]; [done|].
  rewrite fmap_cons. cbn [flat_map].
  by rewrite fmap_app, reachedSparse_sparse, IH.
Qed.

Lemma allReadable_sparse object : allReadable (sparseMeshes (sparse object)) = true.
Proof.
  rewrite sparseMeshes_sparse.
  induction (sceneMeshes object) as [|mesh rest IH]; [done|].
  rewrite fmap_cons. unfold allReadable in *. cbn [forallb]. rewrite IH.
  by destruct mesh.
Qed.

(** On a scene all of whose meshes have the position attribute the two
    exporters agree. *)
Lemma exportTo3MF_sparse object printJobConfig :
  Sparse.exportTo3MF (sparse object) printJobConfig = exportTo3MF object printJobConfig.
Proof. by rewrite exportTo3MF_dense, allReadable_sparse, dense_sparse. Qed.




(** ** The material list *)

Lemma traverse_preserves (P : list ComponentInfo → list MaterialInfo → Prop) :
  (∀ mesh st, P (components st) (materials st) →
     P (components (processMesh mesh st).2) (materials (processMesh mesh st).2)) →
  (∀ node subs st, P (components st) (materials st) →
     P (components (closeAssembly node subs st).2)
       (materials (closeAssembly node subs st).2)) →
  P [] [] →
  ∀ object st, traverse object = Normal st → P (components st) (materials st).
Proof.
  intros Hmesh Hclose Hinit object. unfold traverse.
  assert (∀ children st st', wfState st → P (components st) (materials st) →
            forEachRootChild children st = Normal st' →
            P (components st') (materials st')) as Hloop.
  { induction children as [|child rest IH]; intros st st' Hst HP Hrun; simpl in Hrun.
    - by injection Hrun as <-.
    - destruct (exportChild_spec child st Hst) as (st1 & Hstep & Hst1 & _ & Hcs & Hms & _).
      rewrite Hstep in Hrun. simpl in Hrun. apply (IH st1 st' Hst1); [|done].
      rewrite Hcs, Hms.
      by apply (processNode_preserves (fun st => P (components st) (materials st))). }
  intros st. by apply Hloop; [apply wfState_initial|].
Qed.

Lemma materialsOk_mesh mesh st :
  materialsOk (components st) (materials st) →
  materialsOk (components (processMesh mesh st).2) (materials (processMesh mesh st).2).
Proof.
  intros (Hids & Hdistinct & Hused & Huses).
  unfold processMesh, processMaterial.
  destruct (meshColor (o_material mesh)) as [color|].
  - unfold resolveMaterial.
    destruct (List.find _ (materials st)) as [mi|] eqn:Hfind;
      destruct (generateUUID (rng st)) as [uuid rng'];
      destruct (processTriangles (o_geometry mesh)) as [tris [vm verts]]; simpl.
    + apply find_some in Hfind as [Hin _]. apply list_elem_of_In in Hin.
      split; [done|]. split; [done|]. split.
      * intros c m [Hc|Hc]%elem_of_app Hm; [by eapply Hused|].
        apply list_elem_of_singleton in Hc as ->. simpl in Hm. by injection Hm as <-.
      * intros m Hm. destruct (Huses m Hm) as (c & Hc & Hkind & Hmat).
        exists c. split; [|done]. apply elem_of_app. by left.
    + pose proof (find_none _ _ Hfind) as Hnone. simpl in Hnone.
      split; [|split; [|split]].
      * intros i m [Hm|[Hi Hm]]%lookup_app_Some; [by apply Hids|].
        apply list_lookup_singleton_Some in Hm as [Hz <-]. simpl.
        split; f_equal; lia.
      * intros i j mi mj Hij Hmi [Hmj|[Hj Hmj]]%lookup_app_Some.
        -- apply lookup_app_Some in Hmi as [Hmi|[Hi _]].
           ++ by eapply Hdistinct.
           ++ apply lookup_lt_Some in Hmj. lia.
        -- apply list_lookup_singleton_Some in Hmj as [Hz <-]. simpl.
           apply lookup_app_Some in Hmi as [Hmi|[Hi _]]; [|lia].
           apply Hnone, list_elem_of_In. by eapply list_elem_of_lookup_2.
      * intros c m [Hc|Hc]%elem_of_app Hm.
        -- apply elem_of_app. left. by eapply Hused.
        -- apply list_elem_of_singleton in Hc as ->. simpl in Hm. injection Hm as <-.
           apply elem_of_app. right. by apply list_elem_of_singleton.
      * intros m [Hm|Hm]%elem_of_app.
        -- destruct (Huses m Hm) as (c & Hc & Hkind & Hmat).
           exists c. split; [|done]. apply elem_of_app. by left.
        -- apply list_elem_of_singleton in Hm as ->.
           eexists. split; [apply elem_of_app; right; by apply list_elem_of_singleton|].
           by split.
  - destruct (generateUUID (rng st)) as [uuid rng'].
    destruct (processTriangles (o_geometry mesh)) as [tris [vm verts]]; simpl.
    split; [done|]. split; [done|]. split.
    + intros c m [Hc|Hc]%elem_of_app Hm; [by eapply Hused|].
      by apply list_elem_of_singleton in Hc as ->.
    + intros m Hm. destruct (Huses m Hm) as (c & Hc & Hkind & Hmat).
      exists c. split; [|done]. apply elem_of_app. by left.
Qed.

Lemma materialsOk_assembly node subs st :
  materialsOk (components st) (materials st) →
  materialsOk (components (closeAssembly node subs st).2)
    (materials (closeAssembly node subs st).2).
Proof.
  intros (Hids & Hdistinct & Hused & Huses). unfold closeAssembly.
  destruct (bool_decide _); [|done].
  destruct (generateUUID (rng st)) as [uuid rng']. simpl.
  split; [done|]. split; [done|]. split.
  - intros c m [Hc|Hc]%elem_of_app Hm; [by eapply Hused|].
    by apply list_elem_of_singleton in Hc as ->.
  - intros m Hm. destruct (Huses m Hm) as (c & Hc & Hkind & Hmat).
    exists c. split; [|done]. apply elem_of_app. by left.
Qed.

Lemma filamentColours_lookup ms i m :
  ms !! i = Some m →
  filamentColours ms !! i = Some ("#" +:+ getHexString (m_color m)).
Proof.
  intros Hm. unfold filamentColours. rewrite padColors_two.
  apply lookup_app_l_Some. change (map ?f ms) with (f <$> ms).
  by rewrite list_lookup_fmap, Hm.
Qed.

(** The material list of an export: ids and extruder numbers are 1, 2,
    ... in list order, no two materials have the same colour, every
    component's material is in the list and every material is used by a
    mesh component; the filament colour at slot [extruder - 1] of the
    project settings is the material's colour. *)
Theorem materials_of_export (object : Object3D) :
  ∃ st, traverse object = Normal st
    ∧ materialsOk (components st) (materials st)
    ∧ (∀ c m, c ∈ components st → c_material c = Some m →
         (1 ≤ extruder m ≤ Z.of_nat (length (materials st)))%Z
         ∧ materials st !! (Z.to_nat (extruder m) - 1) = Some m
         ∧ filamentColours (materials st) !! (Z.to_nat (extruder m) - 1)
             = Some ("#" +:+ getHexString (m_color m))).
Proof.
  destruct (traverse_spec object) as (st & Hrun & _).
  exists st. split; [done|].
  assert (materialsOk (components st) (materials st)) as Hok.
  { apply (traverse_preserves materialsOk) with (object := object); [| | |done].
    - apply materialsOk_mesh.
    - apply materialsOk_assembly.
    - split; [|split; [|split]].
      + intros i m Hm. by rewrite lookup_nil in Hm.
      + intros i j mi mj _ Hm. by rewrite lookup_nil in Hm.
      + intros c m Hc. by apply not_elem_of_nil in Hc.
      + intros m Hm. by apply not_elem_of_nil in Hm. }
  split; [done|]. intros c m Hc Hm.
  destruct Hok as (Hids & _ & Hused & _).
  pose proof (Hused c m Hc Hm) as Hin. apply list_elem_of_lookup in Hin as [i Hi].
  destruct (Hids i m Hi) as [_ Hext]. pose proof (lookup_lt_Some _ _ _ Hi) as Hlt.
  replace (Z.to_nat (extruder m) - 1) with i by lia.
  split; [lia|]. split; [done|]. by apply filamentColours_lookup.
Qed.

(** ** Looking up and following references *)

Lemma findComponent_closed cs id :
  wfTable cs →
  findComponent cs id =
    if bool_decide (1 ≤ id ≤ Z.of_nat (length cs))%Z
    then cs !! (Z.to_nat id - 1) else None.
Proof.
  intros Hwf. case_bool_decide as Hid.
  - by destruct (findComponent_in_range cs id Hwf Hid) as (c & -> & ->).
  - destruct (findComponent cs id) as [c|] eqn:Hfind; [|done].
    apply find_some in Hfind as [Hin Heq]. apply list_elem_of_In in Hin.
    apply list_elem_of_lookup in Hin as [i Hi].
    destruct (Hwf i c Hi) as (Hcid & _). apply lookup_lt_Some in Hi. lia.
Qed.

(** Looking a component up by id is reading the table at position
    [id - 1]; an id outside 1..N finds nothing.  Every sub-component
    reference of the table finds a component, one stored before the
    assembly that refers to it, and so does every build item: none of the
    lookups of [getVerts], [collect] and the emitters comes back empty. *)
Theorem component_lookup_by_position (object : Object3D) :
  ∃ st, traverse object = Normal st
    ∧ (∀ id, findComponent (components st) id =
         if bool_decide (1 ≤ id ≤ Z.of_nat (length (components st)))%Z
         then components st !! (Z.to_nat id - 1) else None)
    ∧ (∀ i c sc, components st !! i = Some c → sc ∈ subComponents c →
         ∃ j c', findComponent (components st) (sc_objectId sc) = Some c'
           ∧ components st !! j = Some c' ∧ j < i)
    ∧ (∀ item, item ∈ buildItems st →
         ∃ c, findComponent (components st) (objectId item) = Some c
           ∧ c_id c = objectId item).
Proof.
  destruct (traverse_spec object) as (st & Hrun & Hwf & Hitems & _).
  exists st. split; [done|]. split; [|split].
  - intros id. by apply findComponent_closed.
  - intros i c sc Hc Hsc. destruct (Hwf i c Hc) as (Hid & Hsubs & _).
    rewrite Forall_forall in Hsubs. specialize (Hsubs sc Hsc).
    pose proof (lookup_lt_Some _ _ _ Hc) as Hlt.
    destruct (findComponent_in_range (components st) (sc_objectId sc) Hwf)
      as (c' & Hfind & Hc'); [lia|].
    exists (Z.to_nat (sc_objectId sc) - 1), c'. split; [done|]. split; [done|lia].
  - intros item Hitem. unfold itemsBounded in Hitems.
    rewrite Forall_forall in Hitems. specialize (Hitems item Hitem).
    destruct (findComponent_in_range (components st) (objectId item) Hwf Hitems)
      as (c & Hfind & Hc).
    exists c. split; [done|]. destruct (Hwf _ c Hc) as (-> & _). lia.
Qed.

Lemma flatMapC_cons {A B} (f : A → Completion (list B)) a l b bs :
  f a = Normal b → flatMapC f l = Normal bs →
  flatMapC f (a :: l) = Normal (b ++ bs).
Proof.
  unfold flatMapC. simpl. intros -> Hl. simpl.
  destruct (mapC f l) as [ys| |]; [|done..]. simpl in *. by injection Hl as <-.
Qed.

Lemma collect_getVerts cs : wfTable cs →
  ∀ fuel i c, cs !! i = Some c → i < fuel →
    ∃ parts vs, collect fuel cs c = Normal parts
      ∧ getVerts fuel cs c = Normal vs
      ∧ parts ≠ [] ∧ Forall (meshOf cs) parts
      ∧ length vs = vertexCount parts.
Proof.
  intros Hwf. induction fuel as [|fuel IH]; intros i c Hi Hlt; [lia|].
  simpl. destruct (Hwf i c Hi) as (Hid & Hsubs & _ & Hkind).
  destruct (c_type c) eqn:Htype.
  - exists [c], (map toVector3 (vertices c)). split; [done|]. split; [done|].
    split; [done|]. split.
    + constructor; [|constructor]. split; [by eapply list_elem_of_lookup_2|done].
    + unfold vertexCount. simpl. rewrite length_map. lia.
  - destruct Hkind as (Hne & _).
    pose proof (lookup_lt_Some _ _ _ Hi) as Hlen.
    assert (∀ subs, Forall (fun sc => (1 ≤ sc_objectId sc < c_id c)%Z) subs →
              ∃ parts vs,
                flatMapC (fun sc =>
                  match findComponent cs (sc_objectId sc) with
                  | None => Throw
                  | Some subComp => collect fuel cs subComp
                  end) subs = Normal parts
                ∧ flatMapC (fun sc =>
                    match findComponent cs (sc_objectId sc) with
                    | None => Throw
                    | Some subComp =>
                        map (fun v => applyMatrix4 v (sc_transform sc))
                          <$> getVerts fuel cs subComp
                    end) subs = Normal vs
                ∧ (subs ≠ [] → parts ≠ []) ∧ Forall (meshOf cs) parts
                ∧ length vs = vertexCount parts) as Hloop.
    { induction 1 as [|sc subs Hsc _ (parts & vs & Hparts & Hvs & _ & Hmesh & Hcount)].
      - exists [], []. by repeat split.
      - destruct (findComponent_in_range cs (sc_objectId sc) Hwf) as (c' & Hfind & Hc');
          [lia|].
        destruct (IH _ c' Hc') as (parts1 & vs1 & Hparts1 & Hvs1 & Hne1 & Hmesh1 & Hcount1);
          [lia|].
        exists (parts1 ++ parts), (map (fun v => applyMatrix4 v (sc_transform sc)) vs1 ++ vs).
        split; [apply flatMapC_cons; [by rewrite Hfind|done]|].
        split; [apply flatMapC_cons; [by rewrite Hfind, Hvs1|done]|].
        split; [intros _; by destruct parts1|].
        split; [by apply Forall_app|].
        unfold vertexCount in *.
        rewrite sum_list_with_app, length_app, length_map. lia. }
    destruct (Hloop (subComponents c) Hsubs) as (parts & vs & Hp & Hv & Hnonempty & Hrest).
    exists parts, vs. split; [done|]. split; [done|]. split; [by apply Hnonempty|done].
Qed.

(** For every build item of an export, the flattening of the model
    settings ([collect]) and the gathering of world vertices
    ([getVerts]) both succeed on the item's component and agree: the item
    has at least one part, every part is a mesh component of the table,
    and the item contributes as many world vertices as its parts store
    vertices. *)
Theorem parts_of_build_items (object : Object3D) :
  ∃ st, traverse object = Normal st
    ∧ ∀ item, item ∈ buildItems st →
        ∃ c parts vs,
          findComponent (components st) (objectId item) = Some c
          ∧ collect (length (components st)) (components st) c = Normal parts
          ∧ getVerts (length (components st)) (components st) c = Normal vs
          ∧ parts ≠ [] ∧ Forall (meshOf (components st)) parts
          ∧ length vs = vertexCount parts
          ∧ itemWorldVertices (components st) item
              = Normal (map (fun v => applyMatrix4 v (transformMatrix item)) vs).
Proof.
  destruct (traverse_spec object) as (st & Hrun & Hwf & Hitems & _).
  exists st. split; [done|]. intros item Hitem.
  unfold itemsBounded in Hitems. rewrite Forall_forall in Hitems.
  specialize (Hitems item Hitem).
  destruct (findComponent_in_range (components st) (objectId item) Hwf Hitems)
    as (c & Hfind & Hc).
  destruct (collect_getVerts _ Hwf (length (components st)) _ c Hc)
    as (parts & vs & Hparts & Hvs & Hrest); [by eapply lookup_lt_Some|].
  exists c, parts, vs. split; [done|]. split; [done|]. split; [done|].
  destruct Hrest as (? & ? & ?). repeat (split; [done|]).
  unfold itemWorldVertices. by rewrite Hfind, Hvs.
Qed.

(** ** The model settings *)

Lemma settingsLoop_closed cs : wfTable cs →
  ∀ items, itemsBounded cs items →
  ∀ index objectsXml instancesXml assembleXml,
    ∃ entries, Forall2 (settingsEntry cs) items entries
      ∧ settingsLoop cs items index (objectsXml, instancesXml, assembleXml)
        = Normal
            (objectsXml +:+ cat (zip_with (fun item entry =>
               objectXML (objectId item) entry.1
                 (String.concat nl (map partXML entry.2))) items entries),
             instancesXml +:+ cat (imap (fun j item =>
               instanceXML (objectId item) (index + j)) items),
             assembleXml +:+ cat ((fun item => assembleItemXML (objectId item))
                                    <$> items)).
Proof.
  intros Hwf. induction 1 as [|item items Hitem _ IH]; intros index o i a.
  - exists []. split; [constructor|]. simpl. unfold cat. simpl.
    by rewrite !append_nil_r.
  - destruct (findComponent_in_range cs (objectId item) Hwf Hitem) as (c & Hfind & Hc).
    destruct (collect_getVerts cs Hwf (length cs) _ c Hc)
      as (parts & vs & Hparts & _ & Hne & Hmesh & _); [by eapply lookup_lt_Some|].
    destruct (IH (S index)
                (o +:+ objectXML (objectId item) c (String.concat nl (map partXML parts)))
                (i +:+ instanceXML (objectId item) index)
                (a +:+ assembleItemXML (objectId item)))
      as (entries & Hentries & Hloop).
    exists ((c, parts) :: entries). split; [by constructor|].
    simpl. unfold settingsStep. rewrite Hfind, Hparts. simpl. rewrite Hloop.
    rewrite !cat_cons, !append_assoc, Nat.add_0_r.
    assert (imap ((fun j item0 => instanceXML (objectId item0) (index + j)) ∘ S) items
            = imap (fun j item0 => instanceXML (objectId item0) (S index + j)) items)
      as ->; [|done].
    apply imap_ext. intros j x _. simpl. f_equal. lia.
Qed.

(** The three blocks of the model settings of an export have one entry
    per build item, in build order: an object that carries the name of
    the item's component and one part per mesh gathered below it (at
    least one), an instance whose [identify_id] is the item's position
    counted from 1, and an assemble item. *)
Theorem model_settings_entries (object : Object3D) :
  ∃ st entries,
    traverse object = Normal st
    ∧ Forall2 (settingsEntry (components st)) (buildItems st) entries
    ∧ settingsLoop (components st) (buildItems st) 0
        (EmptyString, EmptyString, EmptyString)
      = Normal
          (cat (zip_with (fun item entry =>
             objectXML (objectId item) entry.1
               (String.concat nl (map partXML entry.2))) (buildItems st) entries),
           cat (imap (fun j item => instanceXML (objectId item) j) (buildItems st)),
           cat ((fun item => assembleItemXML (objectId item)) <$> buildItems st)).
Proof.
  destruct (traverse_spec object) as (st & Hrun & Hwf & Hitems & _).
  destruct (settingsLoop_closed (components st) Hwf (buildItems st) Hitems 0
              EmptyString EmptyString EmptyString) as (entries & Hentries & Hloop).
  exists st, entries. split; [done|]. split; [done|]. exact Hloop.
Qed.

(** ** Every component is used once *)

Lemma subReferences_app cs cs' :
  subReferences (cs ++ cs') = subReferences cs ++ subReferences cs'.
Proof. unfold subReferences. by rewrite bind_app. Qed.

Lemma app_swap_perm {A} (a b s o : list A) :
  (a ++ b) ++ (s ++ o) ≡ₚ (a ++ s) ++ (b ++ o).
Proof.
  rewrite <- !app_assoc. apply Permutation_app_head.
  rewrite !app_assoc. apply Permutation_app_tail, Permutation_app_comm.
Qed.

(** The ids referred to by the components a node adds, and the id
    returned for the node, are the ids of the components added. *)
Lemma processNode_references node : ∀ st,
  ∃ new, components (processNode node st).2 = components st ++ new
    ∧ subReferences new
        ++ (if ((processNode node st).1 =? -1)%Z then [] else [(processNode node st).1])
      ≡ₚ c_id <$> new.
Proof.
  induction node as [t n m mw geo mat cs IH] using Object3D_nested_ind.
  intros st. rewrite processNode_eq. simpl.
  destruct (String.eqb t "Mesh").
  - destruct (processMesh (mkObject3D t n m mw geo mat cs) st) as [id st'] eqn:Hrun.
    apply processMesh_spec in Hrun
      as (Hid & (c & Hc & (Hcid & _ & _ & Hkind) & Htype & _) & _).
    rewrite Htype in Hkind. simpl. exists [c]. split; [done|].
    assert (id ≠ (-1)%Z) as Hne by lia.
    destruct (Z.eqb_spec id (-1)) as [|_]; [done|].
    unfold subReferences. simpl. by rewrite Hkind, Hcid, Hid.
  - destruct (isContainer t).
    2: { exists []. by rewrite app_nil_r. }
    set (node := mkObject3D t n m mw geo mat cs).
    assert (∀ parent acc, ∃ new,
              components (processChildren parent cs acc).2 = components acc.2 ++ new
              ∧ subReferences new
                  ++ (sc_objectId <$> (processChildren parent cs acc).1)
                ≡ₚ (c_id <$> new) ++ (sc_objectId <$> acc.1)) as Hchildren.
    { clear st node. intros parent.
      induction IH as [|child rest Hchild _ IHrest]; intros acc.
      - exists []. simpl. by rewrite app_nil_r.
      - rewrite processChildren_cons.
        destruct (Hchild acc.2) as (new1 & Hnew1 & Hperm1).
        destruct (IHrest (pushSub parent child (processNode child acc.2).1 acc.1,
                          (processNode child acc.2).2)) as (new2 & Hnew2 & Hperm2).
        simpl in Hnew2, Hperm2. exists (new1 ++ new2).
        split; [by rewrite Hnew2, Hnew1, app_assoc|].
        rewrite subReferences_app, <- app_assoc, Hperm2, fmap_app.
        unfold pushSub.
        destruct (Z.eqb_spec (processNode child acc.2).1 (-1)) as [Heq|Hne].
        + rewrite app_nil_r in Hperm1. by rewrite <- Hperm1, app_assoc.
        + rewrite fmap_app. simpl. rewrite <- Hperm1.
          rewrite <- !app_assoc. apply Permutation_app_head.
          rewrite (app_assoc (c_id <$> new2)). apply Permutation_app_comm. }
    destruct (Hchildren node ([], st)) as (new & Hnew & Hperm). simpl in Hnew, Hperm.
    rewrite app_nil_r in Hperm.
    destruct (processChildren node cs ([], st)) as [subs st1]. simpl in Hnew, Hperm.
    unfold closeAssembly. destruct subs as [|sc subs]; simpl.
    + exists new. split; [done|]. simpl in Hperm. by rewrite app_nil_r in *.
    + destruct (generateUUID (rng st1)) as [uuid rng']. simpl.
      eexists (new ++ [_]). split; [by rewrite Hnew, app_assoc|].
      destruct (Z.eqb_spec (Z.of_nat (length (components st1)) + 1) (-1)) as [|_]; [lia|].
      rewrite subReferences_app, fmap_app. unfold subReferences at 2. simpl.
      rewrite app_nil_r, <- app_assoc, <- Hnew.
      rewrite (app_assoc (subReferences new)).
      apply Permutation_app_tail. exact Hperm.
Qed.

Lemma forEachRootChild_references children : ∀ st st',
  wfState st →
  references (components st) (buildItems st) ≡ₚ c_id <$> components st →
  forEachRootChild children st = Normal st' →
  references (components st') (buildItems st') ≡ₚ c_id <$> components st'.
Proof.
  induction children as [|child rest IH]; intros st st' Hst Hperm Hrun; simpl in Hrun.
  - by injection Hrun as <-.
  - destruct (exportChild_spec child st Hst) as (st1 & Hstep & Hst1 & _ & Hcs & _ & Hitems).
    rewrite Hstep in Hrun. simpl in Hrun. apply (IH st1 st' Hst1); [|done].
    destruct (processNode_references child st) as (new & Hnew & Hperm1).
    destruct (Z.eqb_spec (processNode child st).1 (-1)) as [Heq|Hne].
    + by subst st1.
    + destruct Hitems as [uuid Hitems].
      unfold references in *. rewrite Hcs, Hnew, Hitems.
      rewrite subReferences_app, !fmap_app. simpl.
      rewrite <- Hperm, <- Hperm1. apply app_swap_perm.
Qed.

Lemma wfTable_ids cs :
  wfTable cs → c_id <$> cs = (fun i => (Z.of_nat i + 1)%Z) <$> seq 0 (length cs).
Proof.
  intros Hwf. apply list_eq. intros i. rewrite !list_lookup_fmap.
  destruct (cs !! i) as [c|] eqn:Hc; simpl.
  - rewrite lookup_seq_lt by (by eapply lookup_lt_Some). simpl.
    by destruct (Hwf i c Hc) as [-> _].
  - apply lookup_ge_None in Hc. by rewrite lookup_seq_ge.
Qed.

(** The component table of an export is a forest whose roots are the
    build items: the ids referred to by sub-components and build items
    are, up to order, the ids of the table, each once.  So every
    component is used exactly once, by one assembly or by one build item;
    none is left out and none is shared. *)
Theorem every_component_used_once (object : Object3D) :
  ∃ st, traverse object = Normal st
    ∧ references (components st) (buildItems st) ≡ₚ c_id <$> components st
    ∧ NoDup (references (components st) (buildItems st))
    ∧ length (references (components st) (buildItems st)) = length (components st).
Proof.
  destruct (traverse_spec object) as (st & Hrun & Hwf & _).
  exists st. split; [done|].
  assert (references (components st) (buildItems st) ≡ₚ c_id <$> components st)
    as Hperm.
  { by apply (forEachRootChild_references (rootChildren object) initialState st
                wfState_initial). }
  split; [done|]. split.
  - rewrite Hperm, (wfTable_ids _ Hwf). apply NoDup_fmap_2; [|apply NoDup_seq].
    intros i j Hij. lia.
  - by rewrite Hperm, length_fmap.
Qed.

(** ** Counting triangles and vertices *)

Lemma processVertex_length pos a (s : VertexState) :
  (length s.2 ≤ length (processVertex pos a s).2.2 ≤ S (length s.2))%nat.
Proof.
  unfold processVertex. destruct (s.1 !! _); simpl; [lia|].
  rewrite length_app. simpl. lia.
Qed.

Lemma processTriangle_length pos c (acc : list Triangle * VertexState) :
  length (processTriangle pos c acc).1 = S (length acc.1)
  ∧ (length (processTriangle pos c acc).2.2 ≤ length acc.2.2 + 3)%nat.
Proof.
  destruct c as [[a1 a2] a3]. unfold processTriangle.
  pose proof (processVertex_length pos a1 acc.2) as H1.
  destruct (processVertex pos a1 acc.2) as [i1 s1].
  pose proof (processVertex_length pos a2 s1) as H2.
  destruct (processVertex pos a2 s1) as [i2 s2].
  pose proof (processVertex_length pos a3 s2) as H3.
  destruct (processVertex pos a3 s2) as [i3 s3]. simpl in *.
  rewrite length_app. simpl. lia.
Qed.

Lemma processTriangles_length geometry :
  length (processTriangles geometry).1 = (loopCount geometry + 2) / 3
  ∧ (length (processTriangles geometry).2.2
     ≤ 3 * length (processTriangles geometry).1)%nat.
Proof.
  unfold processTriangles.
  assert (length (triangleStarts (loopCount geometry))
          = (loopCount geometry + 2) / 3) as <-.
  { unfold triangleStarts. by rewrite length_fmap, length_seq. }
  assert (∀ starts (acc : list Triangle * VertexState),
            let res := fold_left
              (fun acc i => processTriangle (position geometry) (corners geometry i) acc)
              starts acc in
            length res.1 = length acc.1 + length starts
            ∧ (length res.2.2 ≤ length acc.2.2 + 3 * length starts)%nat) as Hfold.
  { induction starts as [|i starts IH]; intros acc; simpl; [lia|].
    destruct (IH (processTriangle (position geometry) (corners geometry i) acc))
      as [Ht Hv].
    destruct (processTriangle_length (position geometry) (corners geometry i) acc)
      as [Ht1 Hv1].
    lia. }
  destruct (Hfold (triangleStarts (loopCount geometry)) ([], (∅, []))) as [Ht Hv].
  simpl in *. lia.
Qed.

(** The component of a mesh has one triangle per turn of the loop, that
    is the number of corners divided by three and rounded up (an
    incomplete last triple still makes a triangle), and at most three
    vertices per triangle; a geometry without corners gives a component
    without vertices and triangles. *)
Theorem mesh_triangle_count (mesh : Object3D) (st : ExportState) :
  ∃ c, components (processMesh mesh st).2 = components st ++ [c]
    ∧ length (triangles c) = (loopCount (o_geometry mesh) + 2) / 3
    ∧ (length (vertices c) ≤ 3 * length (triangles c))%nat
    ∧ (loopCount (o_geometry mesh) = 0 → vertices c = [] ∧ triangles c = [])
    ∧ (wellFormedGeometry (o_geometry mesh) →
       3 * length (triangles c) = loopCount (o_geometry mesh)).
Proof.
  destruct (processMesh_component mesh st) as (c & Hc & _ & _ & Hgeo & _).
  exists c. split; [done|].
  unfold geometryOf, flattened in Hgeo. injection Hgeo as Hv Ht.
  destruct (processTriangles_length (o_geometry mesh)) as [Hcount Hle].
  rewrite Hv, Ht. split; [done|]. split; [done|]. split.
  - intros Hzero. rewrite Hzero in Hcount. simpl in Hcount.
    rewrite Hcount in Hle. simpl in Hle.
    split; apply length_zero_iff_nil; lia.
  - intros Hwf. rewrite Hcount.
    assert (loopCount (o_geometry mesh) `mod` 3 = 0) as Hmod.
    { unfold wellFormedGeometry, loopCount in *.
      destruct (index (o_geometry mesh)); [by destruct Hwf|done]. }
    apply Nat.Div0.div_exact in Hmod.
    pose proof (Nat.div_add_l (loopCount (o_geometry mesh) / 3) 3 2) as Hdiv.
    rewrite (Nat.mul_comm _ 3), <- Hmod in Hdiv. rewrite Hdiv by done.
    change (2 / 3) with 0. lia.
Qed.

(** ** NaN in the centring *)

Lemma is_nan_SF x : is_nan x = true ↔ Prim2SF x = S754_nan.
Proof.
  unfold is_nan. rewrite FloatAxioms.eqb_spec. unfold SFeqb. split.
  - intros Hx. destruct (Prim2SF x) as [s|s| |s m e] eqn:Hsf; [| |done|].
    + by destruct s.
    + by destruct s.
    + rewrite SFcompare_refl in Hx; done.
  - by intros ->.
Qed.

Lemma Math_min_nan a b : is_nan a = true ∨ is_nan b = true → is_nan (Math_min a b) = true.
Proof. unfold Math_min. by intros [->| ->]; rewrite ?orb_true_r. Qed.

Lemma Math_max_nan a b : is_nan a = true ∨ is_nan b = true → is_nan (Math_max a b) = true.
Proof. unfold Math_max. by intros [->| ->]; rewrite ?orb_true_r. Qed.

Lemma fold_nan (op : float → float → float) xs :
  (∀ a b, is_nan a = true ∨ is_nan b = true → is_nan (op a b) = true) →
  ∀ acc, is_nan acc = true ∨ (∃ x, x ∈ xs ∧ is_nan x = true) →
    is_nan (fold_left op xs acc) = true.
Proof.
  intros Hop. induction xs as [|x xs IH]; intros acc Hnan; simpl.
  - destruct Hnan as [|(x & Hx & _)]; [done|]. by apply not_elem_of_nil in Hx.
  - destruct Hnan as [Hacc|(y & Hy & Hnan)].
    + apply IH. left. apply Hop. by left.
    + apply elem_of_cons in Hy as [->|Hy].
      * apply IH. left. apply Hop. by right.
      * apply IH. right. by exists y.
Qed.

Lemma sub_nan x y : is_nan y = true → is_nan (x - y) = true.
Proof.
  rewrite !is_nan_SF, FloatAxioms.sub_spec. intros ->.
  by destruct (Prim2SF x) as [[]|[]| |].
Qed.

Lemma center_nan x y : is_nan x = true → is_nan ((x + y) / 2) = true.
Proof.
  rewrite !is_nan_SF, FloatAxioms.div_spec, FloatAxioms.add_spec. by intros ->.
Qed.

(** One NaN coordinate among the world vertices spoils its axis: the
    minimum and the maximum of the bounding box on that axis are NaN,
    and so is the centring translation on that axis. *)
Theorem nan_spoils_centering (printConfig : PrintConfig)
    (pts : list Vector3) (v : Vector3) :
  v ∈ pts →
  let box := boundingBox pts in
  let shift := centeringShift printConfig pts in
  (is_nan (vx v) = true →
   is_nan (vx box.1) = true ∧ is_nan (vx box.2) = true ∧ is_nan (vx shift) = true)
  ∧ (is_nan (vy v) = true →
     is_nan (vy box.1) = true ∧ is_nan (vy box.2) = true ∧ is_nan (vy shift) = true)
  ∧ (is_nan (vz v) = true →
     is_nan (vz box.1) = true ∧ is_nan (vz box.2) = true ∧ is_nan (vz shift) = true).
Proof.
  intros Hv box shift. subst box shift. unfold centeringShift, modelCenter.
  unfold boundingBox. destruct pts as [|p pts]; [by apply not_elem_of_nil in Hv|].
  rewrite bool_decide_eq_true_2 by (simpl; lia).
  rewrite fold_growBox. cbn [fst snd vx vy vz].
  assert (∀ proj : Vector3 → float, is_nan (proj v) = true →
            ∃ x, x ∈ proj <$> p :: pts ∧ is_nan x = true) as Hin.
  { intros proj Hnan. exists (proj v). split; [|done].
    apply list_elem_of_fmap. by exists v. }
  split; [|split]; intros Hnan.
  - pose proof (fold_nan Math_min (vx <$> p :: pts) Math_min_nan infinity
                  (or_intror (Hin vx Hnan))) as Hmin.
    pose proof (fold_nan Math_max (vx <$> p :: pts) Math_max_nan neg_infinity
                  (or_intror (Hin vx Hnan))) as Hmax.
    split; [done|]. split; [done|]. by apply sub_nan, center_nan.
  - pose proof (fold_nan Math_min (vy <$> p :: pts) Math_min_nan infinity
                  (or_intror (Hin vy Hnan))) as Hmin.
    pose proof (fold_nan Math_max (vy <$> p :: pts) Math_max_nan neg_infinity
                  (or_intror (Hin vy Hnan))) as Hmax.
    split; [done|]. split; [done|]. by apply sub_nan, center_nan.
  - pose proof (fold_nan Math_min (vz <$> p :: pts) Math_min_nan infinity
                  (or_intror (Hin vz Hnan))) as Hmin.
    pose proof (fold_nan Math_max (vz <$> p :: pts) Math_max_nan neg_infinity
                  (or_intror (Hin vz Hnan))) as Hmax.
    split; [done|]. split; [done|]. by apply sub_nan.
Qed.

End Coverage.

(** * The theorems at concrete scenes *)

Section Witnesses.
Local Existing Instance Demo.host.

(** The group of two meshes is a root of type Group with exactly two
    children, both meshes. *)
Lemma group_of_two_meshes_witness :
  (o_type Demo.group = "Group" ∨ o_type Demo.group = "Object3D")
  ∧ o_children Demo.group = [Demo.part1; Demo.part2]
  ∧ o_type Demo.part1 = "Mesh"
  ∧ o_type Demo.part2 = "Mesh"
  ∧
  ∃ st c1 c2 c3 item,
    traverse Demo.group = Normal st
    ∧ components st = [c1; c2; c3]
    ∧ c_type c1 = type_mesh ∧ c_id c1 = 1%Z
    ∧ c_type c2 = type_mesh ∧ c_id c2 = 2%Z
    ∧ c_type c3 = type_assembly ∧ c_id c3 = 3%Z
    ∧ sc_objectId <$> subComponents c3 = [1%Z; 2%Z]
    ∧ buildItems st = [item] ∧ objectId item = 3%Z.
Proof.
  split; [left; reflexivity|]. do 3 (split; [reflexivity|]).
  apply (group_of_two_meshes Demo.group Demo.part1 Demo.part2);
    [left; reflexivity|reflexivity..].
Defined.

(** The export of the group completes; its main model document and its
    state are as stated for every completed export. *)
Lemma centering_applied_at_emission_witness :
  ∃ blob st, exportRun Demo.group None = Normal (blob, st) ∧
  let printConfig := mergePrintConfig None in
  let shift := centeringShift printConfig (worldVertices Demo.group) in
  traverse Demo.group = Normal st
  ∧ (∀ anyShift s text s',
       runCreateMainModelXML anyShift printConfig s = Normal (text, s') → s' = s)
  ∧ (∀ s text s', runCreateModelSettingsXML s = Normal (text, s') → s' = s)
  ∧ (∀ s text s',
       runCreateProjectSettingsConfig printConfig s = Normal (text, s') → s' = s)
  ∧ (∀ docs st', emitDocuments printConfig st = Normal (docs, st') →
       st' = st
       ∧ components st' = components st ∧ materials st' = materials st
       ∧ buildItems st' = buildItems st)
  ∧ (∃ rs settings,
       mapC resourceXML (components st) = Normal rs
       ∧ files blob =
           [("_rels/.rels", relationshipsXML);
            ("3D/3dmodel.model",
             modelDocument (metadataLines printConfig) (String.concat nl rs)
               (String.concat nl (shiftedItemLine shift <$> buildItems st)));
            ("Metadata/model_settings.config", settings);
            ("Metadata/project_settings.config",
             createProjectSettingsConfig (materials st) printConfig);
            ("[Content_Types].xml", contentTypesXML)])
  ∧ (∀ item, itemXML shift item = shiftedItemLine shift item)
  ∧ (∀ sc, componentRefXML sc = componentLine sc)
  ∧ (∀ c v, c ∈ components st → v ∈ vertices c →
       ∃ x y z, v = {| vert_x := Some x; vert_y := Some y; vert_z := Some z |}
         ∧ vertexXML v = Normal (vertexLine x y z))
  ∧ Forall (fun item => ∃ child, child ∈ rootChildren Demo.group
                          ∧ transformMatrix item = o_matrix child) (buildItems st).
Proof.
  destruct (exportRun Demo.group None) as [[blob st]| |] eqn:Hrun;
    [|vm_compute in Hrun; discriminate..].
  exists blob, st. split; [reflexivity|].
  exact (centering_applied_at_emission Demo.group None blob st Hrun).
Defined.

(** The export of the group completes; the entries of its package are in
    the order stated for every completed export. *)
Lemma content_types_written_last_witness :
  ∃ blob, exportTo3MF Demo.group None = Normal blob ∧
  (files blob).*1 =
    ["_rels/.rels"; "3D/3dmodel.model"; "Metadata/model_settings.config";
     "Metadata/project_settings.config"; "[Content_Types].xml"]
  ∧ last (files blob).*1 = Some "[Content_Types].xml"
  ∧ head (files blob).*1 ≠ Some "[Content_Types].xml"
  ∧ (∃ earlier content, files blob = earlier ++ [("[Content_Types].xml", content)]
       ∧ earlier.*1 = ["_rels/.rels"; "3D/3dmodel.model";
                       "Metadata/model_settings.config";
                       "Metadata/project_settings.config"]).
Proof.
  destruct (exportTo3MF Demo.group None) as [blob| |] eqn:Hrun;
    [|vm_compute in Hrun; discriminate..].
  exists blob. split; [reflexivity|].
  exact (content_types_written_last Demo.group None blob Hrun).
Defined.

(** Two red boxes, processed one after the other, get the same material;
    the second adds nothing to the material list. *)
Lemma material_resolution_witness :
  let st1 := (processMesh (Demo.box "A") initialState).2 in
  sameColor Demo.red Demo.red = true
  ∧ ∃ c1 c2 m,
      components (processMesh (Demo.box "A") initialState).2
        = components initialState ++ [c1]
      ∧ components (processMesh (Demo.box "B") st1).2 = components st1 ++ [c2]
      ∧ c_material c1 = Some m ∧ c_material c2 = Some m
      ∧ m ∈ materials st1
      ∧ materials (processMesh (Demo.box "B") st1).2 = materials st1.
Proof.
  intros st1. split; [reflexivity|].
  destruct (material_resolution "A" Demo.red []) as (_ & _ & _ & _ & Hshare).
  apply (Hshare (Demo.box "A") (Demo.box "B") initialState st1);
    reflexivity.
Defined.

(** A camera is of no recognized type; an export with the camera as its
    root completes. *)
Lemma skipped_nodes_witness :
  let camera := Demo.container "PerspectiveCamera" "Camera" [Demo.part1] in
  processNode camera initialState = ((-1)%Z, initialState)
  ∧ traverse camera = Normal initialState
  ∧ ∀ printJobConfig, ∃ blob,
      exportTo3MF camera printJobConfig = Normal blob
      ∧ (files blob).*1 =
          ["_rels/.rels"; "3D/3dmodel.model"; "Metadata/model_settings.config";
           "Metadata/project_settings.config"; "[Content_Types].xml"].
Proof.
  intros camera.
  destruct (skipped_nodes camera initialState) as (Hunknown & _ & _ & Hroot & _).
  split; [apply Hunknown; reflexivity|].
  apply Hroot; reflexivity.
Defined.

(** A container that reaches two meshes: the group of two meshes. *)
Lemma assembly_of_container_witness :
  String.eqb (o_type Demo.group) "Mesh" = false
  ∧ isContainer (o_type Demo.group) = true
  ∧ reachedMeshes Demo.group ≠ []
  ∧ ∃ c earlier,
      components (processNode Demo.group initialState).2 = earlier ++ [c]
      ∧ c_type c = type_assembly
      ∧ c_name c = "Pair"
      ∧ length (subComponents c) = 2.
Proof.
  split; [reflexivity|]. split; [reflexivity|]. split; [discriminate|].
  destruct (assembly_of_container Demo.group initialState)
    as (c & earlier & Hc & Hkind & _ & _ & _ & Hname & _ & Hlen);
    [reflexivity|reflexivity|discriminate|].
  exists c, earlier. split; [exact Hc|]. split; [exact Hkind|].
  split; [exact Hname|exact Hlen].
Defined.






Lemma random16_below j : (random16 j < 16)%N.
Proof.
  simpl. pose proof (Nat.mod_upper_bound j 16). lia.
Qed.

(** The draws of the demonstration host are below 16. *)
Lemma generateUUID_shape_witness :
  (∀ j, (random16 j < 16)%N)
  ∧ isUUIDv4 (generateUUID 0).1 = true ∧ (generateUUID 0).2 = 0 + 31.
Proof.
  split; [exact random16_below|]. exact (generateUUID_shape 0 random16_below).
Defined.

(** A point whose x is NaN, among two points. *)
Lemma nan_spoils_centering_witness :
  let p := {| vx := nan; vy := 0; vz := 0 |} in
  let pts := [ {| vx := 1; vy := 2; vz := 3 |}; p ] in
  p ∈ pts
  ∧ is_nan (vx p) = true
  ∧ is_nan (vx (boundingBox pts).1) = true
  ∧ is_nan (vx (boundingBox pts).2) = true
  ∧ is_nan (vx (centeringShift defaultPrintConfig pts)) = true.
Proof.
  intros p pts.
  assert (p ∈ pts) as Hin by (right; left).
  split; [exact Hin|]. split; [reflexivity|].
  destruct (nan_spoils_centering defaultPrintConfig pts p Hin) as (Hx & _).
  exact (Hx eq_refl).
Defined.

(** *** The exporter's tests, on the tables *)

Example single_mesh :
  Demo.summary <$> traverse Demo.part1
  = Normal ([(1%Z, "Part1", type_mesh, [])], [1%Z]).
Proof. vm_compute. reflexivity. Qed.

Example nested_groups :
  Demo.summary <$> traverse Demo.nestedScene
  = Normal ([(1%Z, "MeshA1", type_mesh, []); (2%Z, "GroupA", type_assembly, [1%Z]);
             (3%Z, "MeshB1", type_mesh, []); (4%Z, "GroupB", type_assembly, [3%Z])],
            [2%Z; 4%Z]).
Proof. vm_compute. reflexivity. Qed.

Example mixed_content :
  Demo.summary <$> traverse Demo.mixedTestScene
  = Normal ([(1%Z, "SoloMesh", type_mesh, []); (2%Z, "Mesh-2", type_mesh, []);
             (3%Z, "Mesh-3", type_mesh, []);
             (4%Z, "GroupObj", type_assembly, [2%Z; 3%Z]);
             (5%Z, "SecondSolo", type_mesh, [])],
            [1%Z; 4%Z; 5%Z]).
Proof. vm_compute. reflexivity. Qed.

(** An empty group and a camera leave no trace. *)
Example skipped_in_scene :
  Demo.summary <$> traverse Demo.mixedScene
  = Normal ([(1%Z, "Part2", type_mesh, []); (2%Z, "GroupB", type_assembly, [1%Z])],
            [2%Z]).
Proof. vm_compute. reflexivity. Qed.

(** The square names its first position twice; both resolve to vertex 0. *)
Example square_triangles :
  (processTriangles Demo.square).1
  = [{| v1 := 0; v2 := 1; v3 := 2 |}; {| v1 := 0; v2 := 2; v3 := 3 |}]
  ∧ length (processTriangles Demo.square).2.2 = 4.
Proof. vm_compute. split; reflexivity. Qed.

(** All the meshes of the mixed scene are red: one material. *)
Example one_material_for_one_colour :
  (fun st => (extruder <$> materials st,
              (fun c => extruder <$> c_material c) <$> components st))
    <$> traverse Demo.mixedTestScene
  = Normal ([1%Z], [Some 1%Z; Some 1%Z; Some 1%Z; None; Some 1%Z]).
Proof. vm_compute. reflexivity. Qed.

(** The centring translation of the group of two meshes, whose box is
    [0, 12] x [0, 2] x [0, 0], on the default bed. *)
Example shift_of_group :
  (fun st => centeringShift defaultPrintConfig (allVerticesWorld st))
    <$> traverse Demo.group
  = Normal {| vx := 122; vy := 127; vz := 0 |}.
Proof. vm_compute. reflexivity. Qed.

(** The second mesh of the group sits at x = 10: its stored vertices are
    those of its buffer, and only the world-space points are moved. *)
Example stored_in_local_space :
  (fun st => (map (fun c => map (fun v => (vert_x v, vert_y v)) (vertices c))
                (drop 1 (take 2 (components st))),
              map vx (allVerticesWorld st)))
    <$> traverse Demo.group
  = Normal ([[(Some 0, Some 0); (Some 2, Some 0); (Some 2, Some 2); (Some 0, Some 2)]]%float,
            [0; 1; 0; 10; 12; 12; 10]%float).
Proof. vm_compute. reflexivity. Qed.

(** One material: the colour list of the document gets one white entry,
    the material list keeps its single entry. *)
Example colours_of_one_material :
  (fun st => (length (materials st), filamentColours (materials st)))
    <$> traverse Demo.part1
  = Normal (1, ["#ff0000"; "#FFFFFF"]).
Proof. vm_compute. reflexivity. Qed.

(** Reading outside the buffers stores an undefined vertex; the
    traversal ends normally and the main-model emitter throws. *)
Example broken_mesh :
  (fun st => (vertices <$> components st, triangles <$> components st))
    <$> traverse Demo.brokenMesh
  = Normal ([[ {| vert_x := Some 0%float; vert_y := Some 0%float;
                  vert_z := Some 0%float |};
               undefinedVertex ]],
            [[ {| v1 := 0; v2 := 1; v3 := 1 |} ]])
  ∧ exportTo3MF Demo.brokenMesh None = Throw.
Proof. vm_compute. split; reflexivity. Qed.

(** The mesh that [new Mesh()] makes has no position attribute: the
    export throws in the traversal, alone or next to a triangle. *)
Example bare_mesh :
  Sparse.traverse Demo.bareMesh = Throw
  ∧ Sparse.exportTo3MF Demo.bareMesh None = Throw
  ∧ Sparse.exportTo3MF Demo.bareScene None = Throw.
Proof. vm_compute. repeat split; reflexivity. Qed.

(** The world vertices of the group, read off the scene: the triangle in
    place and the square moved by ten along x. *)
Example world_vertices_of_group :
  worldVertices Demo.group =
    [ {| vx := 0; vy := 0; vz := 0 |}; {| vx := 1; vy := 0; vz := 0 |};
      {| vx := 0; vy := 1; vz := 0 |};
      {| vx := 10; vy := 0; vz := 0 |}; {| vx := 12; vy := 0; vz := 0 |};
      {| vx := 12; vy := 2; vz := 0 |}; {| vx := 10; vy := 2; vz := 0 |} ].
Proof. vm_compute. reflexivity. Qed.

(** For a scene without children the material list is empty when the
    project settings are serialized, and still empty afterwards; the two
    white entries are in the colour list of the document only. *)
Lemma material_list_not_padded :
  (∃ st docs,
     traverse Demo.emptyScene = Normal st
     ∧ emitDocuments (mergePrintConfig None) st = Normal (docs, st)
     ∧ materials st = []
     ∧ filamentColours (materials st) = ["#FFFFFF"; "#FFFFFF"])
  ∧ ¬ materialListPadded Demo.emptyScene None.
Proof.
  assert (∃ st docs,
     traverse Demo.emptyScene = Normal st
     ∧ emitDocuments (mergePrintConfig None) st = Normal (docs, st)
     ∧ materials st = []
     ∧ filamentColours (materials st) = ["#FFFFFF"; "#FFFFFF"]) as Hrun.
  { destruct (emitDocuments (mergePrintConfig None) initialState)
      as [[docs st']| |] eqn:Hemit; [|vm_compute in Hemit; discriminate..].
    apply emitDocuments_inv in Hemit as Hinv. destruct Hinv as [-> _].
    exists initialState, docs. by repeat split. }
  split; [exact Hrun|].
  destruct Hrun as (st & docs & Htrav & Hemit & Hms & _).
  intros Hpad. destruct (Hpad st docs st Htrav Hemit) as [Hlen _].
  rewrite Hms in Hlen. simpl in Hlen. lia.
Qed.

End Witnesses.
